(** * coedit: client-side collaboration engine

    A shallow embedding of the TypeScript client of the coedit
    collaborative Markdown editor: the text operations of [lib/ot]
    ([applyOps], [diffToOps]), the pending queue and the heartbeat of
    [lib/realtime], the HTTP helpers of [lib/api], and the message
    handlers of the edit page.

    JavaScript strings are sequences of UTF-16 code units; the spread
    [[...s]] iterates them by code point.  Numbers that the code uses as
    positions, lengths, revisions and time stamps are modelled as [Z]. *)

From Stdlib Require Import ZArith Lia Bool.
From stdpp Require Import base tactics option list strings.

Local Open Scope Z_scope.

(** ** JavaScript strings *)

Module JsString.

(** A code unit is a 16-bit value; a string is a list of them. *)
Definition code_unit := Z.
Definition jsstring := list code_unit.

Definition well_formed (s : jsstring) : Prop :=
  Forall (fun c => 0 <= c < 65536) s.

Definition is_high_surrogate (c : code_unit) : bool :=
  (55296 <=? c) && (c <=? 56319).          (* D800..DBFF *)
Definition is_low_surrogate (c : code_unit) : bool :=
  (56320 <=? c) && (c <=? 57343).          (* DC00..DFFF *)

(** A string of ASCII characters as a JavaScript string. *)
Definition js (s : string) : jsstring :=
  map (fun c => Z.of_nat (Ascii.nat_of_ascii c)) (String.list_ascii_of_string s).

(** [[...s]]: the string iterator yields one element per code point; a
    high surrogate followed by a low surrogate is one element of two
    code units, every other code unit (lone surrogates too) is an
    element of its own. *)
Fixpoint code_points (s : jsstring) : list jsstring :=
  match s with
  | [] => []
  | c :: rest =>
      match rest with
      | d :: rest' =>
          if is_high_surrogate c && is_low_surrogate d
          then [c; d] :: code_points rest'
          else [c] :: code_points rest
      | [] => [[c]]
      end
  end.

(** [arr.join('')] *)
Definition join (parts : list jsstring) : jsstring := concat parts.

(** [[...s].length]: the number of code points. *)
Definition cp_length (s : jsstring) : Z := Z.of_nat (length (code_points s)).

(** [s.length]: the number of code units. *)
Definition str_length (s : jsstring) : Z := Z.of_nat (length s).

(** [a === b] on strings, and on possibly-undefined array elements. *)
Definition str_eqb (a b : jsstring) : bool := bool_decide (a = b).
Definition elem_eqb (a b : option jsstring) : bool := bool_decide (a = b).

(** Relative index of [Array.prototype.slice] / [String.prototype.slice]:
    a negative index counts from the end, and the result is clamped to
    the range [0 .. len]. *)
Definition rel_index (len k : Z) : Z :=
  if k <? 0 then Z.max (len + k) 0 else Z.min k len.

(** [arr.slice(start, end)]; [end_ = None] is the one-argument form. *)
Definition slice {A} (l : list A) (start : Z) (end_ : option Z) : list A :=
  let len := Z.of_nat (length l) in
  let k := rel_index len start in
  let final := match end_ with
               | None => len
               | Some e => rel_index len e
               end in
  take (Z.to_nat (final - k)) (drop (Z.to_nat k) l).

(** [arr[k]] for a numeric index: [None] is [undefined]. *)
Definition at_index {A} (l : list A) (k : Z) : option A :=
  if k <? 0 then None else l !! Z.to_nat k.

(** The characters [String.prototype.trim] strips: white space and line
    terminators of ECMAScript. *)
Definition is_js_space (c : code_unit) : bool :=
  ((9 <=? c) && (c <=? 13)) || (c =? 32) || (c =? 160) || (c =? 5760)
  || ((8192 <=? c) && (c <=? 8202)) || (c =? 8232) || (c =? 8233)
  || (c =? 8239) || (c =? 8287) || (c =? 12288) || (c =? 65279).

Fixpoint trim_start (s : jsstring) : jsstring :=
  match s with
  | c :: rest => if is_js_space c then trim_start rest else s
  | [] => []
  end.

Definition trim (s : jsstring) : jsstring :=
  rev (trim_start (rev (trim_start s))).

End JsString.

Import JsString.

(** ** lib/ot: operations on the text *)

Inductive Op : Type :=
| Insert (pos : Z) (text : jsstring)
| Delete (pos : Z) (len : Z).

#[global] Instance Op_eq_dec : EqDecision Op.
Proof. solve_decision. Defined.

(** One turn of the loop of [applyOps]. *)
Definition applyOp (s : jsstring) (op : Op) : jsstring :=
  match op with
  | Insert pos text =>
      let head := join (slice (code_points s) 0 (Some pos)) in
      let tail := join (slice (code_points s) pos None) in
      head ++ text ++ tail
  | Delete pos len =>
      let head := join (slice (code_points s) 0 (Some pos)) in
      let tail := join (slice (code_points s) (pos + len) None) in
      head ++ tail
  end.

Definition applyOps (content : jsstring) (ops : list Op) : jsstring :=
  fold_left applyOp ops content.

(** The text buffer of the specification (section 4.1): a sequence of
    code points with [insert] and [delete] at a position inside it, and
    the clamping of an operation to a buffer of [n] code points. *)
Module TextBuffer.

Definition insert (cps : list jsstring) (pos : nat) (text : jsstring)
  : jsstring :=
  join (take pos cps) ++ text ++ join (drop pos cps).

Definition delete (cps : list jsstring) (pos len : nat) : jsstring :=
  join (take pos cps) ++ join (drop (pos + len) cps).

Definition clamp_pos (n pos : Z) : Z := Z.min pos n.
Definition clamp_len (n pos len : Z) : Z := Z.min len (n - clamp_pos n pos).

Definition clamp (n : Z) (op : Op) : Op :=
  match op with
  | Insert pos text => Insert (clamp_pos n pos) text
  | Delete pos len => Delete (clamp_pos n pos) (clamp_len n pos len)
  end.

Definition apply (cps : list jsstring) (op : Op) : jsstring :=
  match op with
  | Insert pos text => insert cps (Z.to_nat pos) text
  | Delete pos len => delete cps (Z.to_nat pos) (Z.to_nat len)
  end.

(** An operation with non-negative [pos] and [len]. *)
Definition nonneg (op : Op) : Prop :=
  match op with
  | Insert pos _ => 0 <= pos
  | Delete pos len => 0 <= pos /\ 0 <= len
  end.

(** An operation inside a buffer of [n] code points:
    [0 <= pos (+ len) <= n]. *)
Definition in_bounds (n : Z) (op : Op) : Prop :=
  match op with
  | Insert pos _ => 0 <= pos <= n
  | Delete pos len => 0 <= pos /\ 0 <= len /\ pos + len <= n
  end.

End TextBuffer.

(** [while (cond(i)) i++], with a bound on the number of turns; [None]
    when the bound is reached before the condition fails. *)
Fixpoint count_while (fuel : nat) (cond : Z -> bool) (i : Z) : option Z :=
  match fuel with
  | O => None
  | S fuel' => if cond i then count_while fuel' cond (i + 1) else Some i
  end.

Section DiffLoops.
Variables a b : list jsstring.

Definition alen : Z := Z.of_nat (length a).
Definition blen : Z := Z.of_nat (length b).

(** [i < a.length && i < b.length && a[i] === b[i]] *)
Definition prefix_cond (i : Z) : bool :=
  (i <? alen) && (i <? blen) && elem_eqb (at_index a i) (at_index b i).

(** [j < a.length - i && j < b.length - i &&
     a[a.length - 1 - j] === b[b.length - 1 - j]] *)
Definition suffix_cond (i j : Z) : bool :=
  (j <? alen - i) && (j <? blen - i)
  && elem_eqb (at_index a (alen - 1 - j)) (at_index b (blen - 1 - j)).
End DiffLoops.

Definition diffToOps_fuel (fuel : nat) (before after : jsstring)
  : option (list Op) :=
  if str_eqb before after then Some []
  else
    let a := code_points before in
    let b := code_points after in
    match count_while fuel (prefix_cond a b) 0 with
    | None => None
    | Some i =>
        match count_while fuel (suffix_cond a b i) 0 with
        | None => None
        | Some j =>
            let beforeMid := join (slice a i (Some (alen a - j))) in
            let afterMid := join (slice b i (Some (blen b - j))) in
            let ops1 :=
              if 0 <? str_length beforeMid
              then [Delete i (str_length beforeMid)] else [] in
            let ops2 :=
              if 0 <? str_length afterMid
              then ops1 ++ [Insert i afterMid] else ops1 in
            Some ops2
        end
    end.

(** Both loops leave by their condition within [a.length + 1] tests (see
    [diffToOps_fuel_enough]); the default is never taken. *)
Definition diffToOps (before after : jsstring) : list Op :=
  default [] (diffToOps_fuel (S (length (code_points before))) before after).

(** ** The OT rules of the specification *)

Module SpecOT.

(** Modelled from the spec: the transform function is not part of the
    client sources; this is the table of section 4.2, [transform a b]
    being the incoming operation [a] rewritten as if issued after the
    applied operation [b].  [a_first] is the author tie-break
    [author_a < author_b].  A delete may become zero, one or two
    deletes, so the result is a list. *)
Definition transform (a_first : bool) (op_a op_b : Op) : list Op :=
  match op_a, op_b with
  | Insert pa ta, Insert pb tb =>
      if (pa <? pb) || ((pa =? pb) && a_first)
      then [Insert pa ta]
      else [Insert (pa + cp_length tb) ta]
  | Insert pa ta, Delete pb lb =>
      if pa <=? pb then [Insert pa ta]
      else if pb + lb <=? pa then [Insert (pa - lb) ta]
      else [Insert pb ta]
  | Delete pa la, Insert pb tb =>
      if pb <=? pa then [Delete (pa + cp_length tb) la]
      else if pa + la <=? pb then [Delete pa la]
      else [Delete pa (pb - pa);
            Delete (pb + cp_length tb) (la - (pb - pa))]
  | Delete pa la, Delete pb lb =>
      let overlap :=
        Z.max 0 (Z.min (pa + la) (pb + lb) - Z.max pa pb) in
      let start :=
        if pa <=? pb then pa
        else if pb + lb <=? pa then pa - lb
        else pb in
      if 0 <? la - overlap then [Delete start (la - overlap)] else []
  end.

(** A multi-op edit is transformed element-wise. *)
Definition transform_ops (a_first : bool) (ops : list Op) (op_b : Op)
  : list Op :=
  concat (map (fun op_a => transform a_first op_a op_b) ops).

End SpecOT.

(** ** lib/realtime: the pending queue *)

Inductive SelectionDirection := forward | backward.

Record CursorState := {
  position : Z;
  anchor : option Z;
  selection_direction : option SelectionDirection;
}.

Record PendingEdit := {
  op_id : jsstring;
  base_rev : Z;
  ops : list Op;
  cursor_before : option CursorState;
  cursor_after : option CursorState;
  ts : option Z;
}.

Record PendingQueueSnapshot := {
  snap_latestAck : option Z;
  snap_items : option (list PendingEdit);
}.

(** A string is truthy when it is not empty. *)
Definition truthy (s : jsstring) : bool :=
  match s with [] => false | _ => true end.

Module PendingQueue.

(** The two private fields of the class, read by value. *)
Record t := {
  q : list PendingEdit;
  latestAck : Z;
}.

Definition empty : t := {| q := []; latestAck := 0 |}.

Definition enqueue (pq : t) (edit : PendingEdit) : t :=
  {| q := q pq ++ [edit]; latestAck := latestAck pq |}.

(** [ack(opts)]: both fields of [opts] are optional. *)
Definition ack (pq : t) (opId : option jsstring) (serverSeq : option Z)
  : t :=
  let q1 :=
    match opId with
    | Some id =>
        if truthy id
        then filter (fun entry => op_id entry <> id) (q pq)
        else q pq
    | None => q pq
    end in
  let latest1 :=
    match serverSeq with
    | Some s => if latestAck pq <? s then s else latestAck pq
    | None => latestAck pq
    end in
  {| q := q1; latestAck := latest1 |}.

Definition latestServerSeq (pq : t) : Z := latestAck pq.

Definition setLatestServerSeq (pq : t) (seq : Z) : t :=
  if latestAck pq <? seq
  then {| q := q pq; latestAck := seq |}
  else pq.

(** [flush(sender)]: the calls made to [sender], in order. *)
Definition flush {A} (pq : t) (sender : PendingEdit -> A) : list A :=
  map sender (q pq).

Definition isEmpty (pq : t) : bool :=
  Z.of_nat (length (q pq)) =? 0.

(** [{ ...op }] and [{ ...item, ops: item.ops.map(op => ({ ...op })) }],
    on values: the fields are read one by one into a new value. *)
Definition copy_op (op : Op) : Op :=
  match op with
  | Insert pos text => Insert pos text
  | Delete pos len => Delete pos len
  end.

Definition copy_edit (item : PendingEdit) : PendingEdit :=
  {| op_id := op_id item;
     base_rev := base_rev item;
     ops := map copy_op (ops item);
     cursor_before := cursor_before item;
     cursor_after := cursor_after item;
     ts := ts item |}.

Definition snapshot (pq : t) : PendingQueueSnapshot :=
  {| snap_latestAck := Some (latestAck pq);
     snap_items := Some (map copy_edit (q pq)) |}.

(** The argument of [replace]: nothing, an array of edits, or a
    snapshot object. *)
Inductive replace_arg :=
| NoArg
| Items (items : list PendingEdit)
| Snap (snapshot : PendingQueueSnapshot).

Definition replace (pq : t) (arg : replace_arg) : t :=
  match arg with
  | NoArg => {| q := []; latestAck := 0 |}
  | Items items => {| q := map copy_edit items; latestAck := 0 |}
  | Snap s =>
      {| q := map copy_edit (default [] (snap_items s));
         latestAck := default 0 (snap_latestAck s) |}
  end.

End PendingQueue.

(** ** lib/api: the HTTP helpers *)

Module Api.

Record Snapshot := {
  snap_slug : jsstring;
  snap_rev : Z;
  snap_content : jsstring;
}.

(** What the code reads of a [Response]: the status, the [ok] getter
    (the status is in the range 200..299, by the Fetch standard), and
    what [res.json()] comes to: the decoding of the body, of a type [J]
    left open, or, for a body that is not JSON (an HTML page, an empty
    body), the message of the [SyntaxError] it rejects with. *)
Record Response (J : Type) := {
  status : Z;
  json : J + jsstring;
}.
Arguments status {J} _.
Arguments json {J} _.

Definition ok {J} (res : Response J) : bool :=
  (200 <=? status res) && (status res <=? 299).

(** What a call comes to: a value, or one of the two classes of
    exception the callers tell apart with [instanceof]. *)
Inductive outcome (A : Type) :=
| Returned (a : A)
| ThrewUnauthorized                 (* new UnauthorizedError(..) *)
| ThrewError (message : jsstring).  (* any other error: new Error(..),
                                       the SyntaxError of res.json() *)
Arguments Returned {A} _.
Arguments ThrewUnauthorized {A}.
Arguments ThrewError {A} _.

Definition is_unauthorized {A} (o : outcome A) : bool :=
  match o with ThrewUnauthorized => true | _ => false end.
Definition is_generic_error {A} (o : outcome A) : bool :=
  match o with ThrewError _ => true | _ => false end.
Definition is_returned {A} (o : outcome A) : bool :=
  match o with Returned _ => true | _ => false end.

Definition msg_fetch_failed : jsstring := js "failed to fetch snapshot".
Definition msg_update_failed : jsstring := js "failed to update password".

(** [fetchSnapshot], from the response of the awaited [fetch] on.  Its
    last statement is [return res.json()]: the promise of the function
    settles as that of [res.json()] does. *)
Definition fetchSnapshot {J} (res : Response J) : outcome J :=
  if status res =? 401 then ThrewUnauthorized
  else if negb (ok res) then ThrewError msg_fetch_failed
  else match json res with
       | inl value => Returned value
       | inr message => ThrewError message
       end.

(** [updatePasswordOnServer], from the response on; it returns nothing. *)
Definition updatePasswordOnServer {J} (res : Response J) : outcome unit :=
  if status res =? 401 then ThrewUnauthorized
  else if negb (ok res) then ThrewError msg_update_failed
  else Returned tt.

End Api.

(** ** The edit page *)

Inductive ReadyState := CONNECTING | OPEN | CLOSING | CLOSED.

#[global] Instance ReadyState_eq_dec : EqDecision ReadyState.
Proof. solve_decision. Defined.

Record ImeSnapshot := {
  ime_phase : jsstring;
  ime_range : option (Z * Z);
  ime_text : option jsstring;
}.

Record PresenceState := {
  client_id : jsstring;
  label : option jsstring;
  color : option jsstring;
  cursor : option CursorState;
  ime : option ImeSnapshot;
  last_seen : option Z;
}.

Record EditPayload := {
  e_base_rev : Z;
  e_ops : list Op;
  e_client_id : option jsstring;
  e_op_id : option jsstring;
  e_cursor_before : option CursorState;
  e_cursor_after : option CursorState;
  e_ts : option Z;
}.

(** Frames the page passes to [send]. *)
Inductive WsOutbound :=
| EditMsg (slug : jsstring) (edit : EditPayload)
| ProfileMsg (slug : jsstring) (label color : jsstring)
| PingMsg (ts : Z).

(** Frames [handleMessage] tells apart. *)
Inductive WsInbound :=
| SnapshotMsg (payload : Api.Snapshot)
| OpBroadcastMsg (operation : Op) (serverSeq : Z)
| AckMsg (opId : option jsstring) (serverSeq : option Z)
| UnknownMsg.

Inductive AuthState := unknown | authorized | needPassword.

(** What a handler does besides changing the state of the page. *)
Inductive Effect :=
| Send (frame : WsOutbound)      (* a call of [send] on the socket *)
| CloseSocket                    (* a call of [close] on the socket *)
| CallReconcile                  (* reconcileWithServer() is started *)
| ConsoleError.

Module EditPage.

(** The refs and states of [EditPageClient] the handlers below use.  A
    React state and the ref mirroring it ([content] and [contentRef],
    [rev] and [revRef], [displayName] and [displayNameRef]) are one
    field. *)
Record t := {
  slug : jsstring;
  clientId : jsstring;
  content : jsstring;
  rev : Z;
  queue : PendingQueue.t;                    (* queueRef.current *)
  storedQueue : option PendingQueueSnapshot; (* localStorage, queue key *)
  ws : option ReadyState;                    (* wsRef.current *)
  wsReady : bool;                            (* wsReadyRef.current *)
  authState : AuthState;
  displayName : jsstring;
  displayColor : jsstring;
  profileNameInput : jsstring;
  profileColorInput : jsstring;
  presence : list (jsstring * PresenceState);
}.

Definition set_content (st : t) (v : jsstring) : t :=
  {| slug := slug st; clientId := clientId st; content := v; rev := rev st;
     queue := queue st; storedQueue := storedQueue st; ws := ws st;
     wsReady := wsReady st; authState := authState st;
     displayName := displayName st; displayColor := displayColor st;
     profileNameInput := profileNameInput st;
     profileColorInput := profileColorInput st; presence := presence st |}.

Definition set_rev (st : t) (v : Z) : t :=
  {| slug := slug st; clientId := clientId st; content := content st;
     rev := v;
     queue := queue st; storedQueue := storedQueue st; ws := ws st;
     wsReady := wsReady st; authState := authState st;
     displayName := displayName st; displayColor := displayColor st;
     profileNameInput := profileNameInput st;
     profileColorInput := profileColorInput st; presence := presence st |}.

Definition set_queue (st : t) (v : PendingQueue.t) : t :=
  {| slug := slug st; clientId := clientId st; content := content st;
     rev := rev st;
     queue := v; storedQueue := storedQueue st; ws := ws st;
     wsReady := wsReady st; authState := authState st;
     displayName := displayName st; displayColor := displayColor st;
     profileNameInput := profileNameInput st;
     profileColorInput := profileColorInput st; presence := presence st |}.

Definition set_authState (st : t) (v : AuthState) : t :=
  {| slug := slug st; clientId := clientId st; content := content st;
     rev := rev st;
     queue := queue st; storedQueue := storedQueue st; ws := ws st;
     wsReady := wsReady st; authState := v;
     displayName := displayName st; displayColor := displayColor st;
     profileNameInput := profileNameInput st;
     profileColorInput := profileColorInput st; presence := presence st |}.

Definition set_profile (st : t) (name colour : jsstring) : t :=
  {| slug := slug st; clientId := clientId st; content := content st;
     rev := rev st;
     queue := queue st; storedQueue := storedQueue st; ws := ws st;
     wsReady := wsReady st; authState := authState st;
     displayName := name; displayColor := colour;
     profileNameInput := profileNameInput st;
     profileColorInput := profileColorInput st; presence := presence st |}.

Definition set_presence (st : t) (v : list (jsstring * PresenceState)) : t :=
  {| slug := slug st; clientId := clientId st; content := content st;
     rev := rev st;
     queue := queue st; storedQueue := storedQueue st; ws := ws st;
     wsReady := wsReady st; authState := authState st;
     displayName := displayName st; displayColor := displayColor st;
     profileNameInput := profileNameInput st;
     profileColorInput := profileColorInput st; presence := v |}.

(** [persistQueue]: the queue is written as JSON, which is its
    [toJSON()], that is its [snapshot()]. *)
Definition persistQueue (st : t) : t :=
  {| slug := slug st; clientId := clientId st; content := content st;
     rev := rev st; queue := queue st;
     storedQueue := Some (PendingQueue.snapshot (queue st));
     ws := ws st;
     wsReady := wsReady st; authState := authState st;
     displayName := displayName st; displayColor := displayColor st;
     profileNameInput := profileNameInput st;
     profileColorInput := profileColorInput st; presence := presence st |}.

(** *** handleMessage *)

Definition handleMessage (st : t) (msg : WsInbound) : t * list Effect :=
  match msg with
  | SnapshotMsg payload =>
      if negb (str_eqb (Api.snap_slug payload) (slug st)) then (st, [])
      else
        let st1 := set_content st (Api.snap_content payload) in
        let st2 := set_rev st1 (Api.snap_rev payload) in
        (set_queue st2
           (PendingQueue.setLatestServerSeq (queue st2)
              (Api.snap_rev payload)), [])
  | OpBroadcastMsg operation serverSeq =>
      let st1 := set_content st (applyOps (content st) [operation]) in
      let st2 := set_rev st1 serverSeq in
      (set_queue st2
         (PendingQueue.setLatestServerSeq (queue st2) serverSeq), [])
  | AckMsg opId serverSeq =>
      let st1 := set_queue st (PendingQueue.ack (queue st) opId serverSeq) in
      let st2 := persistQueue st1 in
      let st3 := match serverSeq with
                 | Some s => set_rev st2 s
                 | None => st2
                 end in
      (st3, if PendingQueue.isEmpty (queue st3) then [CallReconcile] else [])
  | UnknownMsg => (st, [])
  end.

(** *** reconcileWithServer

    The function is asynchronous: it tests the queue, awaits
    [fetchSnapshot], and goes on with the state the page has when the
    fetch settles.  [reconcile_begin] is the test (on [false] the
    function returns at once and nothing is fetched);
    [reconcile_resume] is the rest, given what [fetchSnapshot] came to
    and the values of [uuidv4()] and [Date.now()]. *)

Definition reconcile_begin (st : t) : bool :=
  PendingQueue.isEmpty (queue st).

Definition handleAuthError {A} (st : t) (err : Api.outcome A)
  : t * list Effect :=
  match err with
  | Api.ThrewUnauthorized =>
      (set_authState st needPassword,
       match ws st with Some _ => [CloseSocket] | None => [] end)
  | Api.ThrewError _ => (st, [ConsoleError])
  | Api.Returned _ => (st, [])
  end.

Definition reconcile_resume (st : t) (res : Api.outcome Api.Snapshot)
    (new_op_id : jsstring) (nowTs : Z) : t * list Effect :=
  match res with
  | Api.Returned snap =>
      let st1 := set_rev st (Api.snap_rev snap) in
      let st2 := set_queue st1
                   (PendingQueue.setLatestServerSeq (queue st1)
                      (Api.snap_rev snap)) in
      if negb (str_eqb (Api.snap_content snap) (content st2)) then
        let diff := diffToOps (Api.snap_content snap) (content st2) in
        if 0 <? Z.of_nat (length diff) then
          let pending :=
            {| op_id := new_op_id;
               base_rev := Api.snap_rev snap;
               ops := diff;
               cursor_before := None;
               cursor_after := None;
               ts := Some nowTs |} in
          let st3 := set_queue st2
                       (PendingQueue.enqueue (queue st2) pending) in
          let st4 := persistQueue st3 in
          let msg :=
            EditMsg (slug st4)
              {| e_base_rev := base_rev pending;
                 e_ops := ops pending;
                 e_client_id := Some (clientId st4);
                 e_op_id := Some new_op_id;
                 e_cursor_before := None;
                 e_cursor_after := None;
                 e_ts := Some nowTs |} in
          (st4, match ws st4 with
                | Some _ => [Send msg]     (* ws?.send(..) *)
                | None => []
                end)
        else (st2, [])
      else (st2, [])
  | _ => handleAuthError st res
  end.

(** A whole call: [during] is what other handlers did to the page while
    the fetch was pending.  The boolean tells whether a snapshot was
    fetched at all. *)
Definition reconcileWithServer (st : t) (during : t -> t)
    (res : Api.outcome Api.Snapshot) (new_op_id : jsstring) (nowTs : Z)
  : t * list Effect * bool :=
  if reconcile_begin st
  then (reconcile_resume (during st) res new_op_id nowTs, true)
  else ((st, []), false).

(** The edit frames among the effects: what the handler sent. *)
Definition sent_edits (effs : list Effect) : list EditPayload :=
  omap (fun e => match e with
                 | Send (EditMsg _ edit) => Some edit
                 | _ => None
                 end) effs.

(** The page as [EditPageClient] first renders it. *)
Definition initial (slug0 clientId0 name0 color0 : jsstring) : t :=
  {| slug := slug0; clientId := clientId0; content := []; rev := 0;
     queue := PendingQueue.empty; storedQueue := None; ws := None;
     wsReady := false; authState := unknown;
     displayName := name0; displayColor := color0;
     profileNameInput := name0; profileColorInput := color0;
     presence := [] |}.

Definition set_ws (st : t) (v : option ReadyState) (ready : bool) : t :=
  {| slug := slug st; clientId := clientId st; content := content st;
     rev := rev st;
     queue := queue st; storedQueue := storedQueue st; ws := v;
     wsReady := ready; authState := authState st;
     displayName := displayName st; displayColor := displayColor st;
     profileNameInput := profileNameInput st;
     profileColorInput := profileColorInput st; presence := presence st |}.

Definition set_inputs (st : t) (name colour : jsstring) : t :=
  {| slug := slug st; clientId := clientId st; content := content st;
     rev := rev st;
     queue := queue st; storedQueue := storedQueue st; ws := ws st;
     wsReady := wsReady st; authState := authState st;
     displayName := displayName st; displayColor := displayColor st;
     profileNameInput := name;
     profileColorInput := colour; presence := presence st |}.

End EditPage.

(** ** Profile and presence colour *)

Module Profile.
Import EditPage.

(* "ユーザー-" *)
Definition user_prefix : jsstring := [12518; 12540; 12470; 12540; 45].

(** [s.slice(start, end)] on a string counts code units. *)
Definition str_slice (s : jsstring) (start : Z) (end_ : option Z)
  : jsstring := slice s start end_.

Definition fallbackLabel (clientId : jsstring) : jsstring :=
  user_prefix ++ str_slice clientId 0 (Some 6).

Definition is_hex_digit (c : code_unit) : bool :=
  ((48 <=? c) && (c <=? 57))          (* 0-9 *)
  || ((97 <=? c) && (c <=? 102))      (* a-f *)
  || ((65 <=? c) && (c <=? 70)).      (* A-F *)

(** [/^#([0-9a-fA-F]{6})$/.test(s)] *)
Definition matches_hex_color (s : jsstring) : bool :=
  match s with
  | h :: digits =>
      (h =? 35) && (length digits =? 6)%nat && forallb is_hex_digit digits
  | [] => false
  end.

(** The first 32 code points of a string: what the specification asks
    a label to be cut to. *)
Definition take_code_points (n : nat) (s : jsstring) : jsstring :=
  join (take n (code_points s)).

(** [profileNameInput.trim().slice(0, 32)], then the fallback. *)
Definition final_name (input clientId : jsstring) : jsstring :=
  let trimmed := str_slice (trim input) 0 (Some 32) in
  if 0 <? str_length trimmed then trimmed else fallbackLabel clientId.

(** [next[id] = entry] on a copy of the presence object, for an [id]
    that is an ordinary key, as the page's own [uuidv4()] is; the ids
    that peers supply go through [Presence.assign]. *)
Fixpoint presence_set (m : list (jsstring * PresenceState))
    (id : jsstring) (entry : PresenceState)
  : list (jsstring * PresenceState) :=
  match m with
  | [] => [(id, entry)]
  | (k, v) :: m' =>
      if str_eqb k id then (k, entry) :: m'
      else (k, v) :: presence_set m' id entry
  end.

Fixpoint presence_get (m : list (jsstring * PresenceState)) (id : jsstring)
  : option PresenceState :=
  match m with
  | [] => None
  | (k, v) :: m' => if str_eqb k id then Some v else presence_get m' id
  end.

(** The update both [handleProfileSubmit] and [sendProfileUpdate] make
    to the entry of the client itself. *)
Definition own_presence (st : t) (labelValue colorValue : jsstring)
    (now : Z) : t :=
  let existing :=
    default {| client_id := clientId st; label := None; color := None;
               cursor := None; ime := None; last_seen := None |}
            (presence_get (presence st) (clientId st)) in
  set_presence st
    (presence_set (presence st) (clientId st)
       {| client_id := client_id existing;
          label := Some labelValue;
          color := Some colorValue;
          cursor := cursor existing;
          ime := ime existing;
          last_seen := Some now |}).

Definition sendProfileUpdate (st : t) (now : Z) : t * list Effect :=
  let labelValue := displayName st in
  let colorValue := displayColor st in
  let st1 := own_presence st labelValue colorValue now in
  match ws st1 with
  | Some OPEN =>
      if wsReady st1
      then (st1, [Send (ProfileMsg (slug st1) labelValue colorValue)])
      else (st1, [])
  | _ => (st1, [])
  end.

Definition handleProfileSubmit (st : t) (now now' : Z) : t * list Effect :=
  let finalName := final_name (profileNameInput st) (clientId st) in
  let st1 := set_profile st finalName (profileColorInput st) in
  let st2 := own_presence st1 finalName (profileColorInput st) now in
  sendProfileUpdate st2 now'.

Section PresenceColor.
(** [deriveClientColor] hashes the client id to a hue and converts it
    to a hex colour in floating point; it is taken as given. *)
Variable deriveClientColor : jsstring -> jsstring.

Definition resolvePresenceColor (color : option jsstring)
    (clientId : jsstring) : jsstring :=
  match color with
  | Some c =>
      if truthy c && matches_hex_color c then c
      else deriveClientColor clientId
  | None => deriveClientColor clientId
  end.
End PresenceColor.

End Profile.

(** ** lib/realtime: the heartbeat *)

Module Heartbeat.

(** [HeartbeatOptions]; of the two callbacks only whether they are
    given matters here. *)
Record Options := {
  intervalMs : option Z;
  staleThresholdMs : option Z;
  onTimeout : bool;
  getLastMessageAt : bool;
}.

(** The period handed to [setInterval]. *)
Definition interval (opts : Options) : Z := default 5000 (intervalMs opts).

(** The options of the call in the edit page. *)
Definition editPageOptions : Options :=
  {| intervalMs := None;
     staleThresholdMs := Some 30000;
     onTimeout := true;
     getLastMessageAt := true |}.

Inductive Action :=
| SocketSend (frame : WsOutbound)
| SocketClose
| OnTimeout
| ConsoleWarn.

(** The state of one run of the effect: its [cancelled] flag and the
    [readyState] of the socket. *)
Record State := {
  cancelled : bool;
  readyState : ReadyState;
}.

Definition start (rs : ReadyState) : State :=
  {| cancelled := false; readyState := rs |}.

(** [socket.close()] moves a socket that is not closed to CLOSING. *)
Definition after_close (rs : ReadyState) : ReadyState :=
  match rs with
  | CLOSED => CLOSED
  | _ => CLOSING
  end.

Definition timeout_actions (opts : Options) : list Action :=
  if onTimeout opts then [OnTimeout] else [].

(** One call of the interval callback.  [now] is [Date.now()] in the
    test for staleness, [last] what [getLastMessageAt()] returns,
    [ping_ts] the [Date.now()] of the ping frame, [send_throws] whether
    [socket.send] raises. *)
Definition tick (opts : Options) (st : State) (now last ping_ts : Z)
    (send_throws : bool) : State * list Action :=
  if cancelled st || negb (bool_decide (readyState st = OPEN))
  then (st, [])
  else
    let stale :=
      match staleThresholdMs opts with
      | Some threshold =>
          getLastMessageAt opts && (threshold <? now - last)
      | None => false
      end in
    if stale then
      ({| cancelled := true; readyState := after_close (readyState st) |},
       SocketClose :: timeout_actions opts)
    else if send_throws then
      ({| cancelled := true; readyState := after_close (readyState st) |},
       SocketClose :: ConsoleWarn :: timeout_actions opts)
    else (st, [SocketSend (PingMsg ping_ts)]).

(** The socket itself changes state between two ticks, but only
    forwards: CONNECTING, OPEN, CLOSING, CLOSED. *)
Definition rank (rs : ReadyState) : nat :=
  match rs with
  | CONNECTING => 0
  | OPEN => 1
  | CLOSING => 2
  | CLOSED => 3
  end.

Definition socket_moves (st : State) (rs : ReadyState) : State :=
  {| cancelled := cancelled st; readyState := rs |}.

(** The states a run of the heartbeat goes through. *)
Inductive reachable (opts : Options) : State -> Prop :=
| reach_start rs : reachable opts (start rs)
| reach_tick st now last ping_ts send_throws :
    reachable opts st ->
    reachable opts (tick opts st now last ping_ts send_throws).1
| reach_socket st rs :
    reachable opts st ->
    (rank (readyState st) <= rank rs)%nat ->
    reachable opts (socket_moves st rs).

Definition sends (acts : list Action) : list WsOutbound :=
  omap (fun a => match a with SocketSend f => Some f | _ => None end) acts.

End Heartbeat.

(** ** The pending queue as objects on a heap

    [snapshot] and [replace] build new objects; what they share with the
    queue and what they copy shows only when objects have an identity.
    Here every object and array is a cell of a heap, a reference is the
    index of its cell, and a new object goes to the end of the heap. *)

Module Heap.

Definition loc := nat.

(** A [PendingEdit] object: its [ops] field refers to an array, its
    cursor fields to [CursorState] objects. *)
Record ItemObj := {
  o_op_id : jsstring;
  o_base_rev : Z;
  o_ops : loc;
  o_cursor_before : option loc;
  o_cursor_after : option loc;
  o_ts : option Z;
}.

Inductive Cell :=
| COp (op : Op)                 (* an operation object *)
| CArr (elems : list loc)       (* an array of references *)
| CItem (item : ItemObj)        (* a PendingEdit object *)
| CCursor (c : CursorState).    (* a CursorState object *)

Definition heap := list Cell.

Definition alloc (h : heap) (c : Cell) : heap * loc :=
  (h ++ [c], length h).

(** The fields of a [PendingQueue] object and of a snapshot object. *)
Record QueueObj := {
  q : loc;
  latestAck : Z;
}.

Record SnapObj := {
  s_latestAck : option Z;
  s_items : option loc;
}.

(** *** Copies *)

(** [{ ...op }] *)
Definition copy_op (h : heap) (l : loc) : option (heap * loc) :=
  match h !! l with
  | Some (COp op) => Some (alloc h (COp op))
  | _ => None
  end.

(** [arr.map(copy)]: the elements are copied from left to right. *)
Fixpoint copy_each (copy : heap -> loc -> option (heap * loc))
    (h : heap) (ls : list loc) : option (heap * list loc) :=
  match ls with
  | [] => Some (h, [])
  | l :: ls' =>
      match copy h l with
      | Some (h1, l1) =>
          match copy_each copy h1 ls' with
          | Some (h2, ls1) => Some (h2, l1 :: ls1)
          | None => None
          end
      | None => None
      end
  end.

(** [ops.map(op => ({ ...op }))] *)
Definition copy_ops (h : heap) (arr : loc) : option (heap * loc) :=
  match h !! arr with
  | Some (CArr ls) =>
      match copy_each copy_op h ls with
      | Some (h1, ls1) => Some (alloc h1 (CArr ls1))
      | None => None
      end
  | _ => None
  end.

(** [{ ...item, ops: item.ops.map(op => ({ ...op })) }]: the spread
    copies the fields of the item, the references to its cursors
    among them. *)
Definition copy_item (h : heap) (l : loc) : option (heap * loc) :=
  match h !! l with
  | Some (CItem item) =>
      match copy_ops h (o_ops item) with
      | Some (h1, arr1) =>
          Some (alloc h1
                  (CItem {| o_op_id := o_op_id item;
                            o_base_rev := o_base_rev item;
                            o_ops := arr1;
                            o_cursor_before := o_cursor_before item;
                            o_cursor_after := o_cursor_after item;
                            o_ts := o_ts item |}))
      | None => None
      end
  | _ => None
  end.

(** [items.map(item => ({ ...item, ops: .. }))] *)
Definition copy_items (h : heap) (arr : loc) : option (heap * loc) :=
  match h !! arr with
  | Some (CArr ls) =>
      match copy_each copy_item h ls with
      | Some (h1, ls1) => Some (alloc h1 (CArr ls1))
      | None => None
      end
  | _ => None
  end.

(** *** Methods of the class *)

Definition snapshot (h : heap) (pq : QueueObj) : option (heap * SnapObj) :=
  match copy_items h (q pq) with
  | Some (h1, arr) =>
      Some (h1, {| s_latestAck := Some (latestAck pq);
                   s_items := Some arr |})
  | None => None
  end.

(** The argument of [replace]: nothing, an array of edits, or a
    snapshot object. *)
Inductive replace_arg :=
| NoArg
| Items (arr : loc)
| Snap (s : SnapObj).

(** [replace(snapshot)]; in a snapshot object a missing [items] is a new
    empty array, a missing [latestAck] is 0. *)
Definition replace (h : heap) (pq : QueueObj) (arg : replace_arg)
  : option (heap * QueueObj) :=
  match arg with
  | NoArg =>
      let '(h1, arr) := alloc h (CArr []) in
      Some (h1, {| q := arr; latestAck := 0 |})
  | Items items =>
      match copy_items h items with
      | Some (h1, arr) => Some (h1, {| q := arr; latestAck := 0 |})
      | None => None
      end
  | Snap s =>
      let '(h0, items) :=
        match s_items s with
        | Some arr => (h, arr)
        | None => alloc h (CArr [])
        end in
      match copy_items h0 items with
      | Some (h1, arr) =>
          Some (h1, {| q := arr; latestAck := default 0 (s_latestAck s) |})
      | None => None
      end
  end.

(** [enqueue(edit)]: [this.q.push(edit)] changes the array in place. *)
Definition enqueue (h : heap) (pq : QueueObj) (edit : loc) : option heap :=
  match h !! q pq with
  | Some (CArr ls) => Some (<[q pq := CArr (ls ++ [edit])]> h)
  | _ => None
  end.

(** [op_id] of the item a reference leads to. *)
Definition item_op_id (h : heap) (l : loc) : option jsstring :=
  match h !! l with
  | Some (CItem item) => Some (o_op_id item)
  | _ => None
  end.

(** [ack(opts)]: [filter] makes a new array of the same item objects. *)
Definition ack (h : heap) (pq : QueueObj) (opId : option jsstring)
    (serverSeq : option Z) : heap * QueueObj :=
  let latest1 :=
    match serverSeq with
    | Some s => if latestAck pq <? s then s else latestAck pq
    | None => latestAck pq
    end in
  match opId, h !! q pq with
  | Some id, Some (CArr ls) =>
      if truthy id then
        let kept := filter (fun l => item_op_id h l <> Some id) ls in
        let '(h1, arr) := alloc h (CArr kept) in
        (h1, {| q := arr; latestAck := latest1 |})
      else (h, {| q := q pq; latestAck := latest1 |})
  | _, _ => (h, {| q := q pq; latestAck := latest1 |})
  end.

Definition setLatestServerSeq (pq : QueueObj) (seq : Z) : QueueObj :=
  if latestAck pq <? seq then {| q := q pq; latestAck := seq |} else pq.

(** A call of one of the methods that change a queue, and a sequence of
    such calls on the same queue object. *)
Inductive Call :=
| CallEnqueue (edit : loc)
| CallAck (opId : option jsstring) (serverSeq : option Z)
| CallSetLatestServerSeq (seq : Z)
| CallReplace (arg : replace_arg).

Definition call (c : Call) (st : heap * QueueObj) : option (heap * QueueObj) :=
  match c with
  | CallEnqueue edit =>
      match enqueue st.1 st.2 edit with
      | Some h1 => Some (h1, st.2)
      | None => None
      end
  | CallAck opId serverSeq => Some (ack st.1 st.2 opId serverSeq)
  | CallSetLatestServerSeq seq => Some (st.1, setLatestServerSeq st.2 seq)
  | CallReplace arg => replace st.1 st.2 arg
  end.

Fixpoint calls (cs : list Call) (st : heap * QueueObj)
  : option (heap * QueueObj) :=
  match cs with
  | [] => Some st
  | c :: cs' =>
      match call c st with
      | Some st1 => calls cs' st1
      | None => None
      end
  end.

(** *** Reading an object graph as a value

    [region] says which cells of operations, arrays and items a read
    may go through: with [everywhere] it is the plain reading of the
    heap, with a narrower region the read succeeds only if the graph
    lies inside it.  Cursor objects are read wherever they are. *)

Definition everywhere : loc -> bool := fun _ => true.
Definition from (n : nat) : loc -> bool := fun l => (n <=? l)%nat.

Fixpoint read_each {A} (rd : loc -> option A) (ls : list loc)
  : option (list A) :=
  match ls with
  | [] => Some []
  | l :: ls' =>
      match rd l, read_each rd ls' with
      | Some v, Some vs => Some (v :: vs)
      | _, _ => None
      end
  end.

Section Read.
Variable region : loc -> bool.
Variable h : heap.

Definition read_op (l : loc) : option Op :=
  if region l then
    match h !! l with
    | Some (COp op) => Some op
    | _ => None
    end
  else None.

Definition read_ops (arr : loc) : option (list Op) :=
  if region arr then
    match h !! arr with
    | Some (CArr ls) => read_each read_op ls
    | _ => None
    end
  else None.

Definition read_cursor (ol : option loc) : option (option CursorState) :=
  match ol with
  | None => Some None
  | Some l =>
      match h !! l with
      | Some (CCursor c) => Some (Some c)
      | _ => None
      end
  end.

Definition read_item (l : loc) : option PendingEdit :=
  if region l then
    match h !! l with
    | Some (CItem item) =>
        match read_ops (o_ops item),
              read_cursor (o_cursor_before item),
              read_cursor (o_cursor_after item) with
        | Some ops1, Some cb, Some ca =>
            Some {| op_id := o_op_id item;
                    base_rev := o_base_rev item;
                    ops := ops1;
                    cursor_before := cb;
                    cursor_after := ca;
                    ts := o_ts item |}
        | _, _, _ => None
        end
    | _ => None
    end
  else None.

Definition read_items (arr : loc) : option (list PendingEdit) :=
  if region arr then
    match h !! arr with
    | Some (CArr ls) => read_each read_item ls
    | _ => None
    end
  else None.

Definition read_queue (pq : QueueObj) : option PendingQueue.t :=
  match read_items (q pq) with
  | Some items =>
      Some {| PendingQueue.q := items;
              PendingQueue.latestAck := latestAck pq |}
  | None => None
  end.

Definition read_snapshot (s : SnapObj) : option PendingQueueSnapshot :=
  match s_items s with
  | Some arr =>
      match read_items arr with
      | Some items =>
          Some {| snap_latestAck := s_latestAck s;
                  snap_items := Some items |}
      | None => None
      end
  | None =>
      Some {| snap_latestAck := s_latestAck s; snap_items := None |}
  end.
End Read.

Definition is_cursor (h : heap) (l : loc) : Prop :=
  exists c, h !! l = Some (CCursor c).

(** [h'] has the cells of [h] unchanged in the region and at the
    cursor objects of [h]. *)
Definition preserves (region : loc -> bool) (h h' : heap) : Prop :=
  forall l, region l = true \/ is_cursor h l -> h' !! l = h !! l.

(** The cells allocated between two heaps. *)
Definition between (n m : nat) : loc -> bool :=
  fun l => (n <=? l)%nat && (l <? m)%nat.

(** A read confined to [region] in [h] can be repeated in [h'] confined
    to [region']: the cells of [h] in [region] lie in [region'], and [h']
    has them, and the cursor objects of [h], unchanged. *)
Definition covers (region region' : loc -> bool) (h : heap) : Prop :=
  forall l c, region l = true -> h !! l = Some c -> region' l = true.

Definition agrees (region : loc -> bool) (h h' : heap) : Prop :=
  forall l c, h !! l = Some c ->
              region l = true \/ (exists cu, c = CCursor cu) ->
              h' !! l = Some c.

(** What a copy function owes: it succeeds on a graph that can be read,
    only adds cells to the heap, and the copy reads the same inside the
    added cells. *)
Definition copies {A} (copy : heap -> loc -> option (heap * loc))
    (rd : (loc -> bool) -> heap -> loc -> option A) : Prop :=
  forall h l v,
    rd everywhere h l = Some v ->
    exists h1 l1,
      copy h l = Some (h1, l1)
      /\ h `prefix_of` h1
      /\ rd (from (length h)) h1 l1 = Some v.

Definition monotone {A} (rd : (loc -> bool) -> heap -> loc -> option A)
  : Prop :=
  forall region region' h h' l v,
    covers region region' h -> agrees region h h' ->
    rd region h l = Some v -> rd region' h' l = Some v.

(** The copies only add cells, and the copy is one of them. *)
Definition grows (copy : heap -> loc -> option (heap * loc)) : Prop :=
  forall h l h1 l1,
    copy h l = Some (h1, l1) -> h `prefix_of` h1 /\ (length h <= l1)%nat.

(** The queue and the heap leave the cells [n .. m) of [h1], and the
    cursor objects of [h1], alone: the heap has them unchanged, and the
    array of the queue is not among them. *)
Definition untouched (n m : nat) (h1 : heap) (st : heap * QueueObj) : Prop :=
  preserves (between n m) h1 st.1 /\ between n m (q st.2) = false.

(** The value of a snapshot object of a queue whose value is [v]. *)
Definition snapshot_value (v : PendingQueue.t) : PendingQueueSnapshot :=
  {| snap_latestAck := Some (PendingQueue.latestAck v);
     snap_items := Some (PendingQueue.q v) |}.

End Heap.

(** What the two loops establish: [i] is the length of a common prefix,
    [j] of a common suffix that does not overlap it, and neither can be
    extended. *)
Record diff_split (a b : list jsstring) (i j : Z) : Prop := {
  split_i : 0 <= i;
  split_j : 0 <= j;
  split_a : i + j <= alen a;
  split_b : i + j <= blen b;
  split_prefix : forall k, 0 <= k < i -> at_index a k = at_index b k;
  split_suffix : forall k, 0 <= k < j ->
                   at_index a (alen a - 1 - k) = at_index b (blen b - 1 - k);
  split_prefix_stop : prefix_cond a b i = false;
  split_suffix_stop : suffix_cond a b i j = false;
}.

(** The operations computed from the two indices. *)
Definition diff_ops (a b : list jsstring) (i j : Z) : list Op :=
  let beforeMid := join (slice a i (Some (alen a - j))) in
  let afterMid := join (slice b i (Some (blen b - j))) in
  (if 0 <? str_length beforeMid then [Delete i (str_length beforeMid)] else [])
  ++ (if 0 <? str_length afterMid then [Insert i afterMid] else []).

(** The shapes a result of [diffToOps] can have: nothing, one delete,
    one insert, or a delete followed by an insert. *)
Definition diff_shape (ops : list Op) : Prop :=
  match ops with
  | [] | [Delete _ _] | [Insert _ _] | [Delete _ _; Insert _ _] => True
  | _ => False
  end.

Definition is_delete (op : Op) : bool :=
  match op with Delete _ _ => true | Insert _ _ => false end.
Definition is_insert (op : Op) : bool :=
  match op with Insert _ _ => true | Delete _ _ => false end.

Definition count_deletes (ops : list Op) : nat :=
  length (filter (fun op => is_delete op = true) ops).
Definition count_inserts (ops : list Op) : nat :=
  length (filter (fun op => is_insert op = true) ops).

(** A string without surrogate code units: every code point is one code
    unit. *)
Definition is_surrogate (c : code_unit) : bool :=
  is_high_surrogate c || is_low_surrogate c.
Definition no_surrogates (s : jsstring) : Prop :=
  Forall (fun c => is_surrogate c = false) s.
Definition single_units (cps : list jsstring) : Prop :=
  Forall (fun cp => exists c, cp = [c] /\ is_surrogate c = false) cps.

(** ** The claims of the specification, as predicates *)

Module Claims.
Import EditPage.

(** "Remove the entries whose [op_id] equals [opId]; the others stay, in
    their order." *)
Fixpoint remove_matching (opId : jsstring) (l : list PendingEdit)
  : list PendingEdit :=
  match l with
  | [] => []
  | e :: l' =>
      if bool_decide (op_id e = opId) then remove_matching opId l'
      else e :: remove_matching opId l'
  end.

(** An ack carrying [opId] and [serverSeq] removes the matching entries
    and sets the latest server sequence to the maximum. *)
Definition ack_claim (pq : PendingQueue.t) (opId : jsstring) (serverSeq : Z)
  : Prop :=
  let pq' := PendingQueue.ack pq (Some opId) (Some serverSeq) in
  PendingQueue.q pq' = remove_matching opId (PendingQueue.q pq)
  /\ PendingQueue.latestAck pq' = Z.max (PendingQueue.latestAck pq) serverSeq.

(** A pending edit with its operations transformed against a remote
    operation, the client in role A. *)
Definition transform_pending (a_first : bool) (remote : Op) (e : PendingEdit)
  : PendingEdit :=
  {| op_id := op_id e; base_rev := base_rev e;
     ops := SpecOT.transform_ops a_first (ops e) remote;
     cursor_before := cursor_before e; cursor_after := cursor_after e;
     ts := ts e |}.

(** On an [op_broadcast] the pending edits are transformed, the remote
    operation is applied to the text, and the latest server sequence
    becomes that of the broadcast. *)
Definition op_broadcast_claim (a_first : bool) (st : t) (operation : Op)
    (serverSeq : Z) : Prop :=
  let st' := (handleMessage st (OpBroadcastMsg operation serverSeq)).1 in
  PendingQueue.q (queue st')
    = map (transform_pending a_first operation) (PendingQueue.q (queue st))
  /\ content st' = applyOps (content st) [operation]
  /\ PendingQueue.latestAck (queue st') = serverSeq.

(** The edit the drift repair makes for a snapshot. *)
Definition repair_edit (snap : Api.Snapshot) (localText : jsstring)
    (new_op_id : jsstring) (nowTs : Z) : PendingEdit :=
  {| op_id := new_op_id;
     base_rev := Api.snap_rev snap;
     ops := diffToOps (Api.snap_content snap) localText;
     cursor_before := None; cursor_after := None;
     ts := Some nowTs |}.

Definition repair_payload (st : t) (e : PendingEdit) : EditPayload :=
  {| e_base_rev := base_rev e; e_ops := ops e;
     e_client_id := Some (clientId st); e_op_id := Some (op_id e);
     e_cursor_before := None; e_cursor_after := None; e_ts := ts e |}.

(** Given a fetched snapshot: when the texts differ, exactly one new edit
    is enqueued and sent; when they are equal, no edit is sent and the
    text stays. *)
Definition drift_repair_claim (st : t) (snap : Api.Snapshot)
    (new_op_id : jsstring) (nowTs : Z) : Prop :=
  let r := reconcile_resume st (Api.Returned snap) new_op_id nowTs in
  let e := repair_edit snap (content st) new_op_id nowTs in
  if bool_decide (Api.snap_content snap = content st)
  then sent_edits r.2 = [] /\ content r.1 = content st
  else PendingQueue.q (queue r.1) = PendingQueue.q (queue st) ++ [e]
       /\ sent_edits r.2 = [repair_payload st e].

(** Both helpers throw [UnauthorizedError] exactly on 401, another error
    on any other status that is not OK, and return on an OK response. *)
Definition http_claim {J} (res : Api.Response J) : Prop :=
  (Api.is_unauthorized (Api.fetchSnapshot res) = true <-> Api.status res = 401)
  /\ (Api.is_unauthorized (Api.updatePasswordOnServer res) = true
      <-> Api.status res = 401)
  /\ (Api.status res <> 401 -> Api.ok res = false ->
      Api.is_generic_error (Api.fetchSnapshot res) = true
      /\ Api.is_generic_error (Api.updatePasswordOnServer res) = true)
  /\ (Api.ok res = true ->
      Api.is_returned (Api.fetchSnapshot res) = true
      /\ Api.is_returned (Api.updatePasswordOnServer res) = true).

End Claims.

(** ** lib/realtime: reconnecting *)

Module Reconnect.

(** What the listeners of [useRealtimeChannel] read and write.
    [retryRef] belongs to the hook and lives as long as the component;
    [closed] is a variable of one run of the effect, shared by the
    listeners of every socket that run makes and set by its cleanup.
    Runs are numbered; before the effect runs again React calls the
    cleanup of the run before, so that the [closed] of every earlier
    run is true. *)
Record State := {
  retry : Z;         (* retryRef.current *)
  run_id : nat;      (* the number of the present run of the effect *)
  closed : bool;     (* the [closed] of the present run *)
}.

Definition start : State := {| retry := 0; run_id := 0; closed := false |}.

(** The [closed] a listener of a socket made in run [r] reads. *)
Definition closed_in (st : State) (r : nat) : bool :=
  if (r =? run_id st)%nat then closed st else true.

Inductive Event :=
| Opened (r : nat)   (* a socket made in run [r] fires 'open' *)
| Closed (r : nat)   (* a socket made in run [r] fires 'close' *)
| Cleanup            (* the cleanup of the present run: unmount, or no
                        session any more *)
| Rerun.             (* a dependency changed: cleanup, then the effect
                        runs again and connects *)

(** [Math.min(10_000, 500 * 2 ** retry)] *)
Definition delay_of (retry : Z) : Z := Z.min 10000 (500 * 2 ^ retry).

(** One event: the new state and the delay of the [setTimeout(connect,
    delay)] it makes, if any.  The 'open' listener does not look at
    [closed]. *)
Definition step (st : State) (ev : Event) : State * option Z :=
  match ev with
  | Opened _ =>
      ({| retry := 0; run_id := run_id st; closed := closed st |}, None)
  | Closed r =>
      if closed_in st r then (st, None)
      else
        let retry1 := Z.min 8 (retry st + 1) in
        ({| retry := retry1; run_id := run_id st; closed := false |},
         Some (delay_of retry1))
  | Cleanup =>
      ({| retry := retry st; run_id := run_id st; closed := true |}, None)
  | Rerun =>
      ({| retry := retry st; run_id := S (run_id st); closed := false |},
       None)
  end.

(** The delays scheduled along a sequence of events. *)
Fixpoint delays (st : State) (evs : list Event) : list Z :=
  match evs with
  | [] => []
  | ev :: evs' =>
      match step st ev with
      | (st1, Some d) => d :: delays st1 evs'
      | (st1, None) => delays st1 evs'
      end
  end.

Fixpoint run (st : State) (evs : list Event) : State :=
  match evs with
  | [] => st
  | ev :: evs' => run (step st ev).1 evs'
  end.

Definition is_rerun (ev : Event) : bool :=
  match ev with Rerun => true | _ => false end.

(** The delays after [k] failures in a row: min(10000, 500 * 2^i) for
    i = k+1 .. k+n. *)
Definition series (k : Z) (n : nat) : list Z :=
  map (fun i => Z.min 10000 (500 * 2 ^ (k + Z.of_nat i))) (seq 1 n).

End Reconnect.

(** ** lib/realtime: sequences of calls on a pending queue *)

Module QueueCalls.

Inductive Call :=
| Enqueue (edit : PendingEdit)
| Ack (opId : option jsstring) (serverSeq : option Z)
| SetLatestServerSeq (seq : Z).

Definition call (pq : PendingQueue.t) (c : Call) : PendingQueue.t :=
  match c with
  | Enqueue edit => PendingQueue.enqueue pq edit
  | Ack opId serverSeq => PendingQueue.ack pq opId serverSeq
  | SetLatestServerSeq seq => PendingQueue.setLatestServerSeq pq seq
  end.

Definition calls (pq : PendingQueue.t) (cs : list Call) : PendingQueue.t :=
  fold_left call cs pq.

(** The server sequence numbers a sequence of calls carries. *)
Definition seqs (cs : list Call) : list Z :=
  omap (fun c => match c with
                 | Enqueue _ => None
                 | Ack _ serverSeq => serverSeq
                 | SetLatestServerSeq seq => Some seq
                 end) cs.

Definition max_list (base : Z) (l : list Z) : Z := fold_left Z.max l base.

End QueueCalls.

(** ** The edit page: sending the pending edits again *)

Module Resend.
Import EditPage.

(** The edit frame [resendQueue] builds for a pending edit. *)
Definition edit_payload (st : t) (edit : PendingEdit) : EditPayload :=
  {| e_base_rev := base_rev edit;
     e_ops := ops edit;
     e_client_id := Some (clientId st);
     e_op_id := Some (op_id edit);
     e_cursor_before := cursor_before edit;
     e_cursor_after := cursor_after edit;
     e_ts := ts edit |}.

(** [resendQueue]: nothing unless [wsRef.current] is an open socket. *)
Definition resendQueue (st : t) : list Effect :=
  match ws st with
  | Some OPEN =>
      PendingQueue.flush (queue st)
        (fun edit => Send (EditMsg (slug st) (edit_payload st edit)))
  | _ => []
  end.

(** The acks for a list of op ids, each with a server sequence. *)
Definition acks (pq : PendingQueue.t) (l : list (jsstring * Z))
  : PendingQueue.t :=
  fold_left (fun pq1 a => PendingQueue.ack pq1 (Some a.1) (Some a.2)) l pq.

Definition enqueues (pq : PendingQueue.t) (es : list PendingEdit)
  : PendingQueue.t :=
  fold_left PendingQueue.enqueue es pq.

End Resend.

(** The entries an ack keeps. *)
Definition ack_keeps (opId : option jsstring) (e : PendingEdit) : Prop :=
  match opId with
  | Some id => if truthy id then op_id e <> id else True
  | None => True
  end.

#[global] Instance ack_keeps_dec opId e : Decision (ack_keeps opId e).
Proof.
  unfold ack_keeps. destruct opId as [id|]; [destruct (truthy id)|];
    apply _.
Defined.


(** The entries a list of acks keeps. *)
Definition unacked (l : list (jsstring * Z)) (e : PendingEdit) : Prop :=
  Forall (fun a => ack_keeps (Some a.1) e) l.

#[global] Instance unacked_dec l e : Decision (unacked l e).
Proof. unfold unacked. apply _. Defined.

(** ** lib/realtime: a run of the heartbeat *)

Module HeartbeatRun.
Import Heartbeat.

Inductive Event :=
| Tick (now last ping_ts : Z) (send_throws : bool)  (* the timer fires *)
| Moves (rs : ReadyState).                          (* the socket changes state *)

Definition step (opts : Options) (st : State) (ev : Event)
  : State * list Action :=
  match ev with
  | Tick now last ping_ts send_throws => tick opts st now last ping_ts send_throws
  | Moves rs =>
      if (rank (readyState st) <=? rank rs)%nat
      then (socket_moves st rs, [])
      else (st, [])
  end.

(** Everything the heartbeat does along a sequence of events. *)
Fixpoint run (opts : Options) (st : State) (evs : list Event) : list Action :=
  match evs with
  | [] => []
  | ev :: evs' => (step opts st ev).2 ++ run opts (step opts st ev).1 evs'
  end.

Definition is_timeout (a : Action) : bool :=
  match a with OnTimeout => true | _ => false end.

Definition is_close (a : Action) : bool :=
  match a with SocketClose => true | _ => false end.

(** The ways the heartbeat ends a run: not at all, on a stale
    connection, or on a send that raised. *)
Definition endings (opts : Options) : list (list Action) :=
  [ [];
    SocketClose :: timeout_actions opts;
    SocketClose :: ConsoleWarn :: timeout_actions opts ].

End HeartbeatRun.

(** ** lib/realtime: the heartbeat of a page, in time

    [useEffect] runs the effect again, after the cleanup of the run
    before, whenever a render finds one of its dependencies
    [socket, intervalMs, staleThresholdMs, onTimeout, getLastMessageAt]
    changed.  The cleanup sets [cancelled] and clears the interval; the
    new run has a flag and a timer of its own, which first fires one
    period later.  The edit page passes [onTimeout] as a function
    expression, a new function at every render: every render of that
    page re-runs the effect. *)

Module HeartbeatClock.
Import Heartbeat.

Inductive Event :=
| Elapse (ms : Z)   (* time passes, nothing renders *)
| Received          (* a message arrives: lastMsgAtRef.current = Date.now() *)
| Rerun.            (* a render that re-runs the effect *)

Record Clock := {
  now : Z;              (* Date.now() *)
  next_fire : Z;        (* when the timer of [setInterval] fires next *)
  last : Z;             (* what getLastMessageAt() returns *)
  run : State;          (* the present run of the effect *)
}.

(** The effect has just run, at time [t0] with a message just received,
    on a socket in state [rs]. *)
Definition started (opts : Options) (t0 : Z) (rs : ReadyState) : Clock :=
  {| now := t0; next_fire := t0 + interval opts; last := t0; run := start rs |}.

(** The timer fires [n] times in a row, one period apart.  A [send] on
    an open socket does not raise. *)
Fixpoint fire (n : nat) (opts : Options) (c : Clock) : Clock * list Action :=
  match n with
  | O => (c, [])
  | S n' =>
      let t := next_fire c in
      let r := tick opts (run c) t (last c) t false in
      let r' := fire n' opts
                  {| now := t; next_fire := t + interval opts;
                     last := last c; run := r.1 |} in
      (r'.1, r.2 ++ r'.2)
  end.

(** How often the timer fires within the next [ms] milliseconds. *)
Definition due (opts : Options) (c : Clock) (ms : Z) : nat :=
  if next_fire c <=? now c + ms
  then S (Z.to_nat ((now c + ms - next_fire c) / interval opts))
  else O.

Definition step (opts : Options) (c : Clock) (ev : Event)
  : Clock * list Action :=
  match ev with
  | Elapse ms =>
      let r := fire (due opts c ms) opts c in
      ({| now := now c + ms; next_fire := next_fire r.1;
          last := last r.1; run := run r.1 |}, r.2)
  | Received =>
      ({| now := now c; next_fire := next_fire c; last := now c;
          run := run c |}, [])
  | Rerun =>
      ({| now := now c; next_fire := now c + interval opts;
          last := last c; run := start (readyState (run c)) |}, [])
  end.

(** Everything the heartbeat does along a sequence of events. *)
Fixpoint actions (opts : Options) (c : Clock) (evs : list Event)
  : list Action :=
  match evs with
  | [] => []
  | ev :: evs' => (step opts c ev).2 ++ actions opts (step opts c ev).1 evs'
  end.

(** No stretch between two runs of the effect is as long as [period]:
    [since] is the time since the effect last ran. *)
Fixpoint restless (period since : Z) (evs : list Event) : bool :=
  match evs with
  | [] => true
  | Elapse ms :: evs' =>
      (0 <=? ms) && (since + ms <? period)
      && restless period (since + ms) evs'
  | Received :: evs' => restless period since evs'
  | Rerun :: evs' => restless period 0 evs'
  end.

(** A page on which a frame comes in every [gap] milliseconds and makes
    it render, [n] times over. *)
Definition busy (gap : Z) (n : nat) : list Event :=
  concat (replicate n [Elapse gap; Received; Rerun]).

Definition ping (ts : Z) : Action := SocketSend (PingMsg ts).

End HeartbeatClock.

(** ** Edit page: lines and columns of cursor positions *)

Module Lines.
Import JsString.

(** [ch === '\n'] for an element [ch] of the iteration over the string. *)
Definition is_newline (ch : jsstring) : bool := str_eqb ch [10].

(** [lineMetadata]: the loop [for (const ch of content)] visits code
    points; the result is [{ starts, length }]. *)
Definition lineMetadata_step (acc : list Z * Z) (ch : jsstring) : list Z * Z :=
  let length1 := acc.2 + 1 in
  (if is_newline ch then acc.1 ++ [length1] else acc.1, length1).

Definition lineMetadata_of (cps : list jsstring) : list Z * Z :=
  fold_left lineMetadata_step cps ([0], 0).

Definition lineMetadata (content : jsstring) : list Z * Z :=
  lineMetadata_of (code_points content).

Record LineInfo := { clamped : Z; line : Z; column : Z }.

(** [line + 1 < starts.length && starts[line + 1] <= clamped]; a
    comparison with [undefined] is false. *)
Definition line_cond (starts : list Z) (clamped0 : Z) (line0 : Z) : bool :=
  (line0 + 1 <? Z.of_nat (length starts))
  && match at_index starts (line0 + 1) with
     | Some s => s <=? clamped0
     | None => false
     end.

Definition resolveLineInfo_fuel (fuel : nat) (starts : list Z)
    (length0 pos : Z) : option LineInfo :=
  let clamped0 := Z.max 0 (Z.min pos length0) in
  match count_while fuel (line_cond starts clamped0) 0 with
  | Some line0 =>
      let lineStart := default 0 (at_index starts line0) in
      Some {| clamped := clamped0; line := line0;
              column := clamped0 - lineStart |}
  | None => None
  end.

(** The loop leaves after at most [starts.length] turns. *)
Definition resolveLineInfo (starts : list Z) (length0 pos : Z) : LineInfo :=
  default {| clamped := 0; line := 0; column := 0 |}
    (resolveLineInfo_fuel (S (length starts)) starts length0 pos).

(** Reading a text character by character: a line feed leads to the
    first column of the next line, any other character to the next
    column. *)
Definition walk_step (lc : Z * Z) (ch : jsstring) : Z * Z :=
  if is_newline ch then (lc.1 + 1, 0) else (lc.1, lc.2 + 1).

Definition walk (cps : list jsstring) : Z * Z := fold_left walk_step cps (0, 0).

End Lines.

(** ** Edit page: presence messages ([handleCoeditMsg]) *)

Inductive ImeEvent :=
| ImeStart (range : Z * Z)
| ImeUpdate (range : Z * Z) (text : jsstring)
| ImeCommit (replace_range : Z * Z) (text : jsstring)
| ImeCancel (range : Z * Z)
| ImeOther (phase : jsstring).     (* any other [phase] *)

Definition imeEventToSnapshot (event : ImeEvent) : option ImeSnapshot :=
  match event with
  | ImeStart range =>
      Some {| ime_phase := js "start"; ime_range := Some range;
              ime_text := None |}
  | ImeUpdate range text =>
      Some {| ime_phase := js "update"; ime_range := Some range;
              ime_text := Some text |}
  | ImeCommit range text =>
      Some {| ime_phase := js "commit"; ime_range := Some range;
              ime_text := Some text |}
  | ImeCancel range =>
      Some {| ime_phase := js "cancel"; ime_range := Some range;
              ime_text := None |}
  | ImeOther _ => None
  end.

(** A property of an object that came in as JSON: the key is missing,
    or it is there with the value [null], or with a value. *)
Inductive Field (A : Type) :=
| Missing
| Null
| Given (a : A).
Arguments Missing {A}.
Arguments Null {A}.
Arguments Given {A} _.

(** A [PresenceState] as a message carries it. *)
Record PresenceIn := {
  in_client_id : jsstring;
  in_label : Field jsstring;
  in_color : Field jsstring;
  in_cursor : Field CursorState;
  in_ime : Field ImeSnapshot;
  in_last_seen : Field Z;
}.

(** The messages [handleCoeditMsg] acts on; [OtherMsg] is a message of
    any other type. *)
Inductive CoeditMsg :=
| CursorIn (slug client : jsstring) (cursor : CursorState)
| ImeIn (slug client : jsstring) (ime : ImeEvent)
| PresenceSnapshotIn (slug : jsstring) (clients : list PresenceIn)
| PresenceDiffIn (slug : jsstring) (added updated : list PresenceIn)
    (removed : list jsstring)
| OtherMsg.

Module Presence.
Import EditPage Profile.

(** The presence map is an object literal, [{ ...prev }] or [{}], with
    the client ids for keys: the list holds its own properties, which
    are what [Object.values] shows.  A property that is [null] and one
    that is missing read alike wherever the page reads an entry ([??],
    tests for truth): an entry keeps [None] for both. *)
Definition PresenceMap := list (jsstring * PresenceState).

(** The names of the members of [Object.prototype].  For such a name
    [next[id]] finds the inherited member where the object has no
    property of its own, and [next['__proto__'] = v] sets the prototype
    and makes no property: there the object is not a map. *)
Definition prototype_members : list jsstring :=
  map js [ "__proto__"; "constructor"; "hasOwnProperty"; "isPrototypeOf";
           "propertyIsEnumerable"; "toLocaleString"; "toString"; "valueOf";
           "__defineGetter__"; "__defineSetter__"; "__lookupGetter__";
           "__lookupSetter__" ]%string.

Definition ordinary (id : jsstring) : bool :=
  negb (existsb (str_eqb id) prototype_members).

(** [{ client_id: id }] *)
Definition bare (id : jsstring) : PresenceState :=
  {| client_id := id; label := None; color := None; cursor := None;
     ime := None; last_seen := None |}.

(** [next[id] ?? { client_id: id }], for an ordinary [id]; [None] for
    the other ids, which this development leaves aside. *)
Definition existing (m : PresenceMap) (id : jsstring) : option PresenceState :=
  if ordinary id then Some (default (bare id) (presence_get m id)) else None.

(** [next[id] = entry], for an ordinary [id]; [None] for the other ids. *)
Definition assign (m : PresenceMap) (id : jsstring) (entry : PresenceState)
  : option PresenceMap :=
  if ordinary id then Some (presence_set m id entry) else None.

(** [delete next[id]]: the own property goes, if there is one. *)
Definition presence_delete (m : PresenceMap) (id : jsstring) : PresenceMap :=
  List.filter (fun kv => negb (str_eqb kv.1 id)) m.

Definition read {A} (f : Field A) : option A :=
  match f with Given a => Some a | _ => None end.

(** The entry [next[p.client_id] = p] stores. *)
Definition stored (p : PresenceIn) : PresenceState :=
  {| client_id := in_client_id p;
     label := read (in_label p);
     color := read (in_color p);
     cursor := read (in_cursor p);
     ime := read (in_ime p);
     last_seen := read (in_last_seen p) |}.

(** One property of [{ ...a, ...b }]: what [b] has, [null] too, takes
    the place of what [a] has. *)
Definition over {A} (x : option A) (y : Field A) : option A :=
  match y with
  | Missing => x
  | Null => None
  | Given a => Some a
  end.

(** [{ ...existing, ...updatedState }] *)
Definition spread (a : PresenceState) (b : PresenceIn) : PresenceState :=
  {| client_id := in_client_id b;
     label := over (label a) (in_label b);
     color := over (color a) (in_color b);
     cursor := over (cursor a) (in_cursor b);
     ime := over (ime a) (in_ime b);
     last_seen := over (last_seen a) (in_last_seen b) |}.

(** [for (const added of diff.added) next[added.client_id] = added] *)
Fixpoint add_all (m : PresenceMap) (l : list PresenceIn)
  : option PresenceMap :=
  match l with
  | [] => Some m
  | p :: l' =>
      match assign m (in_client_id p) (stored p) with
      | Some m' => add_all m' l'
      | None => None
      end
  end.

(** The loop over [diff.updated]. *)
Fixpoint update_all (m : PresenceMap) (l : list PresenceIn)
  : option PresenceMap :=
  match l with
  | [] => Some m
  | u :: l' =>
      match existing m (in_client_id u) with
      | Some old =>
          match assign m (in_client_id u) (spread old u) with
          | Some m' => update_all m' l'
          | None => None
          end
      | None => None
      end
  end.

Definition remove_all (m : PresenceMap) (l : list jsstring) : PresenceMap :=
  fold_left presence_delete l m.

(** [handleCoeditMsg]; [None] when the message names a client by the
    name of a member of [Object.prototype]. *)
Definition handleCoeditMsg (st : t) (msg : CoeditMsg) (now : Z) : option t :=
  match msg with
  | CursorIn sl client cur =>
      if str_eqb sl (slug st) then
        match existing (presence st) client with
        | Some old =>
            option_map (set_presence st)
              (assign (presence st) client
                 {| client_id := client_id old; label := label old;
                    color := color old; cursor := Some cur; ime := ime old;
                    last_seen := Some now |})
        | None => None
        end
      else Some st
  | ImeIn sl client ev =>
      if str_eqb sl (slug st) then
        match existing (presence st) client with
        | Some old =>
            option_map (set_presence st)
              (assign (presence st) client
                 {| client_id := client_id old; label := label old;
                    color := color old; cursor := cursor old;
                    ime := imeEventToSnapshot ev; last_seen := Some now |})
        | None => None
        end
      else Some st
  | PresenceSnapshotIn sl clients =>
      if str_eqb sl (slug st) then
        match add_all [] clients with
        | Some map0 =>
            if ordinary (clientId st)
            then Some (own_presence (set_presence st map0)
                         (displayName st) (displayColor st) now)
            else None
        | None => None
        end
      else Some st
  | PresenceDiffIn sl added updated removed =>
      if str_eqb sl (slug st) then
        match add_all (presence st) added with
        | Some m1 =>
            match update_all m1 updated with
            | Some m2 => Some (set_presence st (remove_all m2 removed))
            | None => None
            end
        | None => None
        end
      else Some st
  | OtherMsg => Some st
  end.

End Presence.

(** ** Edit page: the textarea ([computeCursorState], [onChange]) *)

Module Editing.
Import EditPage.

(** The properties of the textarea the page reads.  [selectionDirection]
    is [None] for ['none'] and for [null]. *)
Record Textarea := {
  value : jsstring;
  selectionStart : option Z;
  selectionEnd : option Z;
  selectionDirection : option SelectionDirection;
}.

Definition computeCursorState (textarea : Textarea) : CursorState :=
  let start := default 0 (selectionStart textarea) in
  let end_ := default start (selectionEnd textarea) in
  let direction := selectionDirection textarea in
  let position0 :=
    match direction with Some backward => start | _ => end_ end in
  let anchor0 :=
    if start =? end_ then None
    else match direction with
         | Some backward => Some end_
         | _ => Some start
         end in
  {| position := position0; anchor := anchor0;
     selection_direction := direction |}.

Definition computeSelectionRange (textarea : Textarea) : Z * Z :=
  let start := default 0 (selectionStart textarea) in
  (start, default start (selectionEnd textarea)).

(** [cursorsEqual]; [x ?? null] of an absent property is [null]. *)
Definition cursorsEqual (a b : option CursorState) : bool :=
  match a, b with
  | None, None => true
  | Some a', Some b' =>
      (position a' =? position b')
      && bool_decide (anchor a' = anchor b')
      && match selection_direction a', selection_direction b' with
         | None, None => true
         | Some forward, Some forward | Some backward, Some backward => true
         | _, _ => false
         end
  | _, _ => false
  end.

(** The range of a remote selection as [remoteCursorItems] and
    [describeCursor] take it from a cursor state:
    [Math.min(anchor, position)] to [Math.max(anchor, position)], the
    caret alone when there is no anchor. *)
Definition shown_range (c : CursorState) : Z * Z :=
  match anchor c with
  | Some a => (Z.min a (position c), Z.max a (position c))
  | None => (position c, position c)
  end.

(** What [onChange] leaves behind: the page, [lastCursorStateRef], the
    text stored under the text key, and the calls on the socket. *)
Record Outcome := {
  page : t;
  lastCursorState : option CursorState;
  storedText : jsstring;
  effects : list Effect;
}.

Definition onChange (st : t) (textarea : Textarea)
    (lastCursor : option CursorState) (new_op_id : jsstring) (now : Z)
  : Outcome :=
  let next := value textarea in
  let diff := diffToOps (content st) next in
  let st1 := set_content st next in
  let cursorAfter := computeCursorState textarea in
  let cursorBefore := lastCursor in
  if (length diff =? 0)%nat then
    {| page := st1; lastCursorState := Some cursorAfter;
       storedText := next; effects := [] |}
  else
    let base := PendingQueue.latestServerSeq (queue st1) in
    let pending :=
      {| op_id := new_op_id; base_rev := base; ops := diff;
         cursor_before := cursorBefore; cursor_after := Some cursorAfter;
         ts := Some now |} in
    let st2 := set_queue st1 (PendingQueue.enqueue (queue st1) pending) in
    let st3 := persistQueue st2 in
    let msg :=
      EditMsg (slug st3)
        {| e_base_rev := base; e_ops := diff;
           e_client_id := Some (clientId st3);
           e_op_id := Some new_op_id;
           e_cursor_before := cursorBefore;
           e_cursor_after := Some cursorAfter;
           e_ts := Some now |} in
    {| page := st3; lastCursorState := Some cursorAfter;
       storedText := next;
       effects := match ws st3 with
                  | Some _ => [Send msg]     (* wsRef.current?.send(..) *)
                  | None => []
                  end |}.

End Editing.

(** ** lib/ws-compat: server messages on their way to the page *)

Module Compat.

(** The fields of [CompatWebSocket] its message handler uses. *)
Record t := {
  sessionId : jsstring;
  clientId : option jsstring;
  pendingOpIds : list jsstring;      (* a [Set] *)
}.

Record ServerApplied := {
  a_slug : jsstring;
  a_rev : Z;
  a_ops : list Op;
  a_client_id : option jsstring;
  a_op_id : option jsstring;
  a_ts : Z;
}.

(** [serverMsg.client_id && this.clientId
     && serverMsg.client_id === this.clientId] *)
Definition is_own (c : t) (m : ServerApplied) : bool :=
  match a_client_id m, clientId c with
  | Some a, Some b => truthy a && truthy b && str_eqb a b
  | _, _ => false
  end.

(** The [applied] case of [handleServerMessage]: the socket afterwards
    and the messages dispatched to the page's [message] listeners. *)
Definition handleApplied (c : t) (m : ServerApplied) : t * list WsInbound :=
  let serverSeq := a_rev m in
  if is_own c m then
    ({| sessionId := sessionId c; clientId := clientId c;
        pendingOpIds :=
          List.filter (fun id => negb (str_eqb id (default [] (a_op_id m))))
            (pendingOpIds c) |},
     [AckMsg (a_op_id m) (Some serverSeq)])
  else
    (c, map (fun op => OpBroadcastMsg op serverSeq) (a_ops m)).

(** The page handles the dispatched messages one after the other. *)
Fixpoint deliver (st : EditPage.t) (msgs : list WsInbound)
  : EditPage.t * list Effect :=
  match msgs with
  | [] => (st, [])
  | msg :: rest =>
      let r := EditPage.handleMessage st msg in
      let r' := deliver r.1 rest in
      (r'.1, r.2 ++ r'.2)
  end.

End Compat.

(** ** Edit page: the rectangles of a remote selection *)

Module Selection.
Import JsString Lines.

(** What one turn of the loop in [remoteCursorItems] takes from the text
    for the rectangle it pushes: the line and column of the segment's
    start and the column of its end ([top], [left] and [width] are these
    scaled by the line height and the character width). *)
Record Segment := {
  seg_line : Z;
  seg_from : Z;
  seg_to : Z;
}.

(** [startInfo.line + 1 < starts.length ? starts[startInfo.line + 1]
      : totalLength]; the index is in range under the test. *)
Definition nextLineStart (starts : list Z) (totalLength line0 : Z) : Z :=
  if line0 + 1 <? Z.of_nat (length starts)
  then default totalLength (at_index starts (line0 + 1))
  else totalLength.

(** The positions are numbers, that is doubles; a cursor holds counts
    of code points, and the numbers here are the doubles that are
    integers.  Up to [2^53] in size every integer is one, and minimum,
    maximum, comparison and the differences of the clamped positions are
    exact.  [current + 1] is the one operation that rounds: to the
    nearest double, and to the one with the even mantissa when two are
    as near. *)
Definition two53 : Z := 9007199254740992.

Definition round_double (z : Z) : Z :=
  let a := Z.abs z in
  if a <? two53 then z
  else
    let e := Z.log2 a - 52 in
    let q := a / 2 ^ e in
    let r := a mod 2 ^ e in
    let q' := if 2 * r <? 2 ^ e then q
              else if 2 ^ e <? 2 * r then q + 1
              else if Z.even q then q else q + 1 in
    Z.sgn z * (q' * 2 ^ e).

(** [current + 1] *)
Definition js_add1 (current : Z) : Z := round_double (current + 1).

(** [while (current < end) { ... }], with a bound on the turns: [None]
    when the loop has not ended within the bound. *)
Fixpoint segments_fuel (fuel : nat) (starts : list Z) (totalLength : Z)
    (current end_ : Z) : option (list Segment) :=
  match fuel with
  | O => if current <? end_ then None else Some []
  | S fuel' =>
      if current <? end_ then
        let startInfo := resolveLineInfo starts totalLength current in
        let next := nextLineStart starts totalLength (line startInfo) in
        let segmentEnd := Z.min end_ next in
        let endInfo := resolveLineInfo starts totalLength segmentEnd in
        let seg := {| seg_line := line startInfo;
                      seg_from := column startInfo;
                      seg_to := column endInfo |} in
        let current' :=
          if current <? segmentEnd then segmentEnd else js_add1 current in
        match segments_fuel fuel' starts totalLength current' end_ with
        | Some rest => Some (seg :: rest)
        | None => None
        end
      else Some []
  end.

(** The selection rectangles of one remote cursor. *)
Definition selection_segments (fuel : nat) (starts : list Z)
    (totalLength : Z) (cursor0 : CursorState) : option (list Segment) :=
  match anchor cursor0 with
  | Some a =>
      if a =? position cursor0 then Some []
      else segments_fuel fuel starts totalLength
             (Z.min a (position cursor0)) (Z.max a (position cursor0))
  | None => Some []
  end.

End Selection.

(** ** Edit page: the pending queue in local storage *)

Module Stored.
Import JsString.

(** A value as [JSON.parse] returns it.  Numbers are integers here, as
    everywhere in this development; an object is the list of its
    properties. *)
#[warnings="-register-all"] Inductive Json :=
| JNull
| JBool (b : bool)
| JNum (n : Z)
| JStr (s : jsstring)
| JArr (items : list Json)
| JObj (props : list (jsstring * Json)).

(** [value[key]]: [None] is [undefined]. *)
Fixpoint lookup_prop (props : list (jsstring * Json)) (key : jsstring)
  : option Json :=
  match props with
  | [] => None
  | (k, v) :: rest => if str_eqb k key then Some v else lookup_prop rest key
  end.

Definition prop (v : Json) (key : string) : option Json :=
  match v with
  | JObj props => lookup_prop props (js key)
  | _ => None
  end.

Definition truthy_json (v : Json) : bool :=
  match v with
  | JNull => false
  | JBool b => b
  | JNum n => negb (n =? 0)
  | JStr s => truthy s
  | JArr _ | JObj _ => true
  end.

(** [isOp]; on success the operation the object is read as. *)
Definition isOp (value : Json) : option Op :=
  match prop value "type" with
  | Some (JStr t) =>
      if str_eqb t (js "insert") then
        match prop value "pos", prop value "text" with
        | Some (JNum pos), Some (JStr text) => Some (Insert pos text)
        | _, _ => None
        end
      else if str_eqb t (js "delete") then
        match prop value "pos", prop value "len" with
        | Some (JNum pos), Some (JNum len) => Some (Delete pos len)
        | _, _ => None
        end
      else None
  | _ => None
  end.

(** An entry as [normalize] returns it.  The casts [as CursorState]
    check nothing: the cursors are the parsed values. *)
Record Restored := {
  r_op_id : jsstring;
  r_base_rev : Z;
  r_ops : list Op;
  r_cursor_before : option Json;
  r_cursor_after : option Json;
  r_ts : option Z;
}.

Definition normalize (item : Json) : option Restored :=
  match prop item "op_id", prop item "base_rev" with
  | Some (JStr id), Some (JNum base) =>
      match prop item "ops" with
      | Some (JArr opCandidates) =>
          let ops0 := omap isOp opCandidates in
          if negb (length ops0 =? length opCandidates)%nat then None
          else
            let kept (v : option Json) :=
              match v with
              | Some c => if truthy_json c then Some c else None
              | None => None
              end in
            Some {| r_op_id := id; r_base_rev := base; r_ops := ops0;
                    r_cursor_before := kept (prop item "cursor_before");
                    r_cursor_after := kept (prop item "cursor_after");
                    r_ts := match prop item "ts" with
                            | Some (JNum t) => Some t
                            | _ => None
                            end |}
      | _ => None
      end
  | _, _ => None
  end.

(** The [reduce] that keeps the entries [normalize] accepts. *)
Definition normalize_all (entries : list Json) : list Restored :=
  omap normalize entries.

(** The effect that restores the queue: the items and the latest ack it
    passes to [replace].  [raw] is [None] when nothing is stored under
    the key or the text does not parse. *)
Definition restore (raw : option Json) : list Restored * Z :=
  match raw with
  | Some (JArr entries) => (normalize_all entries, 0)
  | Some (JObj props) =>
      let sourceItems :=
        match lookup_prop props (js "items") with
        | Some (JArr entries) => entries
        | _ => []
        end in
      (normalize_all sourceItems,
       match lookup_prop props (js "latestAck") with
       | Some (JNum n) => n
       | _ => 0
       end)
  | _ => ([], 0)
  end.

(** *** What [JSON.stringify] writes and [JSON.parse] reads back

    Properties that are [undefined] are left out. *)

Definition optional (key : string) (v : option Json)
  : list (jsstring * Json) :=
  match v with Some j => [(js key, j)] | None => [] end.

Definition op_json (op : Op) : Json :=
  match op with
  | Insert pos text =>
      JObj [(js "type", JStr (js "insert")); (js "pos", JNum pos);
            (js "text", JStr text)]
  | Delete pos len =>
      JObj [(js "type", JStr (js "delete")); (js "pos", JNum pos);
            (js "len", JNum len)]
  end.

Definition direction_json (d : SelectionDirection) : Json :=
  match d with
  | forward => JStr (js "forward")
  | backward => JStr (js "backward")
  end.

Definition cursor_json (c : CursorState) : Json :=
  JObj ([(js "position", JNum (position c))]
        ++ optional "anchor" (option_map JNum (anchor c))
        ++ optional "selection_direction"
             (option_map direction_json (selection_direction c))).

Definition edit_json (e : PendingEdit) : Json :=
  JObj ([(js "op_id", JStr (op_id e)); (js "base_rev", JNum (base_rev e));
         (js "ops", JArr (map op_json (ops e)))]
        ++ optional "cursor_before" (option_map cursor_json (cursor_before e))
        ++ optional "cursor_after" (option_map cursor_json (cursor_after e))
        ++ optional "ts" (option_map JNum (ts e))).

(** The queue as [persistQueue] writes it: [toJSON()] is [snapshot()]. *)
Definition snapshot_json (s : PendingQueueSnapshot) : Json :=
  JObj (optional "latestAck" (option_map JNum (snap_latestAck s))
        ++ optional "items"
             (option_map (fun items => JArr (map edit_json items))
                (snap_items s))).

(** *** Reading a restored entry as a [PendingEdit] *)

Definition direction_of_json (v : Json) : option SelectionDirection :=
  match v with
  | JStr s =>
      if str_eqb s (js "forward") then Some forward
      else if str_eqb s (js "backward") then Some backward
      else None
  | _ => None
  end.

Definition cursor_of_json (v : Json) : option CursorState :=
  match prop v "position" with
  | Some (JNum p) =>
      match prop v "anchor", prop v "selection_direction" with
      | Some (JNum a), Some d =>
          option_map (fun d' => {| position := p; anchor := Some a;
                                   selection_direction := Some d' |})
            (direction_of_json d)
      | Some (JNum a), None =>
          Some {| position := p; anchor := Some a;
                  selection_direction := None |}
      | None, Some d =>
          option_map (fun d' => {| position := p; anchor := None;
                                   selection_direction := Some d' |})
            (direction_of_json d)
      | None, None =>
          Some {| position := p; anchor := None; selection_direction := None |}
      | _, _ => None
      end
  | _ => None
  end.

Definition optional_cursor (v : option Json) : option (option CursorState) :=
  match v with
  | Some c => option_map Some (cursor_of_json c)
  | None => Some None
  end.

Definition edit_of (r : Restored) : option PendingEdit :=
  match optional_cursor (r_cursor_before r),
        optional_cursor (r_cursor_after r) with
  | Some before, Some after =>
      Some {| op_id := r_op_id r; base_rev := r_base_rev r; ops := r_ops r;
              cursor_before := before; cursor_after := after; ts := r_ts r |}
  | _, _ => None
  end.

(** *** The storage and the key

    [window.localStorage] as the page reaches it through [safeGetItem]
    and [safeSetItem].  A text is kept as the value [JSON.parse] reads
    from it, [None] for a text that does not parse. *)
Record LocalStorage := {
  available : bool;  (* [getStorage()] gives the storage and it can be read *)
  full : bool;       (* [setItem] throws: the quota is used up *)
  texts : list (jsstring * option Json);  (* the newest text of a key first *)
}.

Fixpoint lookup_text (l : list (jsstring * option Json)) (key : jsstring)
  : option (option Json) :=
  match l with
  | [] => None
  | (k, v) :: rest => if str_eqb k key then Some v else lookup_text rest key
  end.

(** [safeGetItem]: [None] is [null]. *)
Definition safeGetItem (s : LocalStorage) (key : jsstring)
  : option (option Json) :=
  if available s then lookup_text (texts s) key else None.

(** [safeSetItem]: what [setItem] throws is caught and only logged. *)
Definition safeSetItem (s : LocalStorage) (key : jsstring) (v : option Json)
  : LocalStorage :=
  if available s && negb (full s)
  then {| available := available s; full := full s;
          texts := (key, v) :: texts s |}
  else s.

(** [`${STORAGE_PREFIX}:queue:${slug}:${clientId}`], where [clientId] is
    the [uuidv4()] drawn when the page mounts. *)
Definition storageKeyQueue (prefix slug clientId : jsstring) : jsstring :=
  prefix ++ js ":queue:" ++ slug ++ js ":" ++ clientId.

(** [persistQueue] *)
Definition persistQueue (s : LocalStorage) (prefix slug clientId : jsstring)
    (pq : PendingQueue.t) : LocalStorage :=
  safeSetItem s (storageKeyQueue prefix slug clientId)
    (Some (snapshot_json (PendingQueue.snapshot pq))).

(** The restoring effect of a page with this client id. *)
Definition restoreQueue (s : LocalStorage) (prefix slug clientId : jsstring)
  : list Restored * Z :=
  restore (mjoin (safeGetItem s (storageKeyQueue prefix slug clientId))).

End Stored.

(** ** Edit page: the display name *)

Module Names.
Import JsString Profile.

(** [getInitialDisplayName]: [window] tells whether the code runs in a
    browser, [stored] is what [safeGetItem(DISPLAY_NAME_KEY)] returns. *)
Definition getInitialDisplayName (window : bool) (stored : option jsstring)
    (clientId : jsstring) : jsstring :=
  let generated := user_prefix ++ str_slice clientId 0 (Some 6) in
  if negb window then generated
  else
    match stored with
    | Some s =>
        if truthy s && (0 <? str_length (trim s))
        then str_slice (trim s) 0 (Some 32)
        else generated
    | None => generated
    end.

(** A name that can be shown: at most 32 code units, the first of them
    not white space. *)
Definition shown_name (name : jsstring) : Prop :=
  str_length name <= 32
  /\ exists c rest, name = c :: rest /\ is_js_space c = false.

End Names.

(** ** Edit page: publishing the cursor *)

Module Publish.
Import EditPage Profile.

(** The [cursor] frame [sendCursorMessage] hands to the socket. *)
Record CursorFrame := {
  c_slug : jsstring;
  c_cursor : CursorState;
  c_op_id : jsstring;
  c_ts : Z;
}.

(** [sendCursorMessage]: nothing at all without an open socket;
    otherwise the frame is sent and the client's own presence entry
    takes the cursor.  The key is the client's own id, a [uuidv4()]. *)
Definition sendCursorMessage (st : t) (cur : CursorState)
    (new_op_id : jsstring) (now : Z) : t * option CursorFrame :=
  match ws st with
  | Some OPEN =>
      let old := default (Presence.bare (clientId st))
                   (presence_get (presence st) (clientId st)) in
      (set_presence st
         (presence_set (presence st) (clientId st)
            {| client_id := client_id old;
               label := Some (displayName st);
               color := Some (default (displayColor st) (color old));
               cursor := Some cur;
               ime := ime old;
               last_seen := Some now |}),
       Some {| c_slug := slug st; c_cursor := cur; c_op_id := new_op_id;
               c_ts := now |})
  | _ => (st, None)
  end.

(** [publishCursorImmediate], with the textarea mounted: the new
    [lastCursorStateRef] beside the result of [sendCursorMessage]. *)
Definition publishCursorImmediate (st : t) (textarea : Editing.Textarea)
    (new_op_id : jsstring) (now : Z)
  : t * option CursorFrame * option CursorState :=
  let cur := Editing.computeCursorState textarea in
  (sendCursorMessage st cur new_op_id now, Some cur).

End Publish.

(** ** lib/api: the password kept in local storage *)

Module Passwords.
Import JsString.

(** [localStorage]: [usable] is false where there is no [window] or
    the storage raises; [items] are its entries. *)
Record Storage := {
  usable : bool;
  items : list (jsstring * jsstring);
}.

Fixpoint getItem (l : list (jsstring * jsstring)) (key : jsstring)
  : option jsstring :=
  match l with
  | [] => None
  | (k, v) :: rest => if str_eqb k key then Some v else getItem rest key
  end.

Definition removeItem (l : list (jsstring * jsstring)) (key : jsstring)
  : list (jsstring * jsstring) :=
  List.filter (fun kv => negb (str_eqb kv.1 key)) l.

Definition setItem (l : list (jsstring * jsstring)) (key value : jsstring)
  : list (jsstring * jsstring) :=
  (key, value) :: removeItem l key.

(** What a call comes to: [Throws] when it raises before it has made
    its request. *)
Inductive Result (A : Type) :=
| Ok (a : A)
| Throws.
Arguments Ok {A} _.
Arguments Throws {A}.

Section Prefix.
(** [STORAGE_PREFIX] *)
Variable prefix : jsstring.

(** [`${STORAGE_PREFIX}:pwd:${slug}`] *)
Definition passwordKey (slug : jsstring) : jsstring :=
  prefix ++ js ":pwd:" ++ slug.

Definition getStoredPassword (st : Storage) (slug : jsstring)
  : option jsstring :=
  if usable st then getItem (items st) (passwordKey slug) else None.

Definition setStoredPassword (st : Storage) (slug : jsstring)
    (password : option jsstring) : Storage :=
  if usable st then
    match password with
    | Some p =>
        if truthy p && (0 <? str_length p)
        then {| usable := true;
                items := setItem (items st) (passwordKey slug) p |}
        else {| usable := true;
                items := removeItem (items st) (passwordKey slug) |}
    | None => {| usable := true;
                 items := removeItem (items st) (passwordKey slug) |}
    end
  else st.

(** A token is the base64 form of the bytes of its payload: with
    [window.btoa] one byte for each code unit, with [Buffer] the UTF-8
    bytes. *)
Inductive Token :=
| BtoaToken (payload : jsstring)
| BufferToken (payload : jsstring).

(** [window.btoa] takes code units up to U+00FF and throws for a string
    with any other. *)
Definition latin1 (s : jsstring) : bool :=
  forallb (fun c => c <=? 255) s.

(** [buildBasicToken]; [btoa] tells whether there is a window with
    [btoa], as in every browser. *)
Definition buildBasicToken (btoa : bool) (slug password : jsstring)
  : Result Token :=
  let payload := slug ++ js ":" ++ password in
  if btoa then
    if latin1 payload then Ok (BtoaToken payload) else Throws
  else Ok (BufferToken payload).

(** [encodeURIComponent] throws for a string with a surrogate that is
    not one of a pair. *)
Definition paired (s : jsstring) : bool :=
  forallb (fun cp =>
             match cp with
             | [c] => negb (is_high_surrogate c || is_low_surrogate c)
             | _ => true
             end) (code_points s).

(** What [fetchSnapshot] puts into its request: the token that follows
    [Basic] in the [Authorization] header, and the [password] query
    parameter. *)
Record Request := {
  authorization : option Token;
  password_param : option jsstring;
}.

Definition fetchSnapshot_request (btoa : bool) (st : Storage)
    (slug : jsstring) (opts_password : option jsstring) : Result Request :=
  let headerPassword :=
    match opts_password with
    | Some p => Some p
    | None => getStoredPassword st slug
    end in
  let param :=
    match opts_password with
    | Some p => if truthy p then Some p else None
    | None => None
    end in
  match headerPassword with
  | Some p =>
      if truthy p then
        match buildBasicToken btoa slug p with
        | Ok token =>
            Ok {| authorization := Some token; password_param := param |}
        | Throws => Throws
        end
      else Ok {| authorization := None; password_param := param |}
  | None => Ok {| authorization := None; password_param := param |}
  end.

(** The token [openWs] passes in the address of the socket, if any; the
    address has [encodeURIComponent(slug)] in it. *)
Definition openWs_token (btoa : bool) (st : Storage) (slug : jsstring)
  : Result (option Token) :=
  let token :=
    match getStoredPassword st slug with
    | Some pwd =>
        if truthy pwd then
          match buildBasicToken btoa slug pwd with
          | Ok t => Ok (Some t)
          | Throws => Throws
          end
        else Ok None
    | None => Ok None
    end in
  match token with
  | Ok t => if paired slug then Ok t else Throws
  | Throws => Throws
  end.

End Prefix.
End Passwords.

(** * Properties *)

(** ** The definitions on small inputs *)

Example code_points_pair :
  code_points ([55357; 56832] ++ js "a") = [[55357; 56832]; js "a"].
Proof. reflexivity. Qed.

Example code_points_lone_surrogates :
  code_points [56832; 55357] = [[56832]; [55357]].
Proof. reflexivity. Qed.

Example slice_negative : slice (js "abcde") (-2) None = js "de".
Proof. reflexivity. Qed.

Example slice_clamped : slice (js "abcde") 3 (Some 9) = js "de".
Proof. reflexivity. Qed.

Example trim_both_ends : trim (js "  a b ") = js "a b".
Proof. reflexivity. Qed.

Example applyOps_insert_delete :
  applyOps (js "HELLO") [Delete 1 3; Insert 1 (js "-")] = js "H-O".
Proof. reflexivity. Qed.

Example diffToOps_middle :
  diffToOps (js "abc") (js "axc") = [Delete 1 1; Insert 1 (js "x")].
Proof. vm_compute. reflexivity. Qed.

Example diffToOps_append : diffToOps (js "ab") (js "abab") = [Insert 2 (js "ab")].
Proof. vm_compute. reflexivity. Qed.

Example transform_scenario_S2 :
  SpecOT.transform true (Insert 3 (js "-")) (Delete 1 3) = [Insert 1 (js "-")].
Proof. reflexivity. Qed.

Example hex_color_ok : Profile.matches_hex_color (js "#A1b2C3") = true.
Proof. reflexivity. Qed.

Example hex_color_short : Profile.matches_hex_color (js "#fff") = false.
Proof. reflexivity. Qed.

(** ** Strings and slices *)

Lemma code_points_cons2 c d s :
  code_points (c :: d :: s) =
  if is_high_surrogate c && is_low_surrogate d
  then [c; d] :: code_points s
  else [c] :: code_points (d :: s).
Proof. reflexivity. Qed.

(** Induction over a string two code units at a time. *)
Lemma jsstring_pair_ind (P : jsstring -> Prop) :
  P [] ->
  (forall c, P [c]) ->
  (forall c d s, P s -> P (d :: s) -> P (c :: d :: s)) ->
  forall s, P s.
Proof.
  intros Hnil Hone Hstep s.
  assert (H : P s /\ forall c, P (c :: s)).
  { induction s as [|d s [IH1 IH2]]; split; auto. }
  apply H.
Qed.

Lemma join_code_points s : join (code_points s) = s.
Proof.
  induction s as [|c|c d s IH1 IH2] using jsstring_pair_ind; try reflexivity.
  rewrite code_points_cons2.
  unfold join in *.
  destruct (is_high_surrogate c && is_low_surrogate d);
    cbn [concat app]; congruence.
Qed.

Lemma code_points_nonempty s : Forall (fun cp => cp <> []) (code_points s).
Proof.
  induction s as [|c|c d s IH1 IH2] using jsstring_pair_ind.
  - constructor.
  - repeat constructor. discriminate.
  - rewrite code_points_cons2.
    destruct (is_high_surrogate c && is_low_surrogate d);
      constructor; auto; discriminate.
Qed.

Lemma code_points_inj s t : code_points s = code_points t -> s = t.
Proof.
  intros H. rewrite <- (join_code_points s), <- (join_code_points t).
  now rewrite H.
Qed.

Lemma join_nil_inv (parts : list jsstring) :
  Forall (fun cp => cp <> []) parts -> join parts = [] -> parts = [].
Proof.
  intros HF Hj. destruct parts as [|p parts]; [reflexivity|].
  inversion HF as [|? ? Hp _]; subst.
  unfold join in Hj. simpl in Hj. destruct p; [congruence | discriminate].
Qed.

Lemma slice_prefix {A} (l : list A) (pos : Z) :
  0 <= pos -> slice l 0 (Some pos) = take (Z.to_nat pos) l.
Proof.
  intros Hpos. unfold slice, rel_index.
  replace (0 <? 0) with false by reflexivity.
  replace (pos <? 0) with false by (symmetry; apply Z.ltb_ge; lia).
  rewrite (Z.min_l 0) by lia. change (Z.to_nat 0) with 0%nat.
  rewrite drop_0, Z.sub_0_r.
  destruct (Z.le_gt_cases pos (Z.of_nat (length l))).
  - now rewrite Z.min_l by lia.
  - rewrite Z.min_r by lia. rewrite Nat2Z.id.
    rewrite !take_ge; [reflexivity | lia | lia].
Qed.

Lemma slice_suffix {A} (l : list A) (pos : Z) :
  0 <= pos ->
  slice l pos None = drop (Z.to_nat (Z.min pos (Z.of_nat (length l)))) l.
Proof.
  intros Hpos. unfold slice, rel_index.
  replace (pos <? 0) with false by (symmetry; apply Z.ltb_ge; lia).
  apply take_ge. rewrite length_drop. lia.
Qed.

Lemma slice_middle {A} (l : list A) (i e : Z) :
  0 <= i <= e -> e <= Z.of_nat (length l) ->
  slice l i (Some e) = take (Z.to_nat (e - i)) (drop (Z.to_nat i) l).
Proof.
  intros Hi He. unfold slice, rel_index.
  replace (i <? 0) with false by (symmetry; apply Z.ltb_ge; lia).
  replace (e <? 0) with false by (symmetry; apply Z.ltb_ge; lia).
  now rewrite (Z.min_l i), (Z.min_l e) by lia.
Qed.

Lemma take_clamp {A} (l : list A) (k : Z) :
  take (Z.to_nat k) l = take (Z.to_nat (Z.min k (Z.of_nat (length l)))) l.
Proof.
  destruct (Z.le_gt_cases k (Z.of_nat (length l))).
  - now rewrite Z.min_l by lia.
  - rewrite Z.min_r by lia. rewrite !take_ge; [reflexivity | lia | lia].
Qed.

(** ** applyOps clamps *)

Lemma applyOp_insert s pos text :
  0 <= pos ->
  applyOp s (Insert pos text) =
  TextBuffer.insert (code_points s)
    (Z.to_nat (Z.min pos (cp_length s))) text.
Proof.
  intros Hpos. unfold applyOp, TextBuffer.insert, cp_length.
  rewrite slice_prefix, slice_suffix by assumption.
  now rewrite <- take_clamp.
Qed.

Lemma applyOp_delete s pos len :
  0 <= pos -> 0 <= len ->
  applyOp s (Delete pos len) =
  TextBuffer.delete (code_points s)
    (Z.to_nat (Z.min pos (cp_length s)))
    (Z.to_nat (Z.min len (cp_length s
                          - Z.min pos (cp_length s)))).
Proof.
  intros Hpos Hlen. unfold applyOp, TextBuffer.delete, cp_length.
  rewrite slice_prefix, slice_suffix by lia.
  rewrite <- take_clamp. do 2 f_equal. f_equal. lia.
Qed.

Lemma clamp_in_bounds n op :
  0 <= n -> TextBuffer.nonneg op ->
  TextBuffer.in_bounds n (TextBuffer.clamp n op).
Proof.
  intros Hn. destruct op as [pos text|pos len]; simpl;
    unfold TextBuffer.clamp_len, TextBuffer.clamp_pos; lia.
Qed.

Lemma clamp_nonneg n op :
  0 <= n -> TextBuffer.nonneg op -> TextBuffer.nonneg (TextBuffer.clamp n op).
Proof.
  intros Hn. destruct op as [pos text|pos len]; simpl;
    unfold TextBuffer.clamp_len, TextBuffer.clamp_pos; lia.
Qed.

Lemma clamp_idempotent n op :
  TextBuffer.clamp n (TextBuffer.clamp n op) = TextBuffer.clamp n op.
Proof.
  destruct op as [pos text|pos len]; simpl;
    unfold TextBuffer.clamp_len, TextBuffer.clamp_pos; f_equal; lia.
Qed.

Lemma applyOp_clamp s op :
  TextBuffer.nonneg op ->
  applyOp s op =
  TextBuffer.apply (code_points s) (TextBuffer.clamp (cp_length s) op).
Proof.
  destruct op as [pos text|pos len]; simpl TextBuffer.nonneg.
  - intros Hpos. now rewrite applyOp_insert.
  - intros [Hpos Hlen]. now rewrite applyOp_delete.
Qed.

(** C3. For a string [s] and a single insert or delete with non-negative
    [pos] and [len], [applyOps s [op]] is a string (the function has no
    way to fail) and it is the result of applying the clamped operation to
    the code points of [s]: the effective position is [min(pos, |s|)] and
    the effective length of a delete [min(len, |s| - min(pos, |s|))]; the
    clamped operation lies inside the buffer, and the code gives the same
    result for it. *)
Theorem applyOps_clamps (s : jsstring) (op : Op) :
  TextBuffer.nonneg op ->
  let n := cp_length s in
  let op' := TextBuffer.clamp n op in
  applyOps s [op] = TextBuffer.apply (code_points s) op'
  /\ applyOps s [op] = applyOps s [op']
  /\ TextBuffer.in_bounds n op'.
Proof.
  intros Hop n op'.
  assert (Hn : 0 <= n) by (unfold n, cp_length; lia).
  unfold applyOps. cbn [fold_left]. split; [|split].
  - now apply applyOp_clamp.
  - rewrite (applyOp_clamp s op Hop).
    rewrite (applyOp_clamp s op') by now apply clamp_nonneg.
    fold n. unfold op'. now rewrite clamp_idempotent.
  - now apply clamp_in_bounds.
Qed.

(* "abc", delete(1, 7): the length is clamped to 2 *)
Lemma applyOps_clamps_witness :
  TextBuffer.nonneg (Delete 1 7)
  /\ applyOps (js "abc") [Delete 1 7]
     = TextBuffer.apply (code_points (js "abc")) (Delete 1 2).
Proof.
  split; [simpl; lia|].
  apply (applyOps_clamps (js "abc") (Delete 1 7)). simpl; lia.
Defined.

(** ** The loops of diffToOps *)

(** A loop whose condition fails from [bound] on leaves by its condition
    when it is given more turns than the distance to the bound. *)
Lemma count_while_exits cond bound fuel i :
  (forall k, cond k = true -> k < bound) ->
  (Z.to_nat (bound - i) < fuel)%nat ->
  exists r, count_while fuel cond i = Some r
            /\ i <= r
            /\ cond r = false
            /\ forall k, i <= k < r -> cond k = true.
Proof.
  intros Hb. revert i. induction fuel as [|fuel IH]; intros i Hfuel; [lia|].
  simpl. destruct (cond i) eqn:Hc.
  - apply Hb in Hc as Hlt.
    destruct (IH (i + 1)) as (r & Hr & Hle & Hfalse & Htrue); [lia|].
    exists r. repeat split; [assumption | lia | assumption |].
    intros k Hk. destruct (Z.eq_dec k i) as [->|Hne]; [assumption|].
    apply Htrue. lia.
  - exists i. repeat split; [lia | assumption |]. intros k Hk. lia.
Qed.

(** More turns than needed do not change the result. *)
Lemma count_while_more cond fuel fuel' i r :
  count_while fuel cond i = Some r -> (fuel <= fuel')%nat ->
  count_while fuel' cond i = Some r.
Proof.
  revert fuel' i. induction fuel as [|fuel IH]; intros fuel' i H Hle.
  - discriminate.
  - destruct fuel' as [|fuel']; [lia|]. simpl in *.
    destruct (cond i); [|assumption]. apply IH; [assumption | lia].
Qed.

Lemma prefix_cond_bound a b k : prefix_cond a b k = true -> k < alen a.
Proof.
  unfold prefix_cond. rewrite !andb_true_iff, Z.ltb_lt. tauto.
Qed.

Lemma suffix_cond_bound a b i k :
  0 <= i -> suffix_cond a b i k = true -> k < alen a.
Proof.
  unfold suffix_cond. rewrite !andb_true_iff, !Z.ltb_lt. lia.
Qed.


Lemma diff_loops a b fuel :
  (length a < fuel)%nat ->
  exists i j,
    count_while fuel (prefix_cond a b) 0 = Some i
    /\ count_while fuel (suffix_cond a b i) 0 = Some j
    /\ diff_split a b i j.
Proof.
  intros Hfuel.
  destruct (count_while_exits (prefix_cond a b) (alen a) fuel 0)
    as (i & Hi & Hi0 & Hstop & Htrue).
  { apply prefix_cond_bound. }
  { unfold alen. lia. }
  destruct (count_while_exits (suffix_cond a b i) (alen a) fuel 0)
    as (j & Hj & Hj0 & Hstopj & Htruej).
  { intros k. now apply suffix_cond_bound. }
  { unfold alen. lia. }
  exists i, j. split; [assumption|]. split; [assumption|].
  assert (Hia : i <= alen a /\ i <= blen b).
  { destruct (Z.eq_dec i 0) as [->|Hne]; [unfold alen, blen; lia|].
    specialize (Htrue (i - 1) ltac:(lia)). unfold prefix_cond in Htrue.
    rewrite !andb_true_iff, !Z.ltb_lt in Htrue. lia. }
  assert (Hja : i + j <= alen a /\ i + j <= blen b).
  { destruct (Z.eq_dec j 0) as [->|Hne]; [lia|].
    specialize (Htruej (j - 1) ltac:(lia)). unfold suffix_cond in Htruej.
    rewrite !andb_true_iff, !Z.ltb_lt in Htruej. lia. }
  constructor; try lia; try assumption.
  - intros k Hk. specialize (Htrue k Hk). unfold prefix_cond in Htrue.
    rewrite !andb_true_iff in Htrue. destruct Htrue as [_ Heq].
    unfold elem_eqb in Heq. now apply bool_decide_eq_true in Heq.
  - intros k Hk. specialize (Htruej k Hk). unfold suffix_cond in Htruej.
    rewrite !andb_true_iff in Htruej. destruct Htruej as [_ Heq].
    unfold elem_eqb in Heq. now apply bool_decide_eq_true in Heq.
Qed.

Lemma at_index_nat {A} (l : list A) (n : nat) :
  at_index l (Z.of_nat n) = l !! n.
Proof.
  unfold at_index.
  replace (Z.of_nat n <? 0) with false by (symmetry; apply Z.ltb_ge; lia).
  now rewrite Nat2Z.id.
Qed.

Lemma slice_nil_inv {A} (l : list A) (i e : Z) :
  0 <= i <= e -> e <= Z.of_nat (length l) -> slice l i (Some e) = [] -> e = i.
Proof.
  intros Hi He Hs. rewrite slice_middle in Hs by assumption.
  apply (f_equal length) in Hs. rewrite length_take, length_drop in Hs.
  simpl in Hs. lia.
Qed.

Lemma slice_nonempty_parts (l : list jsstring) (i e : Z) :
  0 <= i <= e -> e <= Z.of_nat (length l) ->
  Forall (fun cp => cp <> []) l ->
  Forall (fun cp => cp <> []) (slice l i (Some e)).
Proof.
  intros Hi He HF. rewrite slice_middle by assumption.
  apply Forall_take, Forall_drop, HF.
Qed.

(** When nothing is left between the common prefix and the common
    suffix on either side, the two sequences are the same. *)
Lemma diff_split_no_middle a b i j :
  diff_split a b i j -> alen a = i + j -> blen b = i + j -> a = b.
Proof.
  intros [Hi Hj Ha Hb Hpre Hsuf _ _] Hla Hlb.
  apply list_eq. intros n.
  destruct (Z.lt_ge_cases (Z.of_nat n) i) as [Hlt|Hge].
  - rewrite <- !at_index_nat. apply Hpre. lia.
  - destruct (Z.lt_ge_cases (Z.of_nat n) (alen a)) as [Hin|Hout].
    + specialize (Hsuf (alen a - 1 - Z.of_nat n) ltac:(lia)).
      replace (alen a - 1 - (alen a - 1 - Z.of_nat n)) with (Z.of_nat n)
        in Hsuf by lia.
      replace (blen b - 1 - (alen a - 1 - Z.of_nat n)) with (Z.of_nat n)
        in Hsuf by lia.
      now rewrite !at_index_nat in Hsuf.
    + unfold alen, blen in *.
      rewrite (lookup_ge_None_2 a), (lookup_ge_None_2 b) by lia.
      reflexivity.
Qed.


Lemma diffToOps_fuel_split before after fuel :
  (length (code_points before) < fuel)%nat ->
  before <> after ->
  exists i j,
    diff_split (code_points before) (code_points after) i j
    /\ diffToOps_fuel fuel before after
       = Some (diff_ops (code_points before) (code_points after) i j).
Proof.
  intros Hfuel Hne.
  destruct (diff_loops (code_points before) (code_points after) fuel Hfuel)
    as (i & j & Hi & Hj & Hsplit).
  exists i, j. split; [assumption|].
  unfold diffToOps_fuel, str_eqb. rewrite bool_decide_eq_false_2 by assumption.
  rewrite Hi, Hj. unfold diff_ops.
  destruct (0 <? str_length _); destruct (0 <? str_length _); reflexivity.
Qed.

Lemma diffToOps_fuel_more before after fuel fuel' r :
  diffToOps_fuel fuel before after = Some r -> (fuel <= fuel')%nat ->
  diffToOps_fuel fuel' before after = Some r.
Proof.
  unfold diffToOps_fuel. intros H Hle.
  destruct (str_eqb before after); [assumption|].
  destruct (count_while fuel (prefix_cond _ _) 0) as [i|] eqn:Hi;
    [|discriminate].
  rewrite (count_while_more _ _ _ _ _ Hi Hle).
  destruct (count_while fuel (suffix_cond _ _ i) 0) as [j|] eqn:Hj;
    [|discriminate].
  now rewrite (count_while_more _ _ _ _ _ Hj Hle).
Qed.

Lemma diffToOps_fuel_returns before after :
  exists r,
    diffToOps_fuel (S (length (code_points before))) before after = Some r.
Proof.
  destruct (decide (before = after)) as [Heq|Hne].
  - exists []. unfold diffToOps_fuel, str_eqb.
    now rewrite bool_decide_eq_true_2.
  - destruct (diffToOps_fuel_split before after
                (S (length (code_points before))) ltac:(lia) Hne)
      as (i & j & _ & H).
    eauto.
Qed.

(** Any number of turns above [a.length] gives the result of
    [diffToOps]: the loops always leave by their condition. *)
Lemma diffToOps_fuel_enough before after fuel :
  (length (code_points before) < fuel)%nat ->
  diffToOps_fuel fuel before after = Some (diffToOps before after).
Proof.
  intros Hfuel. unfold diffToOps.
  destruct (diffToOps_fuel_returns before after) as [r Hr].
  rewrite Hr. simpl. apply (diffToOps_fuel_more _ _ _ _ _ Hr). lia.
Qed.

Lemma diffToOps_equal s : diffToOps s s = [].
Proof.
  unfold diffToOps, diffToOps_fuel, str_eqb.
  now rewrite bool_decide_eq_true_2.
Qed.

Lemma diffToOps_split before after :
  before <> after ->
  exists i j,
    diff_split (code_points before) (code_points after) i j
    /\ diffToOps before after
       = diff_ops (code_points before) (code_points after) i j.
Proof.
  intros Hne.
  destruct (diffToOps_fuel_split before after
              (S (length (code_points before))) ltac:(lia) Hne)
    as (i & j & Hs & H).
  exists i, j. split; [assumption|]. unfold diffToOps. now rewrite H.
Qed.

(** Different strings give at least one operation. *)
Lemma diff_ops_nonempty before after i j :
  before <> after ->
  diff_split (code_points before) (code_points after) i j ->
  diff_ops (code_points before) (code_points after) i j <> [].
Proof.
  intros Hne Hs Hnil. apply Hne, code_points_inj.
  pose proof Hs as [Hi Hj Ha Hb _ _ _ _].
  unfold diff_ops in Hnil.
  set (bm := join (slice (code_points before) i _)) in *.
  set (am := join (slice (code_points after) i _)) in *.
  destruct (0 <? str_length bm) eqn:Hbm; [discriminate|].
  destruct (0 <? str_length am) eqn:Ham; [discriminate|].
  apply Z.ltb_ge in Hbm, Ham. unfold str_length in *.
  assert (Hbm0 : bm = []) by (destruct bm; [reflexivity | simpl in Hbm; lia]).
  assert (Ham0 : am = []) by (destruct am; [reflexivity | simpl in Ham; lia]).
  unfold bm in Hbm0. unfold am in Ham0. unfold alen, blen in *.
  apply join_nil_inv in Hbm0;
    [|apply slice_nonempty_parts; [lia | lia | apply code_points_nonempty]].
  apply join_nil_inv in Ham0;
    [|apply slice_nonempty_parts; [lia | lia | apply code_points_nonempty]].
  apply slice_nil_inv in Hbm0; [|lia|lia].
  apply slice_nil_inv in Ham0; [|lia|lia].
  apply (diff_split_no_middle _ _ i j Hs); unfold alen, blen; lia.
Qed.


Lemma diff_ops_shape a b i j : diff_shape (diff_ops a b i j).
Proof.
  unfold diff_ops.
  destruct (0 <? str_length _); destruct (0 <? str_length _); exact I.
Qed.

(** C4. [diffToOps before after] returns (both loops leave by their
    condition within the turns allowed) at most two operations: at most
    one delete and at most one insert, the delete first; and the list is
    empty exactly when [before] equals [after]. *)
Theorem diffToOps_minimal (before after : jsstring) :
  diffToOps_fuel (S (length (code_points before))) before after
    = Some (diffToOps before after)
  /\ (length (diffToOps before after) <= 2)%nat
  /\ (count_deletes (diffToOps before after) <= 1)%nat
  /\ (count_inserts (diffToOps before after) <= 1)%nat
  /\ diff_shape (diffToOps before after)
  /\ (diffToOps before after = [] <-> before = after).
Proof.
  split; [apply diffToOps_fuel_enough; lia|].
  destruct (decide (before = after)) as [->|Hne].
  - rewrite diffToOps_equal. simpl.
    repeat split; auto; unfold count_deletes, count_inserts; simpl; lia.
  - destruct (diffToOps_split before after Hne) as (i & j & Hs & ->).
    pose proof (diff_ops_nonempty before after i j Hne Hs) as Hnonempty.
    pose proof (diff_ops_shape (code_points before) (code_points after) i j)
      as Hshape.
    destruct (diff_ops _ _ i j) as [|[p1 t1|p1 l1] [|[p2 t2|p2 l2] [|o3 r]]];
      simpl in Hshape; try contradiction;
      (refine (conj _ (conj _ (conj _ (conj _ _))));
       [simpl; lia | vm_compute; lia | vm_compute; lia | exact I
       | split; congruence]).
Qed.

(** ** The round trip of diffToOps *)


Lemma code_points_no_surrogates s :
  no_surrogates s -> code_points s = map (fun c => [c]) s.
Proof.
  induction s as [|c|c d s IH1 IH2] using jsstring_pair_ind; intros H;
    try reflexivity.
  rewrite code_points_cons2.
  inversion H as [|? ? Hc Hrest]; subst.
  unfold is_surrogate in Hc. apply orb_false_iff in Hc as [Hc _].
  rewrite Hc. simpl andb. cbv iota. rewrite IH2 by assumption. reflexivity.
Qed.

Lemma join_singletons (s : jsstring) : join (map (fun c => [c]) s) = s.
Proof. induction s as [|c s IH]; unfold join in *; simpl; congruence. Qed.

Lemma single_units_of_string s :
  no_surrogates s -> single_units (code_points s).
Proof.
  intros H. rewrite code_points_no_surrogates by assumption.
  unfold single_units. induction H as [|c s Hc Hs IH]; simpl; constructor;
    eauto.
Qed.

Lemma single_units_join cps :
  single_units cps ->
  no_surrogates (join cps) /\ cps = map (fun c => [c]) (join cps).
Proof.
  unfold join. induction 1 as [|cp cps (c & -> & Hc) Hs [IH1 IH2]]; simpl.
  - split; [constructor | reflexivity].
  - split; [constructor; assumption | congruence].
Qed.

Lemma code_points_join cps : single_units cps -> code_points (join cps) = cps.
Proof.
  intros H. destruct (single_units_join cps H) as [Hns Heq].
  rewrite code_points_no_surrogates by assumption. congruence.
Qed.

Lemma str_length_join cps :
  single_units cps -> str_length (join cps) = Z.of_nat (length cps).
Proof.
  intros H. destruct (single_units_join cps H) as [_ Heq].
  unfold str_length. rewrite Heq at 2. now rewrite length_map.
Qed.

Lemma diff_split_take a b i j :
  diff_split a b i j -> take (Z.to_nat i) a = take (Z.to_nat i) b.
Proof.
  intros [Hi _ _ _ Hpre _ _ _]. apply list_eq. intros n.
  destruct (Nat.lt_ge_cases n (Z.to_nat i)) as [Hlt|Hge].
  - rewrite !lookup_take_lt by assumption.
    rewrite <- !at_index_nat. apply Hpre. lia.
  - now rewrite !lookup_take_ge by assumption.
Qed.

Lemma diff_split_drop a b i j :
  diff_split a b i j ->
  drop (Z.to_nat (alen a - j)) a = drop (Z.to_nat (blen b - j)) b.
Proof.
  intros [Hi Hj Ha Hb _ Hsuf _ _]. apply list_eq. intros n.
  rewrite !lookup_drop. unfold alen, blen in *.
  destruct (Nat.lt_ge_cases n (Z.to_nat j)) as [Hlt|Hge].
  - specialize (Hsuf (j - 1 - Z.of_nat n) ltac:(lia)).
    replace (Z.of_nat (length a) - 1 - (j - 1 - Z.of_nat n))
      with (Z.of_nat (Z.to_nat (Z.of_nat (length a) - j) + n)) in Hsuf by lia.
    replace (Z.of_nat (length b) - 1 - (j - 1 - Z.of_nat n))
      with (Z.of_nat (Z.to_nat (Z.of_nat (length b) - j) + n)) in Hsuf by lia.
    now rewrite !at_index_nat in Hsuf.
  - rewrite (lookup_ge_None_2 a), (lookup_ge_None_2 b) by lia. reflexivity.
Qed.

Lemma join_app (l k : list jsstring) : join (l ++ k) = join l ++ join k.
Proof. apply concat_app. Qed.

(** On strings without surrogates the operations of [diffToOps] lead
    from [before] to [after]. *)
Lemma diff_ops_roundtrip a b i j :
  single_units a -> single_units b -> diff_split a b i j ->
  applyOps (join a) (diff_ops a b i j) = join b.
Proof.
  intros Ha Hb Hs.
  pose proof (diff_split_take a b i j Hs) as Htake.
  pose proof (diff_split_drop a b i j Hs) as Hdrop.
  destruct Hs as [Hi Hj Hla Hlb _ _ _ _].
  unfold alen, blen in *. unfold diff_ops, alen, blen.
  rewrite !slice_middle by lia.
  set (ni := Z.to_nat i) in *.
  set (ea := Z.to_nat (Z.of_nat (length a) - j)) in *.
  set (eb := Z.to_nat (Z.of_nat (length b) - j)) in *.
  replace (Z.to_nat (Z.of_nat (length a) - j - i)) with (ea - ni)%nat by lia.
  replace (Z.to_nat (Z.of_nat (length b) - j - i)) with (eb - ni)%nat by lia.
  (* the middle parts and their lengths *)
  assert (Hma : str_length (join (take (ea - ni) (drop ni a)))
                = Z.of_nat (ea - ni)).
  { rewrite str_length_join by now apply Forall_take, Forall_drop.
    rewrite length_take, length_drop. lia. }
  assert (Hmb : str_length (join (take (eb - ni) (drop ni b)))
                = Z.of_nat (eb - ni)).
  { rewrite str_length_join by now apply Forall_take, Forall_drop.
    rewrite length_take, length_drop. lia. }
  rewrite Hma, Hmb.
  (* the text after the delete, if any *)
  set (a1 := take ni a ++ drop ea a).
  assert (Ha1 : single_units a1).
  { apply Forall_app. split; [now apply Forall_take | now apply Forall_drop]. }
  assert (Hdel : applyOps (join a)
                   (if 0 <? Z.of_nat (ea - ni)
                    then [Delete i (Z.of_nat (ea - ni))] else [])
                 = join a1).
  { destruct (0 <? Z.of_nat (ea - ni)) eqn:Hpos.
    - apply Z.ltb_lt in Hpos. unfold applyOps. cbn [fold_left].
      rewrite applyOp_delete by lia. unfold cp_length.
      rewrite code_points_join by assumption.
      unfold TextBuffer.delete, a1. rewrite join_app. do 2 f_equal.
      + f_equal. lia.
      + f_equal. lia.
    - apply Z.ltb_ge in Hpos. unfold applyOps. cbn [fold_left].
      unfold a1. replace ea with ni by lia. now rewrite take_drop. }
  (* the text after the insert, if any *)
  assert (Hb_parts : b = take ni b ++ take (eb - ni) (drop ni b) ++ drop eb b).
  { rewrite <- (take_drop ni b) at 1. f_equal.
    rewrite <- (take_drop (eb - ni) (drop ni b)) at 1. f_equal.
    rewrite drop_drop. f_equal. lia. }
  unfold applyOps in *. rewrite fold_left_app, Hdel.
  destruct (0 <? Z.of_nat (eb - ni)) eqn:Hpos.
  - cbn [fold_left]. rewrite applyOp_insert by lia. unfold cp_length.
    rewrite code_points_join by assumption. unfold TextBuffer.insert.
    assert (Hlen1 : length (take ni a) = ni)
      by (rewrite length_take; lia).
    replace (Z.to_nat (Z.min i (Z.of_nat (length a1)))) with ni.
    2:{ unfold a1. rewrite length_app, Hlen1, length_drop. lia. }
    unfold a1. rewrite take_app_length', drop_app_length' by auto.
    rewrite Htake, Hdrop, <- !join_app. now rewrite <- Hb_parts.
  - apply Z.ltb_ge in Hpos. cbn [fold_left].
    replace (eb - ni)%nat with 0%nat in Hb_parts by lia.
    rewrite take_0 in Hb_parts. simpl in Hb_parts.
    unfold a1. rewrite Htake, Hdrop. now rewrite <- Hb_parts.
Qed.

(** X1. For strings without surrogate code units, applying the operations
    of [diffToOps before after] to [before] gives [after]. *)
Theorem diffToOps_roundtrip_no_surrogates (before after : jsstring) :
  no_surrogates before -> no_surrogates after ->
  applyOps before (diffToOps before after) = after.
Proof.
  intros Hb Ha. destruct (decide (before = after)) as [->|Hne].
  - now rewrite diffToOps_equal.
  - destruct (diffToOps_split before after Hne) as (i & j & Hs & ->).
    pose proof (diff_ops_roundtrip (code_points before) (code_points after)
                  i j (single_units_of_string _ Hb)
                  (single_units_of_string _ Ha) Hs) as H.
    now rewrite !join_code_points in H.
Qed.

(** C1. [diffToOps] counts the position of its delete in code points and
    its length in UTF-16 code units ([beforeMid.length]), while [applyOps]
    reads both in code points.  For before = U+1F600 "x" and after = "x"
    the delete has length 2, it removes the "x" as well, and the round
    trip gives the empty string and not [after]. *)
Theorem diffToOps_roundtrip_astral :
  let before := [55357; 56832] ++ js "x" in
  let after := js "x" in
  code_points before = [[55357; 56832]; js "x"]
  /\ diffToOps before after = [Delete 0 2]
  /\ applyOps before (diffToOps before after) = []
  /\ applyOps before (diffToOps before after) <> after.
Proof.
  repeat split; try (vm_compute; reflexivity). vm_compute. discriminate.
Qed.

(** ** The pending queue *)

Import Claims.

Lemma filter_remove_matching opId (l : list PendingEdit) :
  filter (fun entry => op_id entry <> opId) l = remove_matching opId l.
Proof.
  induction l as [|e l IH]; [reflexivity|]. simpl remove_matching.
  destruct (decide (op_id e = opId)) as [Heq|Hne].
  - rewrite filter_cons_False by tauto.
    now rewrite bool_decide_eq_true_2 by assumption.
  - rewrite filter_cons_True by assumption.
    rewrite bool_decide_eq_false_2 by assumption. now f_equal.
Qed.

Lemma truthy_nonempty (s : jsstring) : s <> [] -> truthy s = true.
Proof. destruct s; [contradiction | reflexivity]. Qed.

Lemma ack_latest pq opId serverSeq :
  PendingQueue.latestAck (PendingQueue.ack pq opId (Some serverSeq))
  = Z.max (PendingQueue.latestAck pq) serverSeq.
Proof.
  unfold PendingQueue.ack. simpl.
  destruct (Z.ltb_spec (PendingQueue.latestAck pq) serverSeq); lia.
Qed.

Lemma setLatestServerSeq_spec pq seq :
  PendingQueue.latestAck (PendingQueue.setLatestServerSeq pq seq)
  = Z.max (PendingQueue.latestAck pq) seq
  /\ PendingQueue.q (PendingQueue.setLatestServerSeq pq seq)
     = PendingQueue.q pq.
Proof.
  unfold PendingQueue.setLatestServerSeq.
  destruct (Z.ltb_spec (PendingQueue.latestAck pq) seq); simpl; split;
    try reflexivity; lia.
Qed.

(** C5, as the code has it.  An ack carrying a non-empty [opId] and a
    [serverSeq] removes exactly the pending entries whose [op_id] equals
    [opId], the others staying as they are and in their order, and sets
    the latest server sequence to the maximum of its value and
    [serverSeq]; the page then stores the queue and sets its revision.
    With an empty [opId] ([if (opts.opId)] is false) no entry is removed. *)
Theorem ack_removes_matching (pq : PendingQueue.t) (opId : jsstring)
    (serverSeq : Z) :
  let pq' := PendingQueue.ack pq (Some opId) (Some serverSeq) in
  PendingQueue.latestAck pq' = Z.max (PendingQueue.latestAck pq) serverSeq
  /\ (opId <> [] ->
      ack_claim pq opId serverSeq
      /\ (forall e, e ∈ PendingQueue.q pq' <->
                    e ∈ PendingQueue.q pq /\ op_id e <> opId)
      /\ sublist (PendingQueue.q pq') (PendingQueue.q pq))
  /\ (opId = [] -> PendingQueue.q pq' = PendingQueue.q pq)
  /\ (forall st, EditPage.queue st = pq ->
      let r := EditPage.handleMessage st (AckMsg (Some opId) (Some serverSeq))
      in EditPage.queue r.1 = pq'
         /\ EditPage.storedQueue r.1 = Some (PendingQueue.snapshot pq')
         /\ EditPage.rev r.1 = serverSeq).
Proof.
  intros pq'. split; [apply ack_latest|]. split; [|split].
  - intros Hne. unfold ack_claim. fold pq'.
    assert (Hq : PendingQueue.q pq'
                 = filter (fun entry => op_id entry <> opId)
                     (PendingQueue.q pq)).
    { unfold pq', PendingQueue.ack. simpl.
      now rewrite truthy_nonempty by assumption. }
    split; [split|split].
    + now rewrite Hq, filter_remove_matching.
    + apply ack_latest.
    + intros e. rewrite Hq, list_elem_of_filter. tauto.
    + rewrite Hq. apply sublist_filter.
  - intros ->. reflexivity.
  - intros st <-. simpl. repeat split.
Qed.

Lemma ack_removes_matching_witness :
  let e1 := {| op_id := js "a"; base_rev := 0; ops := [Insert 0 (js "x")];
               cursor_before := None; cursor_after := None; ts := None |} in
  let e2 := {| op_id := js "b"; base_rev := 0; ops := [Delete 0 1];
               cursor_before := None; cursor_after := None; ts := None |} in
  let pq := {| PendingQueue.q := [e1; e2; e1];
               PendingQueue.latestAck := 4 |} in
  PendingQueue.q (PendingQueue.ack pq (Some (js "a")) (Some 7)) = [e2]
  /\ ack_claim pq (js "a") 7.
Proof.
  intros e1 e2 pq. split; [reflexivity|].
  apply (ack_removes_matching pq (js "a") 7). discriminate.
Defined.

(** C5 as stated fails for the empty [opId]: the entry whose [op_id] is
    the empty string stays in the queue. *)
Lemma ack_empty_opId_counterexample :
  let e := {| op_id := js ""; base_rev := 0; ops := [Insert 0 (js "a")];
              cursor_before := None; cursor_after := None; ts := None |} in
  let pq := {| PendingQueue.q := [e]; PendingQueue.latestAck := 0 |} in
  PendingQueue.q (PendingQueue.ack pq (Some (js "")) (Some 1)) = [e]
  /\ remove_matching (js "") (PendingQueue.q pq) = []
  /\ (ack_claim pq (js "") 1 -> False).
Proof.
  intros e pq. split; [reflexivity|]. split; [reflexivity|].
  intros [Hq _]. vm_compute in Hq. discriminate.
Qed.

(** ** The edit page: remote operations *)

(** C2, as the code has it.  On an [op_broadcast] frame the client
    applies the remote operation to its text, sets its revision to the
    server sequence of the frame and raises the latest server sequence of
    the queue to it (the maximum of the two); the pending edits stay as
    they are, and nothing is sent. *)
Theorem op_broadcast_applies_remote (st : EditPage.t) (operation : Op)
    (serverSeq : Z) :
  let r := EditPage.handleMessage st (OpBroadcastMsg operation serverSeq) in
  EditPage.content r.1 = applyOps (EditPage.content st) [operation]
  /\ EditPage.rev r.1 = serverSeq
  /\ PendingQueue.latestAck (EditPage.queue r.1)
     = Z.max (PendingQueue.latestAck (EditPage.queue st)) serverSeq
  /\ PendingQueue.q (EditPage.queue r.1) = PendingQueue.q (EditPage.queue st)
  /\ r.2 = [].
Proof.
  simpl.
  destruct (setLatestServerSeq_spec (EditPage.queue st) serverSeq)
    as [Hlatest Hq].
  repeat split; assumption.
Qed.

(** C2 as stated fails: with the text "AB", a pending insert of "X" at 1
    and a remote insert of "Y" at 0, the rules of the specification move
    the pending insert to 2; the client leaves it at 1. *)
Lemma op_broadcast_counterexample :
  let pending := {| op_id := js "op-1"; base_rev := 0;
                    ops := [Insert 1 (js "X")];
                    cursor_before := None; cursor_after := None;
                    ts := None |} in
  let st := EditPage.set_queue
              (EditPage.set_content
                 (EditPage.initial (js "doc") (js "c1") (js "me") (js "#336699"))
                 (js "AB"))
              (PendingQueue.enqueue PendingQueue.empty pending) in
  let remote := Insert 0 (js "Y") in
  let st' := (EditPage.handleMessage st (OpBroadcastMsg remote 1)).1 in
  map ops (PendingQueue.q (EditPage.queue st')) = [[Insert 1 (js "X")]]
  /\ SpecOT.transform_ops true [Insert 1 (js "X")] remote
     = [Insert 2 (js "X")]
  /\ SpecOT.transform_ops false [Insert 1 (js "X")] remote
     = [Insert 2 (js "X")]
  /\ (op_broadcast_claim true st remote 1 -> False)
  /\ (op_broadcast_claim false st remote 1 -> False).
Proof.
  intros pending st remote st'.
  split; [reflexivity|]. split; [reflexivity|]. split; [reflexivity|].
  split; intros [Hq _]; vm_compute in Hq; discriminate.
Qed.

(** ** The edit page: drift repair *)

Lemma isEmpty_spec pq :
  PendingQueue.isEmpty pq = true <-> PendingQueue.q pq = [].
Proof.
  unfold PendingQueue.isEmpty. rewrite Z.eqb_eq.
  destruct (PendingQueue.q pq); simpl; split; intros; try reflexivity;
    try discriminate; lia.
Qed.

Lemma diffToOps_nonempty before after :
  before <> after -> diffToOps before after <> [].
Proof.
  intros Hne. destruct (diffToOps_split before after Hne) as (i & j & Hs & ->).
  now apply diff_ops_nonempty.
Qed.

Lemma reconcile_resume_equal st snap id now :
  Api.snap_content snap = EditPage.content st ->
  let r := EditPage.reconcile_resume st (Api.Returned snap) id now in
  r.2 = []
  /\ PendingQueue.q (EditPage.queue r.1) = PendingQueue.q (EditPage.queue st)
  /\ EditPage.content r.1 = EditPage.content st
  /\ EditPage.rev r.1 = Api.snap_rev snap.
Proof.
  intros Heq. unfold EditPage.reconcile_resume. simpl.
  unfold str_eqb. rewrite bool_decide_eq_true_2 by assumption. simpl.
  destruct (setLatestServerSeq_spec (EditPage.queue st) (Api.snap_rev snap))
    as [_ Hq].
  repeat split; assumption.
Qed.

Lemma reconcile_resume_differ st snap id now :
  Api.snap_content snap <> EditPage.content st ->
  let r := EditPage.reconcile_resume st (Api.Returned snap) id now in
  let e := repair_edit snap (EditPage.content st) id now in
  r.2 = match EditPage.ws st with
        | Some _ => [Send (EditMsg (EditPage.slug st) (repair_payload st e))]
        | None => []
        end
  /\ PendingQueue.q (EditPage.queue r.1)
     = PendingQueue.q (EditPage.queue st) ++ [e]
  /\ EditPage.storedQueue r.1
     = Some (PendingQueue.snapshot (EditPage.queue r.1))
  /\ EditPage.content r.1 = EditPage.content st
  /\ EditPage.rev r.1 = Api.snap_rev snap.
Proof.
  intros Hne. unfold EditPage.reconcile_resume. simpl.
  unfold str_eqb. rewrite bool_decide_eq_false_2 by assumption. simpl.
  pose proof (diffToOps_nonempty _ _ Hne) as Hops.
  destruct (diffToOps (Api.snap_content snap) (EditPage.content st))
    as [|o os] eqn:Hd; [contradiction|].
  replace (0 <? Z.of_nat (length (o :: os))) with true
    by (symmetry; apply Z.ltb_lt; simpl; lia).
  simpl.
  destruct (setLatestServerSeq_spec (EditPage.queue st) (Api.snap_rev snap))
    as [_ Hq].
  unfold repair_edit, repair_payload. simpl. rewrite Hd, Hq.
  repeat split.
Qed.




(** ** The HTTP helpers *)

(** C8, as the code has it.  [fetchSnapshot] and
    [updatePasswordOnServer] throw [UnauthorizedError] exactly when the
    status of the response is 401; for any other status that is not OK
    they throw a plain [Error]; on an OK response
    [updatePasswordOnServer] returns, and [fetchSnapshot] settles as
    [res.json()] does: it returns the decoded body when the body is JSON
    and throws the [SyntaxError] of the decoding, which is not an
    [UnauthorizedError], when it is not. *)
Theorem http_status_outcomes {J : Type} (res : Api.Response J) :
  (Api.fetchSnapshot res = Api.ThrewUnauthorized <-> Api.status res = 401)
  /\ (Api.updatePasswordOnServer res = Api.ThrewUnauthorized
      <-> Api.status res = 401)
  /\ (Api.status res <> 401 -> Api.ok res = false ->
      Api.fetchSnapshot res = Api.ThrewError Api.msg_fetch_failed
      /\ Api.updatePasswordOnServer res
         = Api.ThrewError Api.msg_update_failed)
  /\ (Api.ok res = true ->
      Api.updatePasswordOnServer res = Api.Returned tt
      /\ (forall value, Api.json res = inl value ->
          Api.fetchSnapshot res = Api.Returned value)
      /\ (forall message, Api.json res = inr message ->
          Api.fetchSnapshot res = Api.ThrewError message)).
Proof.
  unfold Api.fetchSnapshot, Api.updatePasswordOnServer, Api.ok.
  destruct (Z.eqb_spec (Api.status res) 401) as [H401|Hne].
  - rewrite H401. simpl. repeat split; try tauto; try discriminate.
  - destruct ((200 <=? Api.status res) && (Api.status res <=? 299)) eqn:Hok;
      simpl.
    + split; [split; [|tauto]; destruct (Api.json res); discriminate|].
      split; [split; [discriminate | tauto]|].
      split; [discriminate|]. intros _.
      split; [reflexivity|]. split; intros x ->; reflexivity.
    + repeat split; intros; try tauto; try discriminate.
Qed.

(** C8 as stated fails for [fetchSnapshot] on an OK response whose body
    is not JSON: status 200 with an HTML page for a body.  The call
    throws the [SyntaxError] of [res.json()] where the claim has it
    return; [updatePasswordOnServer], which does not read the body,
    returns. *)
Lemma http_ok_body_counterexample :
  let res : Api.Response Api.Snapshot :=
    {| Api.status := 200;
       Api.json := inr (js "Unexpected token < in JSON at position 0") |} in
  Api.ok res = true
  /\ Api.fetchSnapshot res
     = Api.ThrewError (js "Unexpected token < in JSON at position 0")
  /\ Api.updatePasswordOnServer res = Api.Returned tt
  /\ (http_claim res -> False).
Proof.
  intros res. split; [reflexivity|]. split; [reflexivity|].
  split; [reflexivity|].
  intros (_ & _ & _ & H). destruct (H eq_refl) as [H1 _]. discriminate.
Qed.

(** ** Profile updates *)

Lemma trim_start_no_surrogates s :
  no_surrogates s -> no_surrogates (trim_start s).
Proof.
  unfold no_surrogates. induction 1 as [|c s Hc Hs IH]; simpl.
  - constructor.
  - destruct (is_js_space c); [assumption | now constructor].
Qed.

Lemma trim_no_surrogates s : no_surrogates s -> no_surrogates (trim s).
Proof.
  intros H. unfold trim, no_surrogates.
  apply List.Forall_rev, trim_start_no_surrogates, List.Forall_rev.
  now apply trim_start_no_surrogates.
Qed.

Lemma take_code_points_no_surrogates n s :
  no_surrogates s -> Profile.take_code_points n s = take n s.
Proof.
  intros H. unfold Profile.take_code_points.
  rewrite code_points_no_surrogates by assumption.
  rewrite List.firstn_map. apply join_singletons.
Qed.

Lemma final_name_spec input clientId :
  Profile.final_name input clientId
  = if bool_decide (take 32 (trim input) = [])
    then Profile.user_prefix ++ take 6 clientId
    else take 32 (trim input).
Proof.
  unfold Profile.final_name, Profile.fallbackLabel, Profile.str_slice.
  rewrite !slice_prefix by lia.
  change (Z.to_nat 32) with 32%nat. change (Z.to_nat 6) with 6%nat.
  unfold str_length. destruct (take 32 (trim input)) as [|c t]; reflexivity.
Qed.

Lemma presence_get_set m id entry :
  Profile.presence_get (Profile.presence_set m id entry) id = Some entry.
Proof.
  induction m as [|[k v] m IH]; simpl.
  - unfold str_eqb. now rewrite bool_decide_eq_true_2.
  - destruct (str_eqb k id) eqn:Hk; simpl; rewrite Hk; [reflexivity | exact IH].
Qed.

Lemma matches_hex_color_spec c :
  Profile.matches_hex_color c = true <->
  exists d1 d2 d3 d4 d5 d6,
    c = [35; d1; d2; d3; d4; d5; d6]
    /\ forallb Profile.is_hex_digit [d1; d2; d3; d4; d5; d6] = true.
Proof.
  unfold Profile.matches_hex_color. split.
  - destruct c as [|h [|d1 [|d2 [|d3 [|d4 [|d5 [|d6 [|d7 r]]]]]]]];
      try discriminate;
      rewrite ?andb_true_iff; intros [[Hh Hlen] Hd]; try discriminate.
    apply Z.eqb_eq in Hh. subst h. eauto 10.
  - intros (d1 & d2 & d3 & d4 & d5 & d6 & -> & Hd). now rewrite Hd.
Qed.

(** C7, as the code has it.  A profile update trims the submitted label
    and cuts it to its first 32 UTF-16 code units, which are its first 32
    code points when the label has no surrogates; a label that is empty
    after trimming is replaced by the fallback label of the client.  The
    submitted colour is stored, put in the presence entry and sent as it
    is.  Where presence is shown, [resolvePresenceColor] keeps a colour
    of the form #RRGGBB and replaces any other, or a missing one, by the
    colour derived from the client id. *)
Theorem profile_submit_label_and_color
    (deriveClientColor : jsstring -> jsstring)
    (st : EditPage.t) (now now' : Z) :
  let r := Profile.handleProfileSubmit st now now' in
  let input := EditPage.profileNameInput st in
  let cut := take 32 (trim input) in
  EditPage.displayName r.1 = Profile.final_name input (EditPage.clientId st)
  /\ (cut <> [] -> EditPage.displayName r.1 = cut)
  /\ (cut = [] ->
      EditPage.displayName r.1
      = Profile.user_prefix ++ take 6 (EditPage.clientId st))
  /\ (no_surrogates input -> cut = Profile.take_code_points 32 (trim input))
  /\ EditPage.displayColor r.1 = EditPage.profileColorInput st
  /\ (exists entry,
        Profile.presence_get (EditPage.presence r.1) (EditPage.clientId st)
        = Some entry
        /\ label entry = Some (EditPage.displayName r.1)
        /\ color entry = Some (EditPage.profileColorInput st))
  /\ r.2 = match EditPage.ws st with
           | Some OPEN =>
               if EditPage.wsReady st
               then [Send (ProfileMsg (EditPage.slug st)
                             (EditPage.displayName r.1)
                             (EditPage.profileColorInput st))]
               else []
           | _ => []
           end
  /\ (forall c id, Profile.matches_hex_color c = true ->
        Profile.resolvePresenceColor deriveClientColor (Some c) id = c)
  /\ (forall c id, Profile.matches_hex_color c = false ->
        Profile.resolvePresenceColor deriveClientColor (Some c) id
        = deriveClientColor id)
  /\ (forall id,
        Profile.resolvePresenceColor deriveClientColor None id
        = deriveClientColor id).
Proof.
  intros r input cut.
  assert (Hname : EditPage.displayName r.1
                  = Profile.final_name input (EditPage.clientId st)).
  { unfold r, Profile.handleProfileSubmit, Profile.sendProfileUpdate.
    simpl. destruct (EditPage.ws st) as [[]|];
      try destruct (EditPage.wsReady st); reflexivity. }
  pose proof (final_name_spec input (EditPage.clientId st)) as Hspec.
  fold cut in Hspec.
  split; [exact Hname|].
  split; [intros Hcut; rewrite Hname, Hspec;
          now rewrite bool_decide_eq_false_2|].
  split; [intros Hcut; rewrite Hname, Hspec;
          now rewrite bool_decide_eq_true_2|].
  split.
  { intros Hns. unfold cut.
    now rewrite take_code_points_no_surrogates by now apply trim_no_surrogates. }
  split.
  { unfold r, Profile.handleProfileSubmit, Profile.sendProfileUpdate.
    simpl. destruct (EditPage.ws st) as [[]|];
      try destruct (EditPage.wsReady st); reflexivity. }
  split.
  { rewrite Hname. eexists. split.
    - unfold r, Profile.handleProfileSubmit, Profile.sendProfileUpdate.
      simpl. destruct (EditPage.ws st) as [[]|];
        try destruct (EditPage.wsReady st); simpl; apply presence_get_set.
    - split; reflexivity. }
  split.
  { rewrite Hname.
    unfold r, Profile.handleProfileSubmit, Profile.sendProfileUpdate.
    simpl. destruct (EditPage.ws st) as [[]|];
      try destruct (EditPage.wsReady st); reflexivity. }
  unfold Profile.resolvePresenceColor.
  split; [|split]; try reflexivity.
  - intros c id Hm. rewrite Hm. destruct c; [discriminate | reflexivity].
  - intros c id Hm. rewrite Hm. now rewrite andb_false_r.
Qed.

(* the label "  Alice " with the colour "red" *)
Lemma profile_submit_label_and_color_witness :
  let st := EditPage.set_inputs
              (EditPage.initial (js "doc") (js "c1") (js "me") (js "#336699"))
              (js "  Alice ") (js "red") in
  let r := Profile.handleProfileSubmit st 10 11 in
  EditPage.displayName r.1 = js "Alice"
  /\ EditPage.displayColor r.1 = js "red"
  /\ Profile.resolvePresenceColor (fun id => js "#000000")
       (Some (EditPage.displayColor r.1)) (js "c1") = js "#000000"
  /\ Profile.resolvePresenceColor (fun id => js "#000000")
       (Some (js "#A1b2C3")) (js "c1") = js "#A1b2C3".
Proof.
  intros st r.
  destruct (profile_submit_label_and_color (fun id => js "#000000") st 10 11)
    as (_ & Hcut & _ & _ & Hcolor & _ & _ & Hkeep & Hdrop & _).
  fold r in Hcut, Hcolor.
  split; [rewrite Hcut; [reflexivity | discriminate]|].
  split; [rewrite Hcolor; reflexivity|].
  split; [rewrite Hcolor; apply Hdrop; reflexivity | apply Hkeep; reflexivity].
Defined.

(** C7 as stated fails for labels with characters outside the basic
    plane: a label of 17 code points (17 times U+1F600) is within the 32
    code points, and the update cuts it to 16. *)
Lemma profile_label_counterexample :
  let input := concat (replicate 17 [55357; 56832]) in
  cp_length input = 17
  /\ Profile.take_code_points 32 (trim input) = input
  /\ Profile.final_name input (js "c1") = concat (replicate 16 [55357; 56832])
  /\ cp_length (Profile.final_name input (js "c1")) = 16
  /\ Profile.final_name input (js "c1")
     <> Profile.take_code_points 32 (trim input).
Proof.
  repeat split; try (vm_compute; reflexivity). vm_compute. discriminate.
Qed.

(** ** The heartbeat *)

Lemma after_close_rank rs : (2 <= Heartbeat.rank (Heartbeat.after_close rs))%nat.
Proof. destruct rs; simpl; lia. Qed.

(** Once the heartbeat has cancelled itself the socket is closing or
    closed: it cancels only together with [socket.close()], and a socket
    never opens again. *)
Lemma cancelled_not_open opts st :
  Heartbeat.reachable opts st ->
  Heartbeat.cancelled st = true ->
  (2 <= Heartbeat.rank (Heartbeat.readyState st))%nat.
Proof.
  induction 1
    as [rs|st now last ping_ts send_throws Hreach IH|st rs Hreach IH Hrank].
  - discriminate.
  - unfold Heartbeat.tick.
    destruct (Heartbeat.cancelled st
              || negb (bool_decide (Heartbeat.readyState st = OPEN)));
      [exact IH|].
    destruct (match Heartbeat.staleThresholdMs opts with
              | Some threshold =>
                  Heartbeat.getLastMessageAt opts && (threshold <? now - last)
              | None => false
              end);
      [intros _; apply after_close_rank|].
    destruct send_throws; [intros _; apply after_close_rank | exact IH].
  - simpl. intros Hc. specialize (IH Hc). lia.
Qed.

Lemma open_not_cancelled opts st :
  Heartbeat.reachable opts st ->
  Heartbeat.readyState st = OPEN ->
  Heartbeat.cancelled st = false.
Proof.
  intros Hreach Hopen. destruct (Heartbeat.cancelled st) eqn:Hc; [|reflexivity].
  pose proof (cancelled_not_open opts st Hreach Hc) as H.
  rewrite Hopen in H. simpl in H. lia.
Qed.

(** One call of the callback with the options of the edit page, at any
    state a run of the heartbeat reaches: it does nothing, and so sends
    nothing, when the socket is not open; when the socket is open and
    more than 30000 ms have passed since the last message, it closes the
    socket and calls the timeout callback, sending no ping; when the
    socket is open and the last message is at most 30000 ms old, it
    sends one ping frame (unless [send] itself raises, which closes the
    socket). *)
Lemma heartbeat_tick (st : Heartbeat.State) (now last ping_ts : Z)
    (send_throws : bool) :
  Heartbeat.reachable Heartbeat.editPageOptions st ->
  let opts := Heartbeat.editPageOptions in
  let r := Heartbeat.tick opts st now last ping_ts send_throws in
  Heartbeat.interval opts = 5000
  /\ Heartbeat.staleThresholdMs opts = Some 30000
  /\ (Heartbeat.readyState st <> OPEN -> r = (st, []))
  /\ (Heartbeat.readyState st = OPEN -> 30000 < now - last ->
      r.2 = [Heartbeat.SocketClose; Heartbeat.OnTimeout]
      /\ Heartbeat.sends r.2 = []
      /\ Heartbeat.readyState r.1 = CLOSING
      /\ Heartbeat.cancelled r.1 = true)
  /\ (Heartbeat.readyState st = OPEN -> now - last <= 30000 ->
      send_throws = false ->
      r = (st, [Heartbeat.SocketSend (PingMsg ping_ts)])
      /\ Heartbeat.sends r.2 = [PingMsg ping_ts])
  /\ (Heartbeat.sends r.2 <> [] -> Heartbeat.readyState st = OPEN).
Proof.
  intros Hreach opts r.
  split; [reflexivity|]. split; [reflexivity|].
  unfold r, Heartbeat.tick. simpl.
  destruct (decide (Heartbeat.readyState st = OPEN)) as [Hopen|Hclosed].
  - rewrite (open_not_cancelled _ _ Hreach Hopen).
    rewrite bool_decide_eq_true_2 by assumption. simpl.
    split; [intros Hne; contradiction|].
    destruct (Z.ltb_spec 30000 (now - last)) as [Hstale|Hfresh].
    + rewrite Hopen. simpl. repeat split; try reflexivity; intros; lia.
    + split; [intros _ Hlt; lia|].
      split; [|intros _; assumption].
      intros _ _ ->. split; reflexivity.
  - rewrite bool_decide_eq_false_2 by assumption.
    rewrite orb_true_r. simpl.
    split; [reflexivity|]. split; [intros; contradiction|].
    split; [intros; contradiction|]. intros H. contradiction.
Qed.

(** *** The heartbeat in time *)

Lemma fire_fresh (n : nat) (c : HeartbeatClock.Clock) :
  HeartbeatClock.run c = Heartbeat.start OPEN ->
  HeartbeatClock.next_fire c + 5000 * Z.of_nat n - 5000
    - HeartbeatClock.last c <= 30000 ->
  let r := HeartbeatClock.fire n Heartbeat.editPageOptions c in
  r.2 = map (fun i => HeartbeatClock.ping
                        (HeartbeatClock.next_fire c + 5000 * Z.of_nat i))
          (seq 0 n)
  /\ HeartbeatClock.next_fire r.1
     = HeartbeatClock.next_fire c + 5000 * Z.of_nat n
  /\ HeartbeatClock.last r.1 = HeartbeatClock.last c
  /\ HeartbeatClock.run r.1 = Heartbeat.start OPEN.
Proof.
  revert c. induction n as [|n IH]; intros c Hrun Hfresh.
  - simpl. repeat split; [lia | assumption].
  - cbn [HeartbeatClock.fire]. cbv zeta.
    assert (Htick : Heartbeat.tick Heartbeat.editPageOptions
                      (HeartbeatClock.run c) (HeartbeatClock.next_fire c)
                      (HeartbeatClock.last c) (HeartbeatClock.next_fire c) false
                    = (Heartbeat.start OPEN,
                       [HeartbeatClock.ping (HeartbeatClock.next_fire c)])).
    { rewrite Hrun. unfold Heartbeat.tick. simpl.
      destruct (Z.ltb_spec 30000
                  (HeartbeatClock.next_fire c - HeartbeatClock.last c));
        [lia | reflexivity]. }
    rewrite Htick. cbn [fst snd].
    set (c1 := {| HeartbeatClock.now := HeartbeatClock.next_fire c;
                  HeartbeatClock.next_fire :=
                    HeartbeatClock.next_fire c
                    + Heartbeat.interval Heartbeat.editPageOptions;
                  HeartbeatClock.last := HeartbeatClock.last c;
                  HeartbeatClock.run := Heartbeat.start OPEN |}).
    change (Heartbeat.interval Heartbeat.editPageOptions) with 5000 in c1.
    destruct (IH c1 eq_refl) as (Hacts & Hnext & Hlast & Hrun').
    { unfold c1. cbn [HeartbeatClock.next_fire HeartbeatClock.last]. lia. }
    rewrite Hacts, Hnext, Hlast, Hrun'. unfold c1.
    cbn [HeartbeatClock.next_fire HeartbeatClock.last app seq map].
    split; [|split; [lia | split; reflexivity]].
    f_equal; [f_equal; lia|].
    rewrite <- seq_shift, map_map. apply map_ext. intros i. f_equal. lia.
Qed.

Lemma fire_cancelled (n : nat) (opts : Heartbeat.Options)
    (c : HeartbeatClock.Clock) :
  Heartbeat.cancelled (HeartbeatClock.run c) = true ->
  (HeartbeatClock.fire n opts c).2 = [].
Proof.
  revert c. induction n as [|n IH]; intros c Hc; [reflexivity|].
  cbn [HeartbeatClock.fire]. cbv zeta. unfold Heartbeat.tick at 2.
  rewrite Hc. cbn [orb snd app]. apply IH.
  unfold Heartbeat.tick. now rewrite Hc.
Qed.

Lemma due_started (t0 : Z) (rs : ReadyState) (k : nat) :
  HeartbeatClock.due Heartbeat.editPageOptions
    (HeartbeatClock.started Heartbeat.editPageOptions t0 rs)
    (5000 * Z.of_nat k) = k.
Proof.
  unfold HeartbeatClock.due, HeartbeatClock.started.
  cbn [HeartbeatClock.now HeartbeatClock.next_fire].
  change (Heartbeat.interval Heartbeat.editPageOptions) with 5000.
  destruct (Z.leb_spec (t0 + 5000) (t0 + 5000 * Z.of_nat k)) as [Hle|Hgt];
    destruct k as [|k]; try lia; try reflexivity.
  f_equal.
  replace (t0 + 5000 * Z.of_nat (S k) - (t0 + 5000))
    with (Z.of_nat k * 5000) by lia.
  rewrite Z.div_mul by lia. lia.
Qed.

Lemma restless_silent (evs : list HeartbeatClock.Event)
    (c : HeartbeatClock.Clock) (since : Z) :
  HeartbeatClock.next_fire c = HeartbeatClock.now c + 5000 - since ->
  HeartbeatClock.restless 5000 since evs = true ->
  HeartbeatClock.actions Heartbeat.editPageOptions c evs = [].
Proof.
  revert c since. induction evs as [|ev evs IH]; intros c since Hnext Hq;
    [reflexivity|].
  cbn [HeartbeatClock.actions].
  destruct ev as [ms| |]; cbn [HeartbeatClock.restless] in Hq.
  - apply andb_true_iff in Hq as [Hq Hrest].
    apply andb_true_iff in Hq as [Hms Hlt].
    apply Z.leb_le in Hms. apply Z.ltb_lt in Hlt.
    assert (Hdue : HeartbeatClock.due Heartbeat.editPageOptions c ms = O).
    { unfold HeartbeatClock.due.
      destruct (Z.leb_spec (HeartbeatClock.next_fire c)
                  (HeartbeatClock.now c + ms)); [lia | reflexivity]. }
    cbn [HeartbeatClock.step]. cbv zeta. rewrite Hdue.
    cbn [HeartbeatClock.fire fst snd app].
    apply (IH _ (since + ms)); [cbn [HeartbeatClock.next_fire HeartbeatClock.now]; change (Heartbeat.interval Heartbeat.editPageOptions) with 5000; lia | assumption].
  - cbn [HeartbeatClock.step fst snd app].
    apply (IH _ since); [cbn [HeartbeatClock.next_fire HeartbeatClock.now]; change (Heartbeat.interval Heartbeat.editPageOptions) with 5000; lia | assumption].
  - cbn [HeartbeatClock.step fst snd app].
    apply (IH _ 0); [cbn [HeartbeatClock.next_fire HeartbeatClock.now]; change (Heartbeat.interval Heartbeat.editPageOptions) with 5000; lia | assumption].
Qed.

(** On a socket that is not open the callback does nothing, whatever
    happens. *)
Lemma fire_not_open (n : nat) (opts : Heartbeat.Options)
    (c : HeartbeatClock.Clock) :
  Heartbeat.readyState (HeartbeatClock.run c) <> OPEN ->
  (HeartbeatClock.fire n opts c).2 = []
  /\ HeartbeatClock.run (HeartbeatClock.fire n opts c).1 = HeartbeatClock.run c.
Proof.
  revert c. induction n as [|n IH]; intros c Hc; [split; reflexivity|].
  cbn [HeartbeatClock.fire]. cbv zeta.
  assert (Htick : forall t t',
             Heartbeat.tick opts (HeartbeatClock.run c) t
               (HeartbeatClock.last c) t' false
             = (HeartbeatClock.run c, [])).
  { intros t t'. unfold Heartbeat.tick.
    rewrite bool_decide_eq_false_2 by assumption.
    now rewrite orb_true_r. }
  rewrite Htick. cbn [fst snd app].
  destruct (IH {| HeartbeatClock.now := HeartbeatClock.next_fire c;
                  HeartbeatClock.next_fire :=
                    HeartbeatClock.next_fire c + Heartbeat.interval opts;
                  HeartbeatClock.last := HeartbeatClock.last c;
                  HeartbeatClock.run := HeartbeatClock.run c |} Hc)
    as [Hacts Hrun].
  split; assumption.
Qed.

Lemma actions_not_open (evs : list HeartbeatClock.Event)
    (opts : Heartbeat.Options) (c : HeartbeatClock.Clock) :
  Heartbeat.readyState (HeartbeatClock.run c) <> OPEN ->
  HeartbeatClock.actions opts c evs = [].
Proof.
  revert c. induction evs as [|ev evs IH]; intros c Hc; [reflexivity|].
  cbn [HeartbeatClock.actions].
  destruct ev as [ms| |]; cbn [HeartbeatClock.step fst snd app]; cbv zeta.
  - destruct (fire_not_open (HeartbeatClock.due opts c ms) opts c Hc)
      as [Hacts Hrun].
    rewrite Hacts. cbn [app]. apply IH.
    cbn [HeartbeatClock.run]. now rewrite Hrun.
  - now apply IH.
  - now apply IH.
Qed.

(** C9.  The claim holds of a run of the heartbeat that is left alone.
    On the edit page, from the moment the effect has run on an open
    socket with a message just received: within [5000 * k] ms, for [k]
    up to 6, the heartbeat sends [k] pings, one at the end of each
    period of 5000 ms; with no message in between, the tick at 35000 ms
    closes the socket and calls the timeout callback instead of sending
    a ping, and nothing follows.  It does not hold of the page: the
    edit page hands the hook a new [onTimeout] function at every render,
    so that every render restarts the timer, and as long as the page
    renders again before 5000 ms have passed since the render before,
    the callback never runs: no ping is sent and a silent connection is
    not noticed, however long this goes on.  A page on which a frame
    arrives every 4000 ms sends no ping in 60 s, where the claim has
    twelve.  On a socket that is not open the heartbeat sends nothing,
    and does nothing else, whatever happens. *)
Theorem heartbeat_starved_by_renders (t0 : Z) (k : nat)
    (evs : list HeartbeatClock.Event) :
  let opts := Heartbeat.editPageOptions in
  let c0 := HeartbeatClock.started opts t0 OPEN in
  ((k <= 6)%nat ->
     HeartbeatClock.actions opts c0 [HeartbeatClock.Elapse (5000 * Z.of_nat k)]
     = map (fun i => HeartbeatClock.ping (t0 + 5000 * Z.of_nat i)) (seq 1 k))
  /\ HeartbeatClock.actions opts c0
       [HeartbeatClock.Elapse 35000; HeartbeatClock.Elapse 25000]
     = map (fun i => HeartbeatClock.ping (t0 + 5000 * Z.of_nat i)) (seq 1 6)
       ++ [Heartbeat.SocketClose; Heartbeat.OnTimeout]
  /\ (HeartbeatClock.restless 5000 0 evs = true ->
      HeartbeatClock.actions opts c0 evs = [])
  /\ HeartbeatClock.actions opts c0 (HeartbeatClock.busy 4000 15) = []
  /\ (forall rs, rs <> OPEN ->
      HeartbeatClock.actions opts (HeartbeatClock.started opts t0 rs) evs
      = []).
Proof.
  intros opts c0. subst c0 opts.
  set (opts := Heartbeat.editPageOptions).
  set (c0 := HeartbeatClock.started opts t0 OPEN).
  assert (Hnext0 : HeartbeatClock.next_fire c0 = t0 + 5000) by reflexivity.
  assert (Hnow0 : HeartbeatClock.now c0 = t0) by reflexivity.
  assert (Hlast0 : HeartbeatClock.last c0 = t0) by reflexivity.
  assert (Hk : forall n : nat, (n <= 6)%nat ->
            (HeartbeatClock.fire n opts c0).2
            = map (fun i => HeartbeatClock.ping (t0 + 5000 * Z.of_nat i))
                (seq 1 n)).
  { intros n Hn.
    destruct (fire_fresh n c0 eq_refl) as (Hacts & _).
    { rewrite Hnext0, Hlast0. lia. }
    fold opts in Hacts. rewrite Hacts, Hnext0.
    rewrite <- seq_shift, map_map. apply map_ext. intros i.
    f_equal. lia. }
  split; [|split; [|split; [|split]]].
  - intros Hle. cbn [HeartbeatClock.actions HeartbeatClock.step]. cbv zeta.
    replace (HeartbeatClock.due opts c0 (5000 * Z.of_nat k)) with k
      by (symmetry; exact (due_started t0 OPEN k)).
    cbn [snd]. rewrite app_nil_r. exact (Hk k Hle).
  - cbn [HeartbeatClock.actions HeartbeatClock.step]. cbv zeta.
    replace (HeartbeatClock.due opts c0 35000) with 7%nat
      by (symmetry; exact (due_started t0 OPEN 7)).
    assert (H7 : HeartbeatClock.fire 7 opts c0
                 = ({| HeartbeatClock.now := t0 + 35000;
                       HeartbeatClock.next_fire := t0 + 40000;
                       HeartbeatClock.last := t0;
                       HeartbeatClock.run :=
                         {| Heartbeat.cancelled := true;
                            Heartbeat.readyState := CLOSING |} |},
                    map (fun i => HeartbeatClock.ping (t0 + 5000 * Z.of_nat i))
                      (seq 1 6)
                    ++ [Heartbeat.SocketClose; Heartbeat.OnTimeout])).
    { change 7%nat with (6 + 1)%nat.
      destruct (fire_fresh 6 c0 eq_refl) as (Hacts & Hnext & Hlast & Hrun).
      { rewrite Hnext0, Hlast0. lia. }
      fold opts in Hacts, Hnext, Hlast, Hrun.
      assert (Hsplit : forall n m c,
                HeartbeatClock.fire (n + m) opts c
                = ((HeartbeatClock.fire m opts (HeartbeatClock.fire n opts c).1).1,
                   (HeartbeatClock.fire n opts c).2
                   ++ (HeartbeatClock.fire m opts
                         (HeartbeatClock.fire n opts c).1).2)).
      { induction n as [|n IHn]; intros m c.
        - simpl. now destruct (HeartbeatClock.fire m opts c).
        - cbn [Nat.add HeartbeatClock.fire]. cbv zeta. rewrite IHn.
          cbn [fst snd]. now rewrite app_assoc. }
      rewrite Hsplit, Hacts, Hnext0.
      destruct (HeartbeatClock.fire 6 opts c0) as [c6 acts6].
      cbn [fst snd] in *. cbn [HeartbeatClock.fire]. cbv zeta.
      rewrite Hrun, Hnext, Hlast, Hnext0, Hlast0.
      unfold Heartbeat.tick.
      cbn [Heartbeat.cancelled Heartbeat.readyState Heartbeat.start orb negb
           Heartbeat.staleThresholdMs Heartbeat.getLastMessageAt opts
           Heartbeat.editPageOptions andb].
      rewrite bool_decide_eq_true_2 by reflexivity. cbn [negb].
      destruct (Z.ltb_spec 30000 (t0 + 5000 + 5000 * Z.of_nat 6 - t0));
        [|lia].
      cbn [fst snd app Heartbeat.after_close Heartbeat.timeout_actions
           Heartbeat.onTimeout].
      change (Heartbeat.interval opts) with 5000.
      change (Heartbeat.timeout_actions opts) with [Heartbeat.OnTimeout].
      f_equal.
      - f_equal; lia.
      - cbn [app]. f_equal.
        rewrite <- seq_shift, map_map. apply map_ext. intros i.
        f_equal. lia. }
    rewrite H7. cbn [fst snd HeartbeatClock.next_fire HeartbeatClock.last
                     HeartbeatClock.run HeartbeatClock.now].
    rewrite Hnow0.
    replace (HeartbeatClock.due opts _ 25000) with 5%nat.
    + rewrite fire_cancelled by reflexivity. now rewrite !app_nil_r.
    + symmetry. unfold HeartbeatClock.due.
      cbn [HeartbeatClock.next_fire HeartbeatClock.now].
      destruct (Z.leb_spec (t0 + 40000) (t0 + 35000 + 25000)); [|lia].
      f_equal.
      replace (t0 + 35000 + 25000 - (t0 + 40000)) with (4 * 5000) by lia.
      change (Heartbeat.interval opts) with 5000.
      now rewrite Z.div_mul by lia.
  - intros Hq. apply (restless_silent evs c0 0); [|assumption].
    rewrite Hnext0, Hnow0. lia.
  - apply (restless_silent _ c0 0); [rewrite Hnext0, Hnow0; lia | reflexivity].
  - intros rs Hrs. now apply actions_not_open.
Qed.

(** ** The pending queue on the heap *)

Section HeapReads.
Import Heap.

Lemma read_each_mono {A} (rd rd' : loc -> option A) ls vs :
  (forall l v, rd l = Some v -> rd' l = Some v) ->
  read_each rd ls = Some vs -> read_each rd' ls = Some vs.
Proof.
  intros Hrd. revert vs. induction ls as [|l ls IH]; intros vs H; simpl in *.
  - assumption.
  - destruct (rd l) as [v|] eqn:Hl; [|discriminate].
    destruct (read_each rd ls) as [vs'|] eqn:Hls; [|discriminate].
    rewrite (Hrd _ _ Hl), (IH _ eq_refl). assumption.
Qed.

Variables region region' : loc -> bool.
Variables h h' : heap.
Hypothesis Hcovers : covers region region' h.
Hypothesis Hagrees : agrees region h h'.

Lemma read_op_mono l op :
  read_op region h l = Some op -> read_op region' h' l = Some op.
Proof.
  unfold read_op. destruct (region l) eqn:Hr; [|discriminate].
  destruct (h !! l) as [c|] eqn:Hl; [|discriminate].
  rewrite (Hcovers _ _ Hr Hl), (Hagrees _ _ Hl (or_introl Hr)). trivial.
Qed.

Lemma read_ops_mono arr ops1 :
  read_ops region h arr = Some ops1 -> read_ops region' h' arr = Some ops1.
Proof.
  unfold read_ops. destruct (region arr) eqn:Hr; [|discriminate].
  destruct (h !! arr) as [c|] eqn:Hl; [|discriminate].
  rewrite (Hcovers _ _ Hr Hl), (Hagrees _ _ Hl (or_introl Hr)).
  destruct c; try discriminate.
  apply read_each_mono. apply read_op_mono.
Qed.

Lemma read_cursor_mono ol c :
  read_cursor h ol = Some c -> read_cursor h' ol = Some c.
Proof.
  unfold read_cursor. destruct ol as [l|]; [|trivial].
  destruct (h !! l) as [cell|] eqn:Hl; [|discriminate].
  destruct cell as [| | |cu]; try discriminate.
  rewrite (Hagrees _ _ Hl); eauto.
Qed.

Lemma read_item_mono l e :
  read_item region h l = Some e -> read_item region' h' l = Some e.
Proof.
  unfold read_item. destruct (region l) eqn:Hr; [|discriminate].
  destruct (h !! l) as [c|] eqn:Hl; [|discriminate].
  rewrite (Hcovers _ _ Hr Hl), (Hagrees _ _ Hl (or_introl Hr)).
  destruct c as [| |item|]; try discriminate.
  destruct (read_ops region h (o_ops item)) as [ops1|] eqn:Hops;
    [|discriminate].
  destruct (read_cursor h (o_cursor_before item)) as [cb|] eqn:Hcb;
    [|discriminate].
  destruct (read_cursor h (o_cursor_after item)) as [ca|] eqn:Hca;
    [|discriminate].
  rewrite (read_ops_mono _ _ Hops), (read_cursor_mono _ _ Hcb),
    (read_cursor_mono _ _ Hca). trivial.
Qed.

Lemma read_items_mono arr items :
  read_items region h arr = Some items ->
  read_items region' h' arr = Some items.
Proof.
  unfold read_items. destruct (region arr) eqn:Hr; [|discriminate].
  destruct (h !! arr) as [c|] eqn:Hl; [|discriminate].
  rewrite (Hcovers _ _ Hr Hl), (Hagrees _ _ Hl (or_introl Hr)).
  destruct c; try discriminate.
  apply read_each_mono. apply read_item_mono.
Qed.

Lemma read_queue_mono pq v :
  read_queue region h pq = Some v -> read_queue region' h' pq = Some v.
Proof.
  unfold read_queue.
  destruct (read_items region h (q pq)) as [items|] eqn:Hi; [|discriminate].
  now rewrite (read_items_mono _ _ Hi).
Qed.

Lemma read_snapshot_mono s v :
  read_snapshot region h s = Some v -> read_snapshot region' h' s = Some v.
Proof.
  unfold read_snapshot. destruct (s_items s) as [arr|]; [|trivial].
  destruct (read_items region h arr) as [items|] eqn:Hi; [|discriminate].
  now rewrite (read_items_mono _ _ Hi).
Qed.

End HeapReads.

Section HeapCopies.
Import Heap.

Lemma covers_refl region h : covers region region h.
Proof. intros l c Hr _. exact Hr. Qed.

Lemma covers_from n m h : (n <= m)%nat -> covers (from m) (from n) h.
Proof.
  intros Hle l c Hr _. unfold from in *.
  apply Nat.leb_le in Hr. apply Nat.leb_le. lia.
Qed.

Lemma covers_everywhere region h : covers region everywhere h.
Proof. intros l c _ _. reflexivity. Qed.

Lemma covers_between n h : covers (from n) (between n (length h)) h.
Proof.
  intros l c Hr Hl. unfold from, between in *.
  apply lookup_lt_Some in Hl. apply andb_true_iff. split; [assumption|].
  apply Nat.ltb_lt. assumption.
Qed.

Lemma agrees_prefix region h h' : h `prefix_of` h' -> agrees region h h'.
Proof.
  intros [ext ->] l c Hl _. now apply lookup_app_l_Some.
Qed.

Lemma agrees_preserves region h h' : preserves region h h' -> agrees region h h'.
Proof.
  intros Hp l c Hl [Hr|[cu ->]].
  - rewrite Hp; [assumption | now left].
  - rewrite Hp; [assumption | right; now exists cu].
Qed.

Lemma lookup_alloc h c : (alloc h c).1 !! (alloc h c).2 = Some c.
Proof. unfold alloc. simpl. apply list_lookup_middle. reflexivity. Qed.

Lemma alloc_prefix h c : h `prefix_of` (alloc h c).1.
Proof. now exists [c]. Qed.

Lemma copy_each_spec {A} copy (rd : (loc -> bool) -> heap -> loc -> option A) :
  copies copy rd -> monotone rd ->
  forall ls h vs,
    read_each (rd everywhere h) ls = Some vs ->
    exists h1 ls1,
      copy_each copy h ls = Some (h1, ls1)
      /\ h `prefix_of` h1
      /\ read_each (rd (from (length h)) h1) ls1 = Some vs.
Proof.
  intros Hcopy Hmono. induction ls as [|l ls IH]; intros h vs Hread.
  - simpl in *. exists h, []. split; [reflexivity|]. split; [reflexivity|].
    assumption.
  - simpl in Hread.
    destruct (rd everywhere h l) as [v|] eqn:Hl; [|discriminate].
    destruct (read_each (rd everywhere h) ls) as [vs'|] eqn:Hls;
      [|discriminate].
    injection Hread as <-.
    destruct (Hcopy h l v Hl) as (h1 & l1 & Hc1 & Hp1 & Hr1).
    assert (Hls1 : read_each (rd everywhere h1) ls = Some vs').
    { apply (read_each_mono (rd everywhere h)); [|assumption].
      intros l' v'. apply Hmono; [apply covers_refl | now apply agrees_prefix]. }
    destruct (IH h1 vs' Hls1) as (h2 & ls2 & Hc2 & Hp2 & Hr2).
    exists h2, (l1 :: ls2). simpl. rewrite Hc1, Hc2.
    split; [reflexivity|]. split; [now transitivity h1|].
    rewrite (Hmono _ (from (length h)) h1 h2 l1 v (covers_refl _ _)
               (agrees_prefix _ _ _ Hp2) Hr1).
    rewrite (read_each_mono (rd (from (length h1)) h2)
               (rd (from (length h)) h2) ls2 vs'); [reflexivity| |assumption].
    intros l' v'. apply Hmono.
    + apply covers_from. now apply prefix_length.
    + intros l0 c0 H0 _. exact H0.
Qed.

Lemma read_op_monotone : monotone read_op.
Proof. intros g g' h h' l v Hc Ha. now apply read_op_mono. Qed.

Lemma read_item_monotone : monotone read_item.
Proof. intros g g' h h' l v Hc Ha. now apply read_item_mono. Qed.

Lemma copy_op_spec : copies copy_op read_op.
Proof.
  intros h l op Hread. unfold read_op in Hread. simpl in Hread.
  destruct (h !! l) as [c|] eqn:Hl; [|discriminate].
  destruct c as [op'| | |]; try discriminate. injection Hread as ->.
  exists (alloc h (COp op)).1, (alloc h (COp op)).2.
  unfold copy_op. rewrite Hl. split; [reflexivity|].
  split; [apply alloc_prefix|].
  unfold read_op. rewrite lookup_alloc. simpl. unfold from.
  now rewrite Nat.leb_refl.
Qed.

Lemma copy_ops_spec : copies copy_ops read_ops.
Proof.
  intros h arr ops1 Hread. unfold read_ops in Hread. simpl in Hread.
  destruct (h !! arr) as [c|] eqn:Hl; [|discriminate].
  destruct c as [|ls| |]; try discriminate.
  destruct (copy_each_spec copy_op read_op copy_op_spec read_op_monotone
              ls h ops1 Hread) as (h1 & ls1 & Hc & Hp & Hr).
  exists (alloc h1 (CArr ls1)).1, (alloc h1 (CArr ls1)).2.
  unfold copy_ops. rewrite Hl, Hc. split; [reflexivity|].
  split; [transitivity h1; [assumption | apply alloc_prefix]|].
  unfold read_ops. rewrite lookup_alloc. simpl. unfold from at 1.
  apply prefix_length in Hp as Hlen.
  replace (length h <=? length h1)%nat with true
    by (symmetry; now apply Nat.leb_le).
  apply (read_each_mono (read_op (from (length h)) h1)); [|assumption].
  intros l v. apply read_op_mono;
    [apply covers_refl | apply agrees_prefix, alloc_prefix].
Qed.

Lemma copy_item_spec : copies copy_item read_item.
Proof.
  intros h l e Hread. unfold read_item in Hread. simpl in Hread.
  destruct (h !! l) as [c|] eqn:Hl; [|discriminate].
  destruct c as [| |item|]; try discriminate.
  destruct (read_ops everywhere h (o_ops item)) as [ops1|] eqn:Hops;
    [|discriminate].
  destruct (read_cursor h (o_cursor_before item)) as [cb|] eqn:Hcb;
    [|discriminate].
  destruct (read_cursor h (o_cursor_after item)) as [ca|] eqn:Hca;
    [|discriminate].
  injection Hread as <-.
  destruct (copy_ops_spec h (o_ops item) ops1 Hops)
    as (h1 & arr1 & Hc & Hp & Hr).
  set (item1 := {| o_op_id := o_op_id item; o_base_rev := o_base_rev item;
                   o_ops := arr1;
                   o_cursor_before := o_cursor_before item;
                   o_cursor_after := o_cursor_after item;
                   o_ts := o_ts item |}).
  exists (alloc h1 (CItem item1)).1, (alloc h1 (CItem item1)).2.
  unfold copy_item. rewrite Hl, Hc. split; [reflexivity|].
  split; [transitivity h1; [assumption | apply alloc_prefix]|].
  unfold read_item. rewrite lookup_alloc. simpl. unfold from at 1.
  apply prefix_length in Hp as Hlen.
  replace (length h <=? length h1)%nat with true
    by (symmetry; now apply Nat.leb_le).
  assert (Hext : agrees everywhere h (h1 ++ [CItem item1])).
  { apply agrees_prefix. transitivity h1; [assumption | apply alloc_prefix]. }
  rewrite (read_ops_mono (from (length h)) (from (length h)) h1
             (h1 ++ [CItem item1]) (covers_refl _ _)
             (agrees_prefix _ _ _ (alloc_prefix h1 (CItem item1)))
             arr1 ops1 Hr).
  rewrite (read_cursor_mono everywhere h _ Hext _ _ Hcb).
  rewrite (read_cursor_mono everywhere h _ Hext _ _ Hca).
  reflexivity.
Qed.

Lemma copy_items_spec : copies copy_items read_items.
Proof.
  intros h arr items Hread. unfold read_items in Hread. simpl in Hread.
  destruct (h !! arr) as [c|] eqn:Hl; [|discriminate].
  destruct c as [|ls| |]; try discriminate.
  destruct (copy_each_spec copy_item read_item copy_item_spec
              read_item_monotone ls h items Hread)
    as (h1 & ls1 & Hc & Hp & Hr).
  exists (alloc h1 (CArr ls1)).1, (alloc h1 (CArr ls1)).2.
  unfold copy_items. rewrite Hl, Hc. split; [reflexivity|].
  split; [transitivity h1; [assumption | apply alloc_prefix]|].
  unfold read_items. rewrite lookup_alloc. simpl. unfold from at 1.
  apply prefix_length in Hp as Hlen.
  replace (length h <=? length h1)%nat with true
    by (symmetry; now apply Nat.leb_le).
  apply (read_each_mono (read_item (from (length h)) h1)); [|assumption].
  intros l v. apply read_item_mono;
    [apply covers_refl | apply agrees_prefix, alloc_prefix].
Qed.

End HeapCopies.

Section HeapQueue.
Import Heap.

Lemma copy_op_id op : PendingQueue.copy_op op = op.
Proof. now destruct op. Qed.

Lemma copy_edit_id e : PendingQueue.copy_edit e = e.
Proof.
  destruct e as [id br os cb ca t]. unfold PendingQueue.copy_edit. simpl.
  f_equal. induction os as [|o os IH]; simpl; [reflexivity|].
  now rewrite copy_op_id, IH.
Qed.

Lemma map_copy_edit l : map PendingQueue.copy_edit l = l.
Proof.
  induction l as [|e l IH]; simpl; [reflexivity|].
  now rewrite copy_edit_id, IH.
Qed.

(** On values, [replace(snapshot())] is the identity. *)
Lemma replace_snapshot_value v :
  PendingQueue.replace v (PendingQueue.Snap (PendingQueue.snapshot v)) = v.
Proof.
  destruct v as [items latest]. unfold PendingQueue.replace,
    PendingQueue.snapshot. simpl. now rewrite !map_copy_edit.
Qed.

Lemma snapshot_value_eq v : snapshot_value v = PendingQueue.snapshot v.
Proof.
  unfold snapshot_value, PendingQueue.snapshot. now rewrite map_copy_edit.
Qed.

Lemma snapshot_spec h pq v :
  read_queue everywhere h pq = Some v ->
  exists h1 s,
    snapshot h pq = Some (h1, s)
    /\ h `prefix_of` h1
    /\ read_snapshot (from (length h)) h1 s = Some (snapshot_value v).
Proof.
  unfold read_queue. intros Hread.
  destruct (read_items everywhere h (q pq)) as [items|] eqn:Hi;
    [|discriminate].
  injection Hread as <-.
  destruct (copy_items_spec h (q pq) items Hi) as (h1 & arr & Hc & Hp & Hr).
  exists h1, {| s_latestAck := Some (latestAck pq); s_items := Some arr |}.
  unfold snapshot. rewrite Hc. split; [reflexivity|]. split; [assumption|].
  unfold read_snapshot, snapshot_value. simpl. now rewrite Hr.
Qed.

Lemma replace_spec h pq s sv :
  read_snapshot everywhere h s = Some sv ->
  exists h1 pq1,
    replace h pq (Snap s) = Some (h1, pq1)
    /\ h `prefix_of` h1
    /\ read_queue (from (length h)) h1 pq1
       = Some {| PendingQueue.q := default [] (snap_items sv);
                 PendingQueue.latestAck := default 0 (snap_latestAck sv) |}.
Proof.
  unfold read_snapshot, replace. intros Hread.
  destruct (s_items s) as [arr|] eqn:Hs.
  - destruct (read_items everywhere h arr) as [items|] eqn:Hi;
      [|discriminate].
    injection Hread as <-. simpl.
    destruct (copy_items_spec h arr items Hi) as (h1 & arr1 & Hc & Hp & Hr).
    rewrite Hc. eexists _, _. split; [reflexivity|]. split; [assumption|].
    unfold read_queue. simpl. now rewrite Hr.
  - injection Hread as <-. simpl.
    assert (Hi : read_items everywhere (h ++ [CArr []]) (length h) = Some []).
    { assert (Hm : (h ++ [CArr []]) !! length h = Some (CArr []))
        by (apply list_lookup_middle; reflexivity).
      unfold read_items, everywhere. now setoid_rewrite Hm. }
    destruct (copy_items_spec _ _ _ Hi) as (h1 & arr1 & Hc & Hp & Hr).
    rewrite Hc. eexists _, _. split; [reflexivity|].
    split; [transitivity (h ++ [CArr []]); [now exists [CArr []] | assumption]|].
    unfold read_queue. simpl.
    rewrite (read_items_mono (from (length (h ++ [CArr []])))
               (from (length h)) h1 h1) with (items := []).
    + reflexivity.
    + apply covers_from. rewrite length_app. simpl. lia.
    + intros l c Hl _. exact Hl.
    + assumption.
Qed.

(** A heap that keeps the cells a snapshot allocated, and the cursor
    objects, reads the snapshot as before. *)
Lemma read_snapshot_preserved n h1 h' s sv :
  read_snapshot (from n) h1 s = Some sv ->
  preserves (between n (length h1)) h1 h' ->
  read_snapshot everywhere h' s = Some sv.
Proof.
  intros Hread Hp.
  apply (read_snapshot_mono (from n) everywhere h1 h'); [| |assumption].
  - apply covers_everywhere.
  - intros l c Hl [Hr|[cu ->]].
    + rewrite Hp; [assumption|]. left. now apply (covers_between n h1 l c).
    + rewrite Hp; [assumption|]. right. now exists cu.
Qed.

Lemma preserves_refl region h : preserves region h h.
Proof. intros l _. reflexivity. Qed.

Lemma preserves_write n h1 l c :
  (l < n)%nat -> ~ is_cursor h1 l ->
  preserves (between n (length h1)) h1 (<[l := c]> h1).
Proof.
  intros Hlt Hnc l' [Hr|Hcur].
  - apply list_lookup_insert_ne. unfold between in Hr.
    apply andb_true_iff in Hr as [Hr _]. apply Nat.leb_le in Hr. lia.
  - apply list_lookup_insert_ne. intros ->. contradiction.
Qed.

Lemma preserves_grow n h1 ext :
  preserves (between n (length h1)) h1 (h1 ++ ext).
Proof.
  intros l [Hr|[cu Hcur]].
  - apply lookup_app_l. unfold between in Hr.
    apply andb_true_iff in Hr as [_ Hr]. now apply Nat.ltb_lt in Hr.
  - apply lookup_app_l. now apply lookup_lt_Some in Hcur.
Qed.

Lemma read_queue_array h pq v :
  read_queue everywhere h pq = Some v ->
  exists ls, h !! q pq = Some (CArr ls).
Proof.
  unfold read_queue, read_items. simpl.
  destruct (h !! q pq) as [[| ls | |]|]; try discriminate. eauto.
Qed.

Lemma copy_each_grows copy :
  grows copy ->
  forall ls h h1 ls1, copy_each copy h ls = Some (h1, ls1) -> h `prefix_of` h1.
Proof.
  intros Hcopy. induction ls as [|l ls IH]; intros h h1 ls1 H; simpl in H.
  - injection H as <- <-. reflexivity.
  - destruct (copy h l) as [[h0 l0]|] eqn:Hc; [|discriminate].
    destruct (copy_each copy h0 ls) as [[h2 ls2]|] eqn:Hcs; [|discriminate].
    injection H as <- <-. transitivity h0.
    + now apply (Hcopy h l h0 l0).
    + now apply (IH h0 h2 ls2).
Qed.

Lemma alloc_grows h0 h c h1 l1 :
  h0 `prefix_of` h -> alloc h c = (h1, l1) ->
  h0 `prefix_of` h1 /\ (length h0 <= l1)%nat.
Proof.
  unfold alloc. intros Hp [= <- <-]. split.
  - transitivity h; [assumption | now exists [c]].
  - now apply prefix_length.
Qed.

Lemma copy_op_grows : grows copy_op.
Proof.
  intros h l h1 l1. unfold copy_op.
  destruct (h !! l) as [[op| | |]|]; try discriminate.
  intros H. apply (alloc_grows h h (COp op)); [reflexivity | congruence].
Qed.

Lemma copy_ops_grows : grows copy_ops.
Proof.
  intros h l h1 l1. unfold copy_ops.
  destruct (h !! l) as [[|ls| |]|]; try discriminate.
  destruct (copy_each copy_op h ls) as [[h0 ls0]|] eqn:Hc; [|discriminate].
  intros H. apply (alloc_grows h h0 (CArr ls0)); [|congruence].
  now apply (copy_each_grows copy_op copy_op_grows ls h h0 ls0).
Qed.

Lemma copy_item_grows : grows copy_item.
Proof.
  intros h l h1 l1. unfold copy_item.
  destruct (h !! l) as [[| |item|]|]; try discriminate.
  destruct (copy_ops h (o_ops item)) as [[h0 arr0]|] eqn:Hc; [|discriminate].
  intros H. injection H as <- <-.
  destruct (copy_ops_grows _ _ _ _ Hc) as [Hpre _]. split.
  - transitivity h0; [assumption | now eexists].
  - now apply prefix_length.
Qed.

Lemma copy_items_grows : grows copy_items.
Proof.
  intros h l h1 l1. unfold copy_items.
  destruct (h !! l) as [[|ls| |]|]; try discriminate.
  destruct (copy_each copy_item h ls) as [[h0 ls0]|] eqn:Hc; [|discriminate].
  intros H. apply (alloc_grows h h0 (CArr ls0)); [|congruence].
  now apply (copy_each_grows copy_item copy_item_grows ls h h0 ls0).
Qed.

Section Untouched.
Variables (n : nat) (h1 : heap).

Lemma preserved_is_allocated h' l :
  preserves (between n (length h1)) h1 h' -> between n (length h1) l = true \/ is_cursor h1 l ->
  (l < length h')%nat.
Proof.
  intros Hp Hl.
  assert (Hsome : is_Some (h1 !! l)).
  { destruct Hl as [Hr|[cu Hcu]]; [|eauto].
    apply lookup_lt_is_Some. unfold between in Hr.
    apply andb_true_iff in Hr as [_ Hr]. now apply Nat.ltb_lt in Hr. }
  rewrite <- (Hp l Hl) in Hsome. now apply lookup_lt_is_Some.
Qed.

Lemma preserves_extend h' h'' :
  preserves (between n (length h1)) h1 h' -> h' `prefix_of` h'' -> preserves (between n (length h1)) h1 h''.
Proof.
  intros Hp [ext ->] l Hl. rewrite <- (Hp l Hl).
  apply lookup_app_l. now apply (preserved_is_allocated h' l).
Qed.

Lemma new_cell_outside h' l :
  preserves (between n (length h1)) h1 h' -> (length h' <= l)%nat -> between n (length h1) l = false.
Proof.
  intros Hp Hle. destruct (between n (length h1) l) eqn:Hr; [|reflexivity].
  pose proof (preserved_is_allocated h' l Hp (or_introl Hr)). lia.
Qed.

Lemma untouched_grow st h'' pq'' :
  untouched n (length h1) h1 st ->
  st.1 `prefix_of` h'' -> (length st.1 <= q pq'')%nat ->
  untouched n (length h1) h1 (h'', pq'').
Proof.
  intros [Hp Hq] Hpre Hle. split; simpl.
  - now apply (preserves_extend st.1).
  - now apply (new_cell_outside st.1).
Qed.

Lemma call_untouched c st st' :
  untouched n (length h1) h1 st -> call c st = Some st' ->
  untouched n (length h1) h1 st'.
Proof.
  intros Hu Hcall. pose proof Hu as [Hp Hq].
  destruct st as [h' pq']. simpl in Hp, Hq.
  destruct c as [edit|opId serverSeq|seq|arg]; simpl in Hcall.
  - (* enqueue: a push on the array of the queue *)
    unfold enqueue in Hcall.
    destruct (h' !! q pq') as [[|ls| |]|] eqn:Hcell; try discriminate.
    injection Hcall as <-. split; simpl; [|assumption].
    intros l Hl. rewrite <- (Hp l Hl). apply list_lookup_insert_ne.
    intros <-. destruct Hl as [Hr|[cu Hcu]].
    + congruence.
    + assert (Hc : h' !! q pq' = Some (CCursor cu))
        by (rewrite (Hp (q pq')); [assumption | right; now exists cu]).
      congruence.
  - (* ack: a new array, or none *)
    injection Hcall as <-. unfold ack.
    destruct opId as [id|];
      [destruct (h' !! q pq') as [[|ls| |]|]; [| destruct (truthy id) | |
                                               |]|];
      try (split; simpl; assumption).
    apply (untouched_grow (h', pq')); simpl;
      [assumption | now exists [CArr (filter (fun l => item_op_id h' l
                                                     <> Some id) ls)]
      | lia].
  - (* setLatestServerSeq *)
    injection Hcall as <-. unfold setLatestServerSeq.
    destruct (latestAck pq' <? seq); split; simpl; assumption.
  - (* replace: new arrays and copies *)
    destruct arg as [|arr|s]; simpl in Hcall.
    + injection Hcall as <-.
      apply (untouched_grow (h', pq')); simpl;
        [assumption | now exists [CArr []] | lia].
    + destruct (copy_items h' arr) as [[h2 arr2]|] eqn:Hc; [|discriminate].
      injection Hcall as <-.
      destruct (copy_items_grows h' arr h2 arr2 Hc) as [Hpre Hle].
      now apply (untouched_grow (h', pq')).
    + destruct (s_items s) as [arr|].
      * destruct (copy_items h' arr) as [[h2 arr2]|] eqn:Hc; [|discriminate].
        injection Hcall as <-.
        destruct (copy_items_grows h' arr h2 arr2 Hc) as [Hpre Hle].
        now apply (untouched_grow (h', pq')).
      * simpl in Hcall.
        destruct (copy_items (h' ++ [CArr []]) (length h'))
          as [[h2 arr2]|] eqn:Hc; [|discriminate].
        injection Hcall as <-.
        destruct (copy_items_grows _ _ h2 arr2 Hc) as [Hpre Hle].
        apply (untouched_grow (h', pq')); simpl.
        -- assumption.
        -- transitivity (h' ++ [CArr []]); [now exists [CArr []] | assumption].
        -- rewrite length_app in Hle. simpl in Hle. lia.
Qed.

Lemma calls_untouched cs st st' :
  untouched n (length h1) h1 st -> calls cs st = Some st' ->
  untouched n (length h1) h1 st'.
Proof.
  revert st. induction cs as [|c cs IH]; intros st Hu Hcalls; simpl in Hcalls.
  - now injection Hcalls as <-.
  - destruct (call c st) as [st1|] eqn:Hc; [|discriminate].
    apply (IH st1); [|assumption]. now apply (call_untouched c st).
Qed.

End Untouched.

End HeapQueue.

(** C10.  For a queue that reads as the value [v] (its pending items in
    order, each with its op_id, base_rev, ops, cursors and ts, and its
    latest acknowledged server sequence): [snapshot()] and then
    [replace] of that snapshot succeed and leave a queue that reads as
    [v] again; on values [replace(snapshot())] is the identity.  The
    snapshot reads as the snapshot of [v], it leaves the queue as it was,
    and its items, their ops arrays and their ops are new cells, which no
    object of the queue shares.  So the snapshot reads the same in every
    later heap that has those cells, and the cursor objects (which the
    copies share by reference), unchanged: after an in-place change of
    any object that existed when the snapshot was taken and is not a
    cursor (an op, an ops array, an item of the queue), and after any
    sequence of calls of [enqueue], [ack], [setLatestServerSeq] and
    [replace] on the queue. *)
Theorem snapshot_replace_roundtrip (h : Heap.heap) (pq : Heap.QueueObj)
    (v : PendingQueue.t) :
  Heap.read_queue Heap.everywhere h pq = Some v ->
  exists h1 s h2 pq2,
    Heap.snapshot h pq = Some (h1, s)
    /\ Heap.replace h1 pq (Heap.Snap s) = Some (h2, pq2)
    /\ Heap.read_queue Heap.everywhere h2 pq2 = Some v
    /\ PendingQueue.replace v (PendingQueue.Snap (PendingQueue.snapshot v)) = v
    /\ Heap.read_snapshot Heap.everywhere h1 s = Some (PendingQueue.snapshot v)
    /\ Heap.read_queue Heap.everywhere h1 pq = Some v
    /\ (forall h',
          Heap.preserves (Heap.between (length h) (length h1)) h1 h' ->
          Heap.read_snapshot Heap.everywhere h' s
          = Some (PendingQueue.snapshot v))
    /\ (forall l c,
          (l < length h)%nat -> ~ Heap.is_cursor h1 l ->
          Heap.read_snapshot Heap.everywhere (<[l := c]> h1) s
          = Some (PendingQueue.snapshot v))
    /\ (forall cs h' pq',
          Heap.calls cs (h1, pq) = Some (h', pq') ->
          Heap.read_snapshot Heap.everywhere h' s
          = Some (PendingQueue.snapshot v)).
Proof.
  intros Hread.
  destruct (snapshot_spec h pq v Hread) as (h1 & s & Hsnap & Hp1 & Hrs).
  rewrite snapshot_value_eq in Hrs.
  assert (Hiso : forall h',
             Heap.preserves (Heap.between (length h) (length h1)) h1 h' ->
             Heap.read_snapshot Heap.everywhere h' s
             = Some (PendingQueue.snapshot v)).
  { intros h' Hpres. now apply (read_snapshot_preserved (length h) h1). }
  pose proof (Hiso h1 (preserves_refl _ _)) as Hrs1.
  destruct (replace_spec h1 pq s _ Hrs1) as (h2 & pq2 & Hrep & Hp2 & Hrq).
  assert (Hq1 : Heap.read_queue Heap.everywhere h1 pq = Some v).
  { apply (read_queue_mono Heap.everywhere Heap.everywhere h h1);
      [apply covers_refl | now apply agrees_prefix | assumption]. }
  exists h1, s, h2, pq2.
  split; [assumption|]. split; [assumption|]. split.
  { apply (read_queue_mono (Heap.from (length h1)) Heap.everywhere h2 h2);
      [apply covers_everywhere | intros l c Hl _; exact Hl |].
    rewrite Hrq. unfold PendingQueue.snapshot. simpl.
    rewrite map_copy_edit. now destruct v. }
  split; [apply replace_snapshot_value|].
  split; [assumption|]. split; [assumption|]. split; [assumption|].
  split.
  { intros l c Hl Hnc. apply Hiso. now apply preserves_write. }
  intros cs h' pq' Hcalls. apply Hiso.
  destruct (read_queue_array h pq v Hread) as [ls Hls].
  pose proof (lookup_lt_Some _ _ _ Hls) as Hlt.
  assert (Hu : Heap.untouched (length h) (length h1) h1 (h1, pq)).
  { split; simpl; [apply preserves_refl|]. unfold Heap.between.
    apply andb_false_iff. left. apply Nat.leb_gt. assumption. }
  now destruct (calls_untouched (length h) h1 cs (h1, pq) (h', pq') Hu Hcalls).
Qed.

Lemma snapshot_replace_roundtrip_witness :
  let h := [Heap.COp (Insert 0 (js "a"));
            Heap.CArr [0%nat];
            Heap.CCursor {| position := 1; anchor := None;
                            selection_direction := None |};
            Heap.CItem {| Heap.o_op_id := js "op-1"; Heap.o_base_rev := 4;
                          Heap.o_ops := 1%nat;
                          Heap.o_cursor_before := None;
                          Heap.o_cursor_after := Some 2%nat;
                          Heap.o_ts := Some 1000 |};
            Heap.CArr [3%nat]] in
  let pq := {| Heap.q := 4%nat; Heap.latestAck := 4 |} in
  let v := {| PendingQueue.q :=
                [{| op_id := js "op-1"; base_rev := 4;
                    ops := [Insert 0 (js "a")];
                    cursor_before := None;
                    cursor_after :=
                      Some {| position := 1; anchor := None;
                              selection_direction := None |};
                    ts := Some 1000 |}];
              PendingQueue.latestAck := 4 |} in
  Heap.read_queue Heap.everywhere h pq = Some v
  /\ exists h1 s h2 pq2,
       Heap.snapshot h pq = Some (h1, s)
       /\ Heap.replace h1 pq (Heap.Snap s) = Some (h2, pq2)
       /\ Heap.read_queue Heap.everywhere h2 pq2 = Some v.
Proof.
  intros h pq v. split; [reflexivity|].
  destruct (snapshot_replace_roundtrip h pq v eq_refl)
    as (h1 & s & h2 & pq2 & H1 & H2 & H3 & _).
  exists h1, s, h2, pq2. auto.
Defined.

(* "abc" to "axc" *)
Lemma diffToOps_roundtrip_no_surrogates_witness :
  no_surrogates (js "abc") /\ no_surrogates (js "axc")
  /\ applyOps (js "abc") (diffToOps (js "abc") (js "axc")) = js "axc".
Proof.
  assert (H1 : no_surrogates (js "abc")) by (repeat constructor).
  assert (H2 : no_surrogates (js "axc")) by (repeat constructor).
  split; [exact H1|]. split; [exact H2|].
  exact (diffToOps_roundtrip_no_surrogates _ _ H1 H2).
Defined.

(** ** The queue on the heap and the queue by value *)

Section HeapAck.
Import Heap.

Lemma read_each_filter {A} (rd : loc -> option A)
    (P : loc -> Prop) `{!forall l, Decision (P l)}
    (Q : A -> Prop) `{!forall x, Decision (Q x)} ls vs :
  (forall l x, rd l = Some x -> (P l <-> Q x)) ->
  read_each rd ls = Some vs ->
  read_each rd (filter P ls) = Some (filter Q vs).
Proof.
  intros HPQ. revert vs.
  induction ls as [|l ls IH]; intros vs Hrd; simpl in Hrd.
  - injection Hrd as <-. reflexivity.
  - destruct (rd l) as [x|] eqn:Hl; [|discriminate].
    destruct (read_each rd ls) as [xs|] eqn:Hls; [|discriminate].
    injection Hrd as <-. specialize (IH xs eq_refl).
    destruct (decide (P l)) as [HP|HnP].
    + rewrite filter_cons_True by assumption.
      rewrite (filter_cons_True Q) by now apply (HPQ l x Hl).
      simpl. now rewrite Hl, IH.
    + rewrite filter_cons_False by assumption.
      rewrite (filter_cons_False Q); [assumption|].
      intros HQ. apply HnP. now apply (HPQ l x Hl).
Qed.

Lemma read_item_op_id h l e :
  read_item everywhere h l = Some e -> item_op_id h l = Some (op_id e).
Proof.
  unfold read_item, item_op_id. simpl.
  destruct (h !! l) as [[| |item|]|]; try discriminate.
  destruct (read_ops _ h (o_ops item)); [|discriminate].
  destruct (read_cursor h (o_cursor_before item)); [|discriminate].
  destruct (read_cursor h (o_cursor_after item)); [|discriminate].
  now intros [= <-].
Qed.

(** [ack] on the heap reads as [ack] on the values: the class as the
    edit page uses it can be followed on values. *)
Lemma heap_ack_reads_as_ack h pq v opId serverSeq :
  read_queue everywhere h pq = Some v ->
  read_queue everywhere (ack h pq opId serverSeq).1 (ack h pq opId serverSeq).2
  = Some (PendingQueue.ack v opId serverSeq).
Proof.
  intros Hread. pose proof Hread as Hread0.
  unfold read_queue, read_items in Hread. simpl in Hread.
  destruct (h !! q pq) as [[|ls| |]|] eqn:Hcell; try discriminate.
  destruct (read_each (read_item everywhere h) ls) as [items|] eqn:Hitems;
    [|discriminate].
  injection Hread as <-. unfold ack, PendingQueue.ack. simpl.
  destruct opId as [id|]; rewrite ?Hcell.
  - destruct (truthy id).
    + simpl. unfold read_queue, read_items. simpl.
      assert (Hm : (h ++ [CArr (filter (fun l => item_op_id h l <> Some id) ls)])
                   !! length h
                   = Some (CArr (filter (fun l => item_op_id h l <> Some id) ls)))
        by (apply list_lookup_middle; reflexivity).
      setoid_rewrite Hm.
      rewrite (read_each_mono (read_item everywhere h) _ _
                 (filter (fun e => op_id e <> id) items)).
      * reflexivity.
      * intros l e. apply read_item_mono;
          [apply covers_refl | apply agrees_prefix; now eexists].
      * apply read_each_filter; [|assumption].
        intros l e Hl. rewrite (read_item_op_id h l e Hl).
        split; intros Hne Heq; apply Hne; congruence.
    + simpl. unfold read_queue, read_items. simpl.
      now rewrite Hcell, Hitems.
  - simpl. unfold read_queue, read_items. simpl. now rewrite Hcell, Hitems.
Qed.

End HeapAck.

(** * Further properties of the code *)

(** ** Reconnecting *)

Lemma delay_of_bounds r : 1 <= r <= 8 -> 1000 <= Reconnect.delay_of r <= 10000.
Proof.
  intros Hr. unfold Reconnect.delay_of.
  assert (H : 2 ^ 1 <= 2 ^ r) by (apply Z.pow_le_mono_r; lia).
  change (2 ^ 1) with 2 in H. lia.
Qed.

Lemma reconnect_step_retry st ev :
  0 <= Reconnect.retry st <= 8 ->
  0 <= Reconnect.retry (Reconnect.step st ev).1 <= 8.
Proof.
  intros Hr. destruct ev as [r|r| |]; simpl; try lia.
  destruct (Reconnect.closed_in st r); simpl; lia.
Qed.

Lemma reconnect_delays_bounds st evs :
  0 <= Reconnect.retry st <= 8 ->
  Forall (fun d => 1000 <= d <= 10000) (Reconnect.delays st evs).
Proof.
  revert st. induction evs as [|ev evs IH]; intros st Hr; simpl.
  - constructor.
  - pose proof (reconnect_step_retry st ev Hr) as Hr1.
    destruct ev as [r|r| |]; simpl in *; try (apply IH; assumption).
    destruct (Reconnect.closed_in st r); simpl in *; [now apply IH|].
    constructor; [apply delay_of_bounds; lia | now apply IH].
Qed.

Lemma delay_of_capped r : 5 <= r -> Reconnect.delay_of r = 10000.
Proof.
  intros Hr. unfold Reconnect.delay_of.
  assert (H : 2 ^ 5 <= 2 ^ r) by (apply Z.pow_le_mono_r; lia).
  change (2 ^ 5) with 32 in H. lia.
Qed.

Lemma delay_of_min8 k : 1 <= k -> Reconnect.delay_of (Z.min 8 k) = Reconnect.delay_of k.
Proof.
  intros Hk. destruct (Z.le_gt_cases k 8).
  - now rewrite Z.min_r by lia.
  - rewrite Z.min_l by lia. now rewrite !delay_of_capped by lia.
Qed.

Lemma reconnect_streak n k r :
  0 <= k ->
  let st := {| Reconnect.retry := Z.min 8 k; Reconnect.run_id := r;
               Reconnect.closed := false |} in
  Reconnect.delays st (replicate n (Reconnect.Closed r)) = Reconnect.series k n
  /\ Reconnect.run st (replicate n (Reconnect.Closed r))
     = {| Reconnect.retry := Z.min 8 (k + Z.of_nat n); Reconnect.run_id := r;
          Reconnect.closed := false |}.
Proof.
  revert k. induction n as [|n IH]; intros k Hk st; subst st.
  - split; [reflexivity|]. simpl. do 2 f_equal. lia.
  - cbn [replicate Reconnect.delays Reconnect.run Reconnect.step].
    unfold Reconnect.closed_in.
    cbn [Reconnect.closed Reconnect.retry Reconnect.run_id].
    rewrite Nat.eqb_refl. cbn [fst].
    replace (Z.min 8 (Z.min 8 k + 1)) with (Z.min 8 (k + 1)) by lia.
    destruct (IH (k + 1) ltac:(lia)) as [Hd Hr]. cbv zeta in Hd, Hr.
    rewrite Hd, Hr. split.
    + unfold Reconnect.series. cbn [seq map]. f_equal.
      * rewrite delay_of_min8 by lia. unfold Reconnect.delay_of.
        now replace (k + Z.of_nat 1) with (k + 1) by lia.
      * rewrite <- (seq_shift n 1), map_map. apply map_ext. intros i.
        now replace (k + 1 + Z.of_nat i) with (k + Z.of_nat (S i)) by lia.
    + now replace (k + 1 + Z.of_nat n) with (k + Z.of_nat (S n)) by lia.
Qed.

Lemma reconnect_closed_silent st evs :
  Reconnect.closed st = true ->
  forallb (fun ev => negb (Reconnect.is_rerun ev)) evs = true ->
  Reconnect.delays st evs = [].
Proof.
  revert st. induction evs as [|ev evs IH]; intros st Hc Hevs; [reflexivity|].
  cbn [forallb] in Hevs. apply andb_true_iff in Hevs as [Hev Hevs].
  destruct ev as [r|r| |]; cbn [Reconnect.delays Reconnect.step].
  - apply IH; assumption.
  - unfold Reconnect.closed_in. rewrite Hc.
    destruct (r =? Reconnect.run_id st)%nat; now apply IH.
  - now apply IH.
  - discriminate.
Qed.

Lemma reconnect_earlier_silent st r n :
  (r < Reconnect.run_id st)%nat ->
  Reconnect.delays st (replicate n (Reconnect.Closed r)) = [].
Proof.
  intros Hr. induction n as [|n IH]; [reflexivity|].
  cbn [replicate Reconnect.delays Reconnect.step]. unfold Reconnect.closed_in.
  destruct (Nat.eqb_spec r (Reconnect.run_id st)); [lia | exact IH].
Qed.

Lemma reconnect_run_snoc st evs ev :
  Reconnect.run st (evs ++ [ev])
  = (Reconnect.step (Reconnect.run st evs) ev).1.
Proof.
  revert st. induction evs as [|e evs IH]; intros st; [reflexivity|].
  simpl. apply IH.
Qed.

Lemma reconnect_delays_app st evs evs' :
  Reconnect.delays st (evs ++ evs')
  = Reconnect.delays st evs
    ++ Reconnect.delays (Reconnect.run st evs) evs'.
Proof.
  revert st. induction evs as [|e evs IH]; intros st; [reflexivity|].
  cbn [app Reconnect.delays Reconnect.run].
  destruct (Reconnect.step st e) as [st1 [d|]]; cbn [fst]; rewrite IH;
    reflexivity.
Qed.

(** X2. The delays [useRealtimeChannel] schedules before it connects
    again.  Whatever the order of the events of the sockets, of
    cleanups and of re-runs of the effect, from the first connection
    on, every delay is between 1000 and 10000 ms.  [n] closes in a row
    of the sockets of the present run are followed by the delays
    min(10000, 500 * 2^i) for i = 1..n, that is 1000, 2000, 4000, 8000
    and then 10000 every time; an open starts the series again.  After
    a cleanup nothing is scheduled as long as the effect does not run
    again, and the sockets of an earlier run never have a reconnect
    scheduled.  But the count of failures is the hook's, not the run's:
    when the effect runs again after [n] closes in a row, the closes of
    the new run go on with the series where it was, with
    min(10000, 500 * 2^i) for i = n+1, n+2, ... *)
Theorem reconnect_backoff (evs evs' : list Reconnect.Event) (n m r : nat) :
  Forall (fun d => 1000 <= d <= 10000) (Reconnect.delays Reconnect.start evs)
  /\ Reconnect.delays Reconnect.start (replicate n (Reconnect.Closed 0))
     = map (fun i => Z.min 10000 (500 * 2 ^ Z.of_nat i)) (seq 1 n)
  /\ (let st := Reconnect.run Reconnect.start (evs ++ [Reconnect.Opened r]) in
      Reconnect.delays st (replicate n (Reconnect.Closed (Reconnect.run_id st)))
      = if Reconnect.closed st then []
        else map (fun i => Z.min 10000 (500 * 2 ^ Z.of_nat i)) (seq 1 n))
  /\ (forallb (fun ev => negb (Reconnect.is_rerun ev)) evs' = true ->
      Reconnect.delays
        (Reconnect.run Reconnect.start (evs ++ [Reconnect.Cleanup])) evs' = [])
  /\ (let st := Reconnect.run Reconnect.start evs in
      (r < Reconnect.run_id st)%nat ->
      Reconnect.delays st (replicate n (Reconnect.Closed r)) = [])
  /\ Reconnect.delays Reconnect.start
       (replicate n (Reconnect.Closed 0) ++ [Reconnect.Rerun]
        ++ replicate m (Reconnect.Closed 1))
     = Reconnect.series 0 n ++ Reconnect.series (Z.of_nat n) m.
Proof.
  assert (Hseries : forall k, Reconnect.series 0 k
            = map (fun i => Z.min 10000 (500 * 2 ^ Z.of_nat i)) (seq 1 k)).
  { intros k. unfold Reconnect.series. apply map_ext. intros i.
    now rewrite Z.add_0_l. }
  split; [apply reconnect_delays_bounds; simpl; lia|].
  split; [rewrite <- Hseries; exact (proj1 (reconnect_streak n 0 0 ltac:(lia)))|].
  split; [|split; [|split]].
  - cbv zeta. rewrite reconnect_run_snoc.
    set (st := Reconnect.run Reconnect.start evs).
    cbn [Reconnect.step fst Reconnect.run_id Reconnect.closed].
    destruct (Reconnect.closed st) eqn:Hc.
    + induction n as [|n IH]; [reflexivity|].
      cbn [replicate Reconnect.delays Reconnect.step].
      unfold Reconnect.closed_in.
      cbn [Reconnect.closed Reconnect.run_id].
      rewrite Nat.eqb_refl. exact IH.
    + rewrite <- Hseries.
      exact (proj1 (reconnect_streak n 0 (Reconnect.run_id st) ltac:(lia))).
  - intros Hevs. rewrite reconnect_run_snoc.
    apply reconnect_closed_silent; [reflexivity | assumption].
  - cbv zeta. apply reconnect_earlier_silent.
  - rewrite reconnect_delays_app.
    destruct (reconnect_streak n 0 0 ltac:(lia)) as [Hd Hr]. cbv zeta in Hd, Hr.
    change {| Reconnect.retry := Z.min 8 0; Reconnect.run_id := 0;
              Reconnect.closed := false |} with Reconnect.start in Hd, Hr.
    rewrite Hd, Hr. f_equal.
    cbn [app Reconnect.delays Reconnect.step Reconnect.retry Reconnect.run_id].
    rewrite Z.add_0_l.
    exact (proj1 (reconnect_streak m (Z.of_nat n) 1 ltac:(lia))).
Qed.

(** ** Calls on the pending queue *)

Lemma queue_eq (a b : PendingQueue.t) :
  PendingQueue.q a = PendingQueue.q b ->
  PendingQueue.latestAck a = PendingQueue.latestAck b -> a = b.
Proof. destruct a, b. simpl. now intros -> ->. Qed.

Lemma ack_latest_gen pq opId serverSeq :
  PendingQueue.latestAck (PendingQueue.ack pq opId serverSeq)
  = match serverSeq with
    | Some s => Z.max (PendingQueue.latestAck pq) s
    | None => PendingQueue.latestAck pq
    end.
Proof.
  destruct serverSeq as [s|]; [apply ack_latest | reflexivity].
Qed.

Lemma filter_all {A} (P : A -> Prop) `{!forall x, Decision (P x)} (l : list A) :
  (forall x, P x) -> filter P l = l.
Proof.
  intros HP. induction l as [|x l IH]; [reflexivity|].
  rewrite filter_cons_True by apply HP. now f_equal.
Qed.

Lemma ack_q_keeps pq opId serverSeq :
  PendingQueue.q (PendingQueue.ack pq opId serverSeq)
  = filter (ack_keeps opId) (PendingQueue.q pq).
Proof.
  unfold PendingQueue.ack. simpl. destruct opId as [id|].
  - destruct (truthy id) eqn:Ht.
    + apply list_filter_iff. intros e. unfold ack_keeps. now rewrite Ht.
    + symmetry. apply filter_all. intros e. unfold ack_keeps. now rewrite Ht.
  - symmetry. now apply filter_all.
Qed.

(** X3. Acks can arrive in any order and more than once: two acks
    applied in either order leave the same queue (the same pending
    entries in the same order, the same latest server sequence), and an
    ack applied twice is the ack applied once. *)
Theorem ack_order_irrelevant (pq : PendingQueue.t)
    (opId1 opId2 : option jsstring) (seq1 seq2 : option Z) :
  PendingQueue.ack (PendingQueue.ack pq opId1 seq1) opId2 seq2
  = PendingQueue.ack (PendingQueue.ack pq opId2 seq2) opId1 seq1
  /\ PendingQueue.ack (PendingQueue.ack pq opId1 seq1) opId1 seq1
     = PendingQueue.ack pq opId1 seq1.
Proof.
  split; apply queue_eq.
  - rewrite !ack_q_keeps, !list_filter_filter.
    apply list_filter_iff. intros e. tauto.
  - rewrite !ack_latest_gen. destruct seq1, seq2; lia.
  - rewrite !ack_q_keeps, list_filter_filter.
    apply list_filter_iff. intros e. tauto.
  - rewrite !ack_latest_gen. destruct seq1; lia.
Qed.

Lemma calls_latest pq cs :
  PendingQueue.latestAck (QueueCalls.calls pq cs)
  = QueueCalls.max_list (PendingQueue.latestAck pq) (QueueCalls.seqs cs).
Proof.
  unfold QueueCalls.calls, QueueCalls.max_list. revert pq.
  induction cs as [|c cs IH]; intros pq; [reflexivity|].
  cbn [fold_left]. rewrite IH. destruct c as [e|o s|s].
  - reflexivity.
  - change (QueueCalls.call pq (QueueCalls.Ack o s))
      with (PendingQueue.ack pq o s).
    rewrite ack_latest_gen. destruct s; reflexivity.
  - change (QueueCalls.call pq (QueueCalls.SetLatestServerSeq s))
      with (PendingQueue.setLatestServerSeq pq s).
    destruct (setLatestServerSeq_spec pq s) as [-> _]. reflexivity.
Qed.

Lemma max_list_bounds base l :
  base <= QueueCalls.max_list base l
  /\ Forall (fun s => s <= QueueCalls.max_list base l) l.
Proof.
  unfold QueueCalls.max_list. revert base.
  induction l as [|x l IH]; intros base; simpl.
  - split; [lia | constructor].
  - destruct (IH (Z.max base x)) as [H1 H2]. split; [lia|].
    constructor; [lia | assumption].
Qed.

(** X4. Along any sequence of [enqueue], [ack] and [setLatestServerSeq]
    calls the latest server sequence of a queue is the maximum of its
    first value and of every server sequence the calls carried, in
    whatever order they came: it never decreases, and no sequence number
    seen is above it. *)
Theorem queue_latest_is_maximum (pq : PendingQueue.t)
    (cs : list QueueCalls.Call) :
  let pq' := QueueCalls.calls pq cs in
  PendingQueue.latestServerSeq pq'
  = QueueCalls.max_list (PendingQueue.latestAck pq) (QueueCalls.seqs cs)
  /\ PendingQueue.latestServerSeq pq <= PendingQueue.latestServerSeq pq'
  /\ Forall (fun s => s <= PendingQueue.latestServerSeq pq') (QueueCalls.seqs cs).
Proof.
  intros pq'. unfold PendingQueue.latestServerSeq, pq'.
  rewrite calls_latest.
  destruct (max_list_bounds (PendingQueue.latestAck pq) (QueueCalls.seqs cs)).
  auto.
Qed.

(** X5. An edit enqueued under a non-empty op id that no pending entry
    has, and then acknowledged under that id, leaves the pending entries
    exactly as they were before it was enqueued. *)
Theorem enqueue_then_ack_restores (pq : PendingQueue.t) (e : PendingEdit)
    (serverSeq : option Z) :
  op_id e <> [] ->
  Forall (fun e' => op_id e' <> op_id e) (PendingQueue.q pq) ->
  PendingQueue.q
    (PendingQueue.ack (PendingQueue.enqueue pq e) (Some (op_id e)) serverSeq)
  = PendingQueue.q pq
  /\ PendingQueue.isEmpty (PendingQueue.enqueue pq e) = false.
Proof.
  intros Hne Hfresh. split.
  - unfold PendingQueue.ack, PendingQueue.enqueue. simpl.
    rewrite truthy_nonempty by assumption.
    rewrite filter_app, filter_cons_False, filter_nil, app_nil_r by tauto.
    induction Hfresh as [|e' l He' Hl IH]; [reflexivity|].
    rewrite filter_cons_True by assumption. now f_equal.
  - unfold PendingQueue.isEmpty, PendingQueue.enqueue. simpl.
    rewrite length_app. simpl. apply Z.eqb_neq. lia.
Qed.

Lemma enqueue_then_ack_restores_witness :
  let e1 := {| op_id := js "a"; base_rev := 0; ops := [Insert 0 (js "x")];
               cursor_before := None; cursor_after := None; ts := None |} in
  let e2 := {| op_id := js "b"; base_rev := 1; ops := [Delete 0 1];
               cursor_before := None; cursor_after := None; ts := None |} in
  let pq := {| PendingQueue.q := [e1]; PendingQueue.latestAck := 1 |} in
  op_id e2 <> []
  /\ Forall (fun e' => op_id e' <> op_id e2) (PendingQueue.q pq)
  /\ PendingQueue.q
       (PendingQueue.ack (PendingQueue.enqueue pq e2) (Some (js "b")) (Some 2))
     = [e1].
Proof.
  intros e1 e2 pq.
  assert (H1 : op_id e2 <> []) by discriminate.
  assert (H2 : Forall (fun e' => op_id e' <> op_id e2) (PendingQueue.q pq))
    by (repeat constructor; discriminate).
  split; [exact H1|]. split; [exact H2|].
  exact (proj1 (enqueue_then_ack_restores pq e2 (Some 2) H1 H2)).
Defined.

(** ** Sending the pending edits again *)

Lemma enqueues_q pq es :
  PendingQueue.q (Resend.enqueues pq es) = PendingQueue.q pq ++ es.
Proof.
  unfold Resend.enqueues. revert pq.
  induction es as [|e es IH]; intros pq; simpl.
  - now rewrite app_nil_r.
  - rewrite IH. simpl. now rewrite <- app_assoc.
Qed.

Lemma acks_q pq l :
  PendingQueue.q (Resend.acks pq l) = filter (unacked l) (PendingQueue.q pq).
Proof.
  unfold Resend.acks. revert pq. induction l as [|a l IH]; intros pq; simpl.
  - symmetry. apply filter_all. intros e. constructor.
  - rewrite IH, ack_q_keeps, list_filter_filter.
    apply list_filter_iff. intros e. unfold unacked.
    rewrite Forall_cons. tauto.
Qed.

Lemma sent_edits_map (f : PendingEdit -> EditPayload) sl l :
  EditPage.sent_edits (map (fun e => Send (EditMsg sl (f e))) l) = map f l.
Proof.
  unfold EditPage.sent_edits. induction l as [|e l IH]; [reflexivity|].
  simpl. f_equal. exact IH.
Qed.

(** X6. After edits were enqueued and some of them acknowledged,
    [resendQueue] on an open socket sends exactly the pending edits no
    ack with a non-empty id named, once each and in the order they were
    enqueued, each frame carrying the op id, base revision and operations
    of its edit; and it sends nothing when there is no socket or the
    socket is not open. *)
Theorem resend_sends_unacked (st : EditPage.t) (es : list PendingEdit)
    (l : list (jsstring * Z)) (sock : option ReadyState) (ready : bool) :
  let pq := Resend.acks (Resend.enqueues (EditPage.queue st) es) l in
  let st' := EditPage.set_ws (EditPage.set_queue st pq) sock ready in
  let left := filter (unacked l) (PendingQueue.q (EditPage.queue st) ++ es) in
  PendingQueue.q pq = left
  /\ (sock = Some OPEN ->
      EditPage.sent_edits (Resend.resendQueue st')
      = map (Resend.edit_payload st') left
      /\ map e_op_id (EditPage.sent_edits (Resend.resendQueue st'))
         = map (fun e => Some (op_id e)) left
      /\ map e_ops (EditPage.sent_edits (Resend.resendQueue st'))
         = map ops left)
  /\ (sock <> Some OPEN -> Resend.resendQueue st' = []).
Proof.
  intros pq st' left.
  assert (Hq : PendingQueue.q pq = left)
    by (unfold pq, left; now rewrite acks_q, enqueues_q).
  split; [exact Hq|]. split.
  - intros ->. unfold Resend.resendQueue, PendingQueue.flush. simpl.
    rewrite sent_edits_map, Hq. rewrite !map_map. repeat split.
  - intros Hsock. unfold Resend.resendQueue. simpl.
    destruct sock as [[]|]; try reflexivity. contradiction.
Qed.

Lemma resend_sends_unacked_witness :
  let e1 := {| op_id := js "a"; base_rev := 0; ops := [Insert 0 (js "x")];
               cursor_before := None; cursor_after := None; ts := None |} in
  let e2 := {| op_id := js "b"; base_rev := 0; ops := [Delete 0 1];
               cursor_before := None; cursor_after := None; ts := None |} in
  let e3 := {| op_id := js "c"; base_rev := 1; ops := [Insert 2 (js "y")];
               cursor_before := None; cursor_after := None; ts := None |} in
  let st := EditPage.initial (js "doc") (js "c1") (js "me") (js "#336699") in
  let pq := Resend.acks (Resend.enqueues (EditPage.queue st) [e1; e2; e3])
              [(js "b", 5)] in
  let st' := EditPage.set_ws (EditPage.set_queue st pq) (Some OPEN) true in
  map e_op_id (EditPage.sent_edits (Resend.resendQueue st'))
  = [Some (js "a"); Some (js "c")].
Proof.
  intros e1 e2 e3 st pq st'.
  destruct (resend_sends_unacked st [e1; e2; e3] [(js "b", 5)] (Some OPEN) true)
    as (_ & H & _).
  destruct (H eq_refl) as (_ & Hids & _). exact Hids.
Defined.

(** ** A run of the heartbeat *)

Lemma heartbeat_run_cancelled opts st evs :
  Heartbeat.cancelled st = true -> HeartbeatRun.run opts st evs = [].
Proof.
  revert st. induction evs as [|ev evs IH]; intros st Hc; [reflexivity|].
  simpl. destruct ev as [now last ping_ts send_throws|rs]; simpl.
  - unfold Heartbeat.tick. rewrite Hc. simpl. now apply IH.
  - destruct (Heartbeat.rank (Heartbeat.readyState st) <=? Heartbeat.rank rs)%nat;
      simpl; now apply IH.
Qed.

Lemma heartbeat_run_shape opts st evs :
  exists pings ending,
    HeartbeatRun.run opts st evs
    = map (fun ts => Heartbeat.SocketSend (PingMsg ts)) pings ++ ending
    /\ ending ∈ HeartbeatRun.endings opts.
Proof.
  revert st. induction evs as [|ev evs IH]; intros st.
  - exists [], []. split; [reflexivity | left].
  - simpl. destruct ev as [now last ping_ts send_throws|rs]; simpl.
    + unfold Heartbeat.tick.
      destruct (Heartbeat.cancelled st
                || negb (bool_decide (Heartbeat.readyState st = OPEN)));
        [apply IH|].
      destruct (match Heartbeat.staleThresholdMs opts with
                | Some threshold =>
                    Heartbeat.getLastMessageAt opts && (threshold <? now - last)
                | None => false
                end).
      * simpl. rewrite heartbeat_run_cancelled by reflexivity.
        exists [], (Heartbeat.SocketClose :: Heartbeat.timeout_actions opts).
        split; [now rewrite app_nil_r | right; left].
      * destruct send_throws; simpl.
        -- rewrite heartbeat_run_cancelled by reflexivity.
           exists [], (Heartbeat.SocketClose :: Heartbeat.ConsoleWarn
                         :: Heartbeat.timeout_actions opts).
           split; [now rewrite app_nil_r | right; right; left].
        -- destruct (IH st) as (pings & ending & Hrun & Hend).
           exists (ping_ts :: pings), ending. split; [|assumption].
           simpl. now rewrite Hrun.
    + destruct (Heartbeat.rank (Heartbeat.readyState st) <=? Heartbeat.rank rs)%nat;
        simpl; apply IH.
Qed.

Lemma filter_pings (p : Heartbeat.Action -> bool) (pings : list Z) :
  (forall ts, p (Heartbeat.SocketSend (PingMsg ts)) = false) ->
  filter (fun x => p x = true)
    (map (fun ts => Heartbeat.SocketSend (PingMsg ts)) pings) = [].
Proof.
  intros Hp. induction pings as [|ts pings IH]; [reflexivity|]. simpl.
  rewrite filter_cons_False; [exact IH|]. rewrite Hp. discriminate.
Qed.

(** X7. Whatever the options, the first state of the socket and the
    sequence of timer ticks and socket state changes, all a run of the
    heartbeat does is send pings and then, at most once, end: it closes
    the socket and calls the timeout callback (when one was given) because
    the connection is stale or because a send raised.  After that it does
    nothing more: the socket is closed at most once, the timeout callback
    is called at most once, and no ping follows either. *)
Theorem heartbeat_ends_once (opts : Heartbeat.Options) (rs : ReadyState)
    (evs : list HeartbeatRun.Event) :
  let acts := HeartbeatRun.run opts (Heartbeat.start rs) evs in
  (exists pings ending,
      acts = map (fun ts => Heartbeat.SocketSend (PingMsg ts)) pings ++ ending
      /\ ending ∈ HeartbeatRun.endings opts)
  /\ (length (filter (fun a => HeartbeatRun.is_timeout a = true) acts) <= 1)%nat
  /\ (length (filter (fun a => HeartbeatRun.is_close a = true) acts) <= 1)%nat.
Proof.
  intros acts.
  destruct (heartbeat_run_shape opts (Heartbeat.start rs) evs)
    as (pings & ending & Hrun & Hend).
  fold acts in Hrun. split; [eauto|].
  rewrite Hrun, !filter_app, !filter_pings by reflexivity. simpl.
  unfold HeartbeatRun.endings, Heartbeat.timeout_actions in Hend.
  repeat (apply elem_of_cons in Hend as [->|Hend]);
    [| | |now apply elem_of_nil in Hend];
    destruct (Heartbeat.onTimeout opts); vm_compute; lia.
Qed.

(** ** Lines and columns *)

Lemma count_while_reaches cond fuel i r :
  i <= r -> (forall k, i <= k < r -> cond k = true) -> cond r = false ->
  (Z.to_nat (r - i) < fuel)%nat ->
  count_while fuel cond i = Some r.
Proof.
  revert i. induction fuel as [|fuel IH]; intros i Hle Htrue Hfalse Hfuel; [lia|].
  simpl. destruct (Z.eq_dec i r) as [->|Hne].
  - now rewrite Hfalse.
  - rewrite Htrue by lia. apply IH; [lia | intros; apply Htrue; lia | assumption | lia].
Qed.

Lemma lineMetadata_snoc l ch :
  Lines.lineMetadata_of (l ++ [ch])
  = Lines.lineMetadata_step (Lines.lineMetadata_of l) ch.
Proof. unfold Lines.lineMetadata_of. now rewrite fold_left_app. Qed.

Lemma walk_snoc l ch :
  Lines.walk (l ++ [ch]) = Lines.walk_step (Lines.walk l) ch.
Proof. unfold Lines.walk. now rewrite fold_left_app. Qed.

(** What [lineMetadata] holds after a prefix [l] of the text: the length
    of [l], one start for each line begun, none beyond the end of [l], the
    last one the start of the line the walk is on. *)
Lemma lineMetadata_prefix l :
  let m := Lines.lineMetadata_of l in
  let lc := Lines.walk l in
  m.2 = Z.of_nat (length l)
  /\ Z.of_nat (length m.1) = lc.1 + 1
  /\ 0 <= lc.1 /\ 0 <= lc.2
  /\ Forall (fun s => s <= Z.of_nat (length l)) m.1
  /\ m.1 !! Z.to_nat lc.1 = Some (Z.of_nat (length l) - lc.2).
Proof.
  induction l as [|ch l IH] using rev_ind.
  - cbn. repeat split; try lia. repeat constructor; simpl; lia.
  - rewrite lineMetadata_snoc, walk_snoc. cbv zeta in *.
    destruct IH as (Hlen & Hstarts & HL & HC & Hall & Hlast).
    unfold Lines.lineMetadata_step, Lines.walk_step.
    rewrite length_app. simpl length.
    destruct (Lines.is_newline ch); cbn [fst snd].
    + rewrite length_app. simpl length. repeat split; try lia.
      * apply Forall_app. split.
        -- eapply Forall_impl; [exact Hall|]. simpl. intros; lia.
        -- repeat constructor. lia.
      * replace (Z.to_nat ((Lines.walk l).1 + 1))
          with (length (Lines.lineMetadata_of l).1 + 0)%nat by lia.
        rewrite lookup_app_r by lia.
        replace (_ + 0 - _)%nat with 0%nat by lia. simpl. f_equal. lia.
    + repeat split; try lia.
      * eapply Forall_impl; [exact Hall|]. simpl. intros; lia.
      * rewrite Hlast. f_equal. lia.
Qed.

(** The starts added after a prefix [l] lie beyond the end of [l]. *)
Lemma lineMetadata_app l l' :
  exists extra,
    (Lines.lineMetadata_of (l ++ l')).1 = (Lines.lineMetadata_of l).1 ++ extra
    /\ (Lines.lineMetadata_of (l ++ l')).2 = Z.of_nat (length (l ++ l'))
    /\ Forall (fun s => Z.of_nat (length l) < s) extra.
Proof.
  induction l' as [|ch l' IH] using rev_ind.
  - exists []. rewrite !app_nil_r. repeat split; [|constructor].
    apply (lineMetadata_prefix l).
  - destruct IH as (extra & Hst & Hlen & Hall).
    rewrite app_assoc, lineMetadata_snoc. unfold Lines.lineMetadata_step.
    rewrite Hlen, Hst.
    assert (Hl : Z.of_nat (length ((l ++ l') ++ [ch]))
                 = Z.of_nat (length (l ++ l')) + 1)
      by (rewrite (length_app (l ++ l')); simpl; lia).
    destruct (Lines.is_newline ch); cbn [fst snd].
    + exists (extra ++ [Z.of_nat (length (l ++ l')) + 1]).
      rewrite <- app_assoc. repeat split; [lia|].
      apply Forall_app. split; [assumption|]. repeat constructor.
      rewrite length_app. lia.
    + exists extra. repeat split; [lia | assumption].
Qed.

Lemma resolveLineInfo_prefix (l l' : list JsString.jsstring) (fuel : nat) :
  let m := Lines.lineMetadata_of (l ++ l') in
  (length m.1 < fuel)%nat ->
  Lines.resolveLineInfo_fuel fuel m.1 m.2 (Z.of_nat (length l))
  = Some {| Lines.clamped := Z.of_nat (length l);
            Lines.line := (Lines.walk l).1;
            Lines.column := (Lines.walk l).2 |}.
Proof.
  intros m Hfuel.
  destruct (lineMetadata_app l l') as (extra & Hst & Hlen & Hextra).
  destruct (lineMetadata_prefix l) as (_ & Hstarts & HL & HC & Hall & Hlast).
  fold m in Hst, Hlen. cbv zeta in *.
  set (S1 := (Lines.lineMetadata_of l).1) in *.
  set (L := (Lines.walk l).1) in *. set (C := (Lines.walk l).2) in *.
  set (c := Z.of_nat (length l)) in *.
  assert (Hc : Z.max 0 (Z.min c m.2) = c).
  { rewrite Hlen, length_app. unfold c. lia. }
  assert (Hsl : length m.1 = (length S1 + length extra)%nat)
    by (rewrite Hst; apply length_app).
  unfold Lines.resolveLineInfo_fuel. rewrite Hc.
  assert (Hloop : count_while fuel (Lines.line_cond m.1 c) 0 = Some L).
  { apply count_while_reaches; [lia | | | lia].
    - intros k Hk. unfold Lines.line_cond, JsString.at_index.
      apply andb_true_iff. split; [apply Z.ltb_lt; lia|].
      destruct (Z.ltb_spec (k + 1) 0) as [|_]; [lia|].
      rewrite Hst, lookup_app_l by lia.
      destruct (lookup_lt_is_Some_2 S1 (Z.to_nat (k + 1))) as [s Hs]; [lia|].
      rewrite Hs. apply Z.leb_le.
      exact (Forall_lookup_1 _ _ _ _ Hall Hs).
    - unfold Lines.line_cond, JsString.at_index.
      destruct (Z.ltb_spec (L + 1) (Z.of_nat (length m.1))) as [Hlt|_];
        [|reflexivity].
      destruct (Z.ltb_spec (L + 1) 0) as [|_]; [lia|]. simpl.
      rewrite Hst, lookup_app_r by lia.
      destruct extra as [|s extra]; [simpl in Hsl; lia|].
      replace (Z.to_nat (L + 1) - length S1)%nat with 0%nat by lia. simpl.
      apply Forall_cons in Hextra as [Hs _]. apply Z.leb_gt. exact Hs. }
  rewrite Hloop. unfold JsString.at_index.
  destruct (Z.ltb_spec L 0) as [|_]; [lia|].
  rewrite Hst, lookup_app_l by lia. rewrite Hlast. simpl.
  f_equal. f_equal. lia.
Qed.

(** X8. The line and column the page computes for a cursor position.
    For every text and every position [pos], with the table of line
    starts [lineMetadata] builds from the text, the loop of
    [resolveLineInfo] ends within [starts.length] turns, the position is
    clamped into [0, number of code points of the text], and the line
    and column returned are those of a reader who walks through the
    characters before the clamped position, a line feed leading to
    column 0 of the next line and every other character one column to
    the right. *)
Theorem resolveLineInfo_locates (content : JsString.jsstring) (pos : Z) :
  let m := Lines.lineMetadata content in
  let info := Lines.resolveLineInfo m.1 m.2 pos in
  m.2 = JsString.cp_length content
  /\ (forall fuel, (length m.1 < fuel)%nat ->
        Lines.resolveLineInfo_fuel fuel m.1 m.2 pos = Some info)
  /\ Lines.clamped info = Z.max 0 (Z.min pos (JsString.cp_length content))
  /\ (Lines.line info, Lines.column info)
     = Lines.walk (take (Z.to_nat (Lines.clamped info))
                     (JsString.code_points content)).
Proof.
  intros m info. unfold Lines.lineMetadata in m.
  set (cps := JsString.code_points content) in *.
  assert (Hm2 : m.2 = JsString.cp_length content).
  { destruct (lineMetadata_app cps []) as (_ & _ & H & _).
    rewrite app_nil_r in H. exact H. }
  set (c := Z.max 0 (Z.min pos (JsString.cp_length content))).
  set (l := take (Z.to_nat c) cps). set (l' := drop (Z.to_nat c) cps).
  assert (Hcps : cps = l ++ l') by (symmetry; apply take_drop).
  assert (Hl : Z.of_nat (length l) = c).
  { unfold l. rewrite length_take. unfold c, JsString.cp_length. fold cps. lia. }
  assert (Hfuel : forall fuel, (length m.1 < fuel)%nat ->
            Lines.resolveLineInfo_fuel fuel m.1 m.2 pos
            = Some {| Lines.clamped := c; Lines.line := (Lines.walk l).1;
                      Lines.column := (Lines.walk l).2 |}).
  { intros fuel Hf.
    pose proof (resolveLineInfo_prefix l l' fuel) as H. cbv zeta in H.
    rewrite <- Hcps, Hl in H. fold m in H. rewrite <- (H Hf).
    unfold Lines.resolveLineInfo_fuel.
    replace (Z.max 0 (Z.min pos m.2)) with c by (rewrite Hm2; reflexivity).
    replace (Z.max 0 (Z.min c m.2)) with c by (rewrite Hm2; unfold c; lia).
    reflexivity. }
  assert (Hinfo : info = {| Lines.clamped := c; Lines.line := (Lines.walk l).1;
                            Lines.column := (Lines.walk l).2 |}).
  { unfold info, Lines.resolveLineInfo. rewrite Hfuel by lia. reflexivity. }
  split; [exact Hm2|]. split; [intros; rewrite Hinfo; now apply Hfuel|].
  rewrite Hinfo. simpl. split; [reflexivity|]. fold l.
  now destruct (Lines.walk l).
Qed.

(** ** Presence messages *)

Lemma str_eqb_eq a b : JsString.str_eqb a b = true <-> a = b.
Proof. unfold JsString.str_eqb. apply bool_decide_eq_true. Qed.

Lemma str_eqb_neq a b : JsString.str_eqb a b = false <-> a <> b.
Proof. unfold JsString.str_eqb. apply bool_decide_eq_false. Qed.

Lemma presence_get_set_ne m id entry k :
  k <> id ->
  Profile.presence_get (Profile.presence_set m id entry) k
  = Profile.presence_get m k.
Proof.
  intros Hne. induction m as [|[k' v] m IH]; simpl.
  - now rewrite (proj2 (str_eqb_neq id k)) by congruence.
  - destruct (JsString.str_eqb k' id) eqn:Hk; simpl.
    + apply str_eqb_eq in Hk as ->.
      now rewrite (proj2 (str_eqb_neq id k)) by congruence.
    + now rewrite IH.
Qed.

Lemma presence_get_delete m id k :
  Profile.presence_get (Presence.presence_delete m id) k
  = if decide (k = id) then None else Profile.presence_get m k.
Proof.
  unfold Presence.presence_delete.
  induction m as [|[k' v] m IH]; simpl; [now destruct (decide _)|].
  destruct (JsString.str_eqb k' id) eqn:Hk; simpl.
  - rewrite IH. apply str_eqb_eq in Hk as ->.
    destruct (decide (k = id)) as [->|Hne]; [reflexivity|].
    now rewrite (proj2 (str_eqb_neq id k)) by congruence.
  - rewrite IH. apply str_eqb_neq in Hk.
    destruct (decide (k = id)) as [->|Hne]; [|reflexivity].
    now rewrite (proj2 (str_eqb_neq k' id)).
Qed.

Lemma presence_get_remove_all l m k :
  Profile.presence_get (Presence.remove_all m l) k
  = if decide (k ∈ l) then None else Profile.presence_get m k.
Proof.
  unfold Presence.remove_all. revert m.
  induction l as [|id l IH]; intros m; simpl.
  - destruct (decide (k ∈ [])) as [H|_]; [|reflexivity].
    now apply elem_of_nil in H.
  - rewrite IH, presence_get_delete.
    destruct (decide (k ∈ l)) as [Hin|Hnin].
    + rewrite decide_True by (now right). reflexivity.
    + destruct (decide (k = id)) as [->|Hne].
      * rewrite decide_True by left. reflexivity.
      * rewrite decide_False; [reflexivity|].
        intros [?|?]%elem_of_cons; contradiction.
Qed.

Lemma existing_ordinary m id :
  Presence.ordinary id = true ->
  Presence.existing m id
  = Some (default (Presence.bare id) (Profile.presence_get m id)).
Proof. unfold Presence.existing. now intros ->. Qed.

Lemma assign_ordinary m id entry :
  Presence.ordinary id = true ->
  Presence.assign m id entry = Some (Profile.presence_set m id entry).
Proof. unfold Presence.assign. now intros ->. Qed.

(** With ordinary ids the loops over [added] and [updated] go through. *)
Lemma add_all_ordinary l m :
  forallb Presence.ordinary (map in_client_id l) = true ->
  exists m', Presence.add_all m l = Some m'.
Proof.
  revert m. induction l as [|p l IH]; intros m Hl; [now exists m|].
  cbn [map forallb] in Hl. apply andb_true_iff in Hl as [Hp Hl].
  cbn [Presence.add_all]. rewrite assign_ordinary by assumption.
  now apply IH.
Qed.

Lemma update_all_ordinary l m :
  forallb Presence.ordinary (map in_client_id l) = true ->
  exists m', Presence.update_all m l = Some m'.
Proof.
  revert m. induction l as [|u l IH]; intros m Hl; [now exists m|].
  cbn [map forallb] in Hl. apply andb_true_iff in Hl as [Hu Hl].
  cbn [Presence.update_all].
  rewrite existing_ordinary, assign_ordinary by assumption.
  now apply IH.
Qed.

Lemma presence_get_add_all l m m' k :
  Presence.add_all m l = Some m' ->
  k ∉ map in_client_id l ->
  Profile.presence_get m' k = Profile.presence_get m k.
Proof.
  revert m. induction l as [|p l IH]; intros m Hadd Hk.
  - now injection Hadd as <-.
  - cbn [map] in Hk. apply not_elem_of_cons in Hk as [Hne Hk].
    cbn [Presence.add_all] in Hadd. unfold Presence.assign in Hadd.
    destruct (Presence.ordinary (in_client_id p)); [|discriminate].
    rewrite (IH _ Hadd Hk). now apply presence_get_set_ne.
Qed.

Lemma presence_get_update_all l m m' k :
  Presence.update_all m l = Some m' ->
  k ∉ map in_client_id l ->
  Profile.presence_get m' k = Profile.presence_get m k.
Proof.
  revert m. induction l as [|u l IH]; intros m Hupd Hk.
  - now injection Hupd as <-.
  - cbn [map] in Hk. apply not_elem_of_cons in Hk as [Hne Hk].
    cbn [Presence.update_all] in Hupd.
    unfold Presence.existing, Presence.assign in Hupd.
    destruct (Presence.ordinary (in_client_id u)); [|discriminate].
    rewrite (IH _ Hupd Hk). now apply presence_get_set_ne.
Qed.

(** What the two loops leave under a key, entry by entry. *)
Lemma presence_get_add_all_fold l m m' k :
  Presence.add_all m l = Some m' ->
  Profile.presence_get m' k
  = fold_left (fun acc p => if decide (in_client_id p = k)
                            then Some (Presence.stored p) else acc)
      l (Profile.presence_get m k).
Proof.
  revert m. induction l as [|p l IH]; intros m Hadd.
  - now injection Hadd as <-.
  - cbn [Presence.add_all] in Hadd. unfold Presence.assign in Hadd.
    destruct (Presence.ordinary (in_client_id p)); [|discriminate].
    rewrite (IH _ Hadd). cbn [fold_left]. f_equal.
    destruct (decide (in_client_id p = k)) as [<-|Hne].
    + apply presence_get_set.
    + now apply presence_get_set_ne.
Qed.

Lemma presence_get_update_all_fold l m m' k :
  Presence.update_all m l = Some m' ->
  Profile.presence_get m' k
  = fold_left (fun acc u =>
                 if decide (in_client_id u = k)
                 then Some (Presence.spread
                              (default (Presence.bare k) acc) u)
                 else acc)
      l (Profile.presence_get m k).
Proof.
  revert m. induction l as [|u l IH]; intros m Hupd.
  - now injection Hupd as <-.
  - cbn [Presence.update_all] in Hupd.
    unfold Presence.existing, Presence.assign in Hupd.
    destruct (Presence.ordinary (in_client_id u)); [|discriminate].
    rewrite (IH _ Hupd). cbn [fold_left]. f_equal.
    destruct (decide (in_client_id u = k)) as [<-|Hne].
    + apply presence_get_set.
    + now apply presence_get_set_ne.
Qed.

(** The last entry of a list of presence states that carries the id. *)
Lemma presence_get_add_all_in l m m' k :
  Presence.add_all m l = Some m' ->
  k ∈ map in_client_id l ->
  exists p, Profile.presence_get m' k = Some (Presence.stored p)
            /\ p ∈ l /\ in_client_id p = k.
Proof.
  revert m. induction l as [|p l IH]; intros m Hadd Hk.
  - now apply elem_of_nil in Hk.
  - cbn [Presence.add_all] in Hadd. unfold Presence.assign in Hadd.
    destruct (Presence.ordinary (in_client_id p)); [|discriminate].
    destruct (decide (k ∈ map in_client_id l)) as [Hin|Hnin].
    + destruct (IH _ Hadd Hin) as (p' & Hget & Hp' & Hid).
      exists p'. repeat split; [assumption | now right | assumption].
    + cbn [map] in Hk. apply elem_of_cons in Hk as [->|Hk]; [|contradiction].
      exists p. split; [|split; [left | reflexivity]].
      rewrite (presence_get_add_all _ _ _ _ Hadd Hnin).
      apply presence_get_set.
Qed.

(** The last update of a list that carries the id, over what the entry
    was before it. *)
Lemma presence_get_update_all_in l m m' k :
  Presence.update_all m l = Some m' ->
  k ∈ map in_client_id l ->
  exists old u, Profile.presence_get m' k = Some (Presence.spread old u)
                /\ u ∈ l /\ in_client_id u = k.
Proof.
  revert m. induction l as [|u l IH]; intros m Hupd Hk.
  - now apply elem_of_nil in Hk.
  - cbn [Presence.update_all] in Hupd.
    unfold Presence.existing, Presence.assign in Hupd.
    destruct (Presence.ordinary (in_client_id u)); [|discriminate].
    destruct (decide (k ∈ map in_client_id l)) as [Hin|Hnin].
    + destruct (IH _ Hupd Hin) as (old & u' & Hget & Hu' & Hid).
      exists old, u'. repeat split; [assumption | now right | assumption].
    + cbn [map] in Hk. apply elem_of_cons in Hk as [->|Hk]; [|contradiction].
      eexists _, u. split; [|split; [left | reflexivity]].
      rewrite (presence_get_update_all _ _ _ _ Hupd Hnin).
      apply presence_get_set.
Qed.

(** X9. A [presence_diff] message for the page's document in which the
    clients added and updated are named by ordinary ids (none is the
    name of a member of [Object.prototype]).  The clients it lists as
    removed have no presence entry afterwards, also when the same
    message adds or updates them; a client it adds and neither updates
    nor removes has the entry the message gives for it; a client it
    updates and does not remove has an entry made of the last update
    for it over what the entry was before: each of label, colour,
    cursor, input-method state and time is the one the update gives, is
    wiped where the update has [null] for it, and stays where the update
    leaves it out; and the entry of every client the message does not
    name is as before.  In full: the entry of a client that is not
    removed is what the entries added for it, each taking the place of
    what was there, and then the updates for it, each spread over what
    was there, make of the entry the page had.  A [presence_diff] for
    another document changes nothing. *)
Theorem presence_diff_effect (st : EditPage.t) (sl : JsString.jsstring)
    (added updated : list PresenceIn) (removed : list JsString.jsstring)
    (now : Z) (id : JsString.jsstring) :
  let r := Presence.handleCoeditMsg st
             (PresenceDiffIn sl added updated removed) now in
  let get s := Profile.presence_get (EditPage.presence s) id in
  (sl <> EditPage.slug st -> r = Some st)
  /\ (sl = EditPage.slug st ->
      forallb Presence.ordinary (map in_client_id (added ++ updated)) = true ->
      exists st',
        r = Some st'
        /\ get st'
           = (if decide (id ∈ removed) then None
              else
                fold_left
                  (fun acc u =>
                     if decide (in_client_id u = id)
                     then Some (Presence.spread
                                  (default (Presence.bare id) acc) u)
                     else acc)
                  updated
                  (fold_left
                     (fun acc p => if decide (in_client_id p = id)
                                   then Some (Presence.stored p) else acc)
                     added (get st)))
        /\ (id ∈ removed -> get st' = None)
        /\ (id ∉ removed -> id ∉ map in_client_id updated ->
            id ∈ map in_client_id added ->
            exists p, get st' = Some (Presence.stored p)
                      /\ p ∈ added /\ in_client_id p = id)
        /\ (id ∉ removed -> id ∈ map in_client_id updated ->
            exists old u e,
              get st' = Some e /\ e = Presence.spread old u
              /\ u ∈ updated /\ in_client_id u = id /\ client_id e = id
              /\ label e = Presence.over (label old) (in_label u)
              /\ color e = Presence.over (color old) (in_color u)
              /\ cursor e = Presence.over (cursor old) (in_cursor u)
              /\ (forall v, in_label u = Given v -> label e = Some v)
              /\ (in_label u = Null -> label e = None)
              /\ (in_label u = Missing -> label e = label old))
        /\ (id ∉ removed -> id ∉ map in_client_id updated ->
            id ∉ map in_client_id added -> get st' = get st)).
Proof.
  intros r get. subst r get. unfold Presence.handleCoeditMsg. split.
  - intros Hne. now rewrite (proj2 (str_eqb_neq sl (EditPage.slug st))).
  - intros -> Hord. rewrite (proj2 (str_eqb_eq _ _)) by reflexivity.
    rewrite map_app, forallb_app in Hord.
    apply andb_true_iff in Hord as [Hadded Hupdated].
    destruct (add_all_ordinary added (EditPage.presence st) Hadded)
      as [m1 Hm1].
    destruct (update_all_ordinary updated m1 Hupdated) as [m2 Hm2].
    rewrite Hm1, Hm2. eexists. split; [reflexivity|].
    cbn [EditPage.presence EditPage.set_presence].
    rewrite presence_get_remove_all.
    split.
    { destruct (decide (id ∈ removed)); [reflexivity|].
      rewrite (presence_get_update_all_fold _ _ _ _ Hm2).
      now rewrite (presence_get_add_all_fold _ _ _ _ Hm1). }
    repeat split.
    + intros Hin. now rewrite decide_True.
    + intros Hr Hu Ha. rewrite decide_False by assumption.
      rewrite (presence_get_update_all _ _ _ _ Hm2 Hu).
      exact (presence_get_add_all_in _ _ _ _ Hm1 Ha).
    + intros Hr Hu. rewrite decide_False by assumption.
      destruct (presence_get_update_all_in _ _ _ _ Hm2 Hu)
        as (old & u & Hget & Hin & Hid).
      exists old, u, (Presence.spread old u).
      repeat split; try assumption; try reflexivity.
      * intros v Hv. cbn [Presence.spread label]. now rewrite Hv.
      * intros Hv. cbn [Presence.spread label]. now rewrite Hv.
      * intros Hv. cbn [Presence.spread label]. now rewrite Hv.
    + intros Hr Hu Ha. rewrite decide_False by assumption.
      rewrite (presence_get_update_all _ _ _ _ Hm2 Hu).
      exact (presence_get_add_all _ _ _ _ Hm1 Ha).
Qed.

(** X10. A [presence_snapshot] message for the page's document in
    which the clients are named by ordinary ids (none is the name of a
    member of [Object.prototype]; the page's own id is a uuid) replaces
    the whole presence map: afterwards the client's own entry carries
    the page's display name and colour, and its cursor and input-method
    state are those the snapshot lists for the client, none if the
    snapshot does not list it; every other client has an entry exactly
    if the snapshot lists it, namely the one listed for it (the last, if
    the snapshot lists it more than once), whatever the map held
    before. *)
Theorem presence_snapshot_effect (st : EditPage.t)
    (clients : list PresenceIn) (now : Z) (id : JsString.jsstring) :
  let r := Presence.handleCoeditMsg st
             (PresenceSnapshotIn (EditPage.slug st) clients) now in
  Presence.ordinary (EditPage.clientId st) = true ->
  forallb Presence.ordinary (map in_client_id clients) = true ->
  exists st',
    r = Some st'
    /\ let get k := Profile.presence_get (EditPage.presence st') k in
       (exists own,
           get (EditPage.clientId st) = Some own
           /\ label own = Some (EditPage.displayName st)
           /\ color own = Some (EditPage.displayColor st)
           /\ last_seen own = Some now
           /\ (EditPage.clientId st ∉ map in_client_id clients ->
               cursor own = None /\ ime own = None)
           /\ (EditPage.clientId st ∈ map in_client_id clients ->
               exists p, p ∈ clients /\ in_client_id p = EditPage.clientId st
                         /\ cursor own = Presence.read (in_cursor p)
                         /\ ime own = Presence.read (in_ime p)))
       /\ (id <> EditPage.clientId st -> id ∉ map in_client_id clients ->
           get id = None)
       /\ (id <> EditPage.clientId st -> id ∈ map in_client_id clients ->
           exists p, get id = Some (Presence.stored p)
                     /\ p ∈ clients /\ in_client_id p = id)
       /\ (id <> EditPage.clientId st ->
           get id
           = fold_left
               (fun acc p => if decide (in_client_id p = id)
                             then Some (Presence.stored p) else acc)
               clients None).
Proof.
  intros r Hown Hord. subst r. unfold Presence.handleCoeditMsg.
  rewrite (proj2 (str_eqb_eq _ _)) by reflexivity.
  destruct (add_all_ordinary clients [] Hord) as [m Hm].
  rewrite Hm, Hown. eexists. split; [reflexivity|]. cbv zeta.
  unfold Profile.own_presence.
  cbn [EditPage.presence EditPage.set_presence EditPage.clientId].
  split; [|split; [|split]].
  - eexists. split; [apply presence_get_set|].
    cbn [label color last_seen cursor ime]. repeat split.
    + rewrite (presence_get_add_all _ _ _ _ Hm) by assumption. reflexivity.
    + rewrite (presence_get_add_all _ _ _ _ Hm) by assumption. reflexivity.
    + intros Hin.
      destruct (presence_get_add_all_in _ _ _ _ Hm Hin) as (p & Hp & Hpin & Hid).
      exists p. rewrite Hp. repeat split; assumption.
  - intros Hne Hnin. rewrite presence_get_set_ne by assumption.
    now rewrite (presence_get_add_all _ _ _ _ Hm).
  - intros Hne Hin. rewrite presence_get_set_ne by assumption.
    exact (presence_get_add_all_in _ _ _ _ Hm Hin).
  - intros Hne. rewrite presence_get_set_ne by assumption.
    exact (presence_get_add_all_fold _ _ _ _ Hm).
Qed.

Lemma presence_snapshot_effect_witness :
  let st := EditPage.initial (js "doc") (js "me") (js "Me") (js "#336699") in
  let peer := {| in_client_id := js "peer"; in_label := Given (js "Peer");
                 in_color := Null; in_cursor := Missing; in_ime := Missing;
                 in_last_seen := Given 5 |} in
  exists st',
    Presence.handleCoeditMsg st
      (PresenceSnapshotIn (js "doc") [peer]) 9 = Some st'
    /\ Profile.presence_get (EditPage.presence st') (js "peer")
       = Some (Presence.stored peer).
Proof.
  intros st peer.
  destruct (presence_snapshot_effect st [peer] 9 (js "peer") eq_refl eq_refl)
    as (st' & Hr & _ & _ & Hpeer & _).
  exists st'. split; [exact Hr|].
  destruct Hpeer as (p & Hget & Hin & _); [discriminate | left |].
  apply list_elem_of_singleton in Hin. now subst p.
Defined.

(** ** Typing in the textarea *)

Lemma diffToOps_applies before after :
  no_surrogates before -> no_surrogates after ->
  applyOps before (diffToOps before after) = after.
Proof.
  intros Hb Ha. destruct (decide (before = after)) as [->|Hne].
  - now rewrite diffToOps_equal.
  - destruct (diffToOps_split before after Hne) as (i & j & Hs & ->).
    pose proof (diff_ops_roundtrip (JsString.code_points before)
                  (JsString.code_points after) i j
                  (single_units_of_string _ Hb)
                  (single_units_of_string _ Ha) Hs) as H.
    now rewrite !join_code_points in H.
Qed.


Lemma cursor_state_shown (ta : Editing.Textarea) :
  let range := Editing.computeSelectionRange ta in
  Editing.shown_range (Editing.computeCursorState ta)
  = (Z.min range.1 range.2, Z.max range.1 range.2).
Proof.
  unfold Editing.computeCursorState, Editing.computeSelectionRange,
    Editing.shown_range.
  set (start := default 0 (Editing.selectionStart ta)).
  set (end_ := default start (Editing.selectionEnd ta)).
  cbn [fst snd anchor position selection_direction].
  destruct (Z.eqb_spec start end_) as [Heq|Hne];
    destruct (Editing.selectionDirection ta) as [[]|]; f_equal; lia.
Qed.

(** X12. The cursor state the page publishes for the textarea's
    selection carries that selection: the range remote peers show for it
    (from the smaller to the larger of anchor and position) is the range
    between [selectionStart] and [selectionEnd], the anchor is left out
    exactly for a collapsed selection, the position is the moving end
    (the start for a backward selection, the end otherwise), and
    [cursorsEqual] holds of two cursor states exactly when they are
    equal, a missing one being equal only to a missing one. *)
Theorem cursor_state_carries_selection (ta : Editing.Textarea)
    (a b : option CursorState) :
  let c := Editing.computeCursorState ta in
  let range := Editing.computeSelectionRange ta in
  Editing.shown_range c = (Z.min range.1 range.2, Z.max range.1 range.2)
  /\ (anchor c = None <-> range.1 = range.2)
  /\ position c = match selection_direction c with
                  | Some backward => range.1
                  | _ => range.2
                  end
  /\ (Editing.cursorsEqual a b = true <-> a = b).
Proof.
  intros c range. subst c range.
  unfold Editing.computeCursorState, Editing.computeSelectionRange,
    Editing.shown_range.
  set (start := default 0 (Editing.selectionStart ta)).
  set (end_ := default start (Editing.selectionEnd ta)).
  cbn [fst snd anchor position selection_direction].
  split; [|split; [|split]].
  - destruct (Z.eqb_spec start end_) as [Heq|Hne].
    + destruct (Editing.selectionDirection ta) as [[]|]; f_equal; lia.
    + destruct (Editing.selectionDirection ta) as [[]|]; f_equal; lia.
  - destruct (Z.eqb_spec start end_) as [Heq|Hne]; [tauto|].
    destruct (Editing.selectionDirection ta) as [[]|]; split;
      (discriminate || contradiction).
  - destruct (Editing.selectionDirection ta) as [[]|]; reflexivity.
  - unfold Editing.cursorsEqual.
    destruct a as [[pa aa da]|], b as [[pb ab db]|]; simpl;
      try (split; [discriminate | congruence]); [|tauto].
    rewrite !andb_true_iff, Z.eqb_eq, bool_decide_eq_true. split.
    + intros [[-> ->] Hd]. destruct da as [[]|], db as [[]|];
        (discriminate || reflexivity).
    + intros [= -> -> ->]. repeat split. now destruct db as [[]|].
Qed.

(** ** From the server to the page *)

Lemma deliver_broadcasts (ops : list Op) (seq : Z) (st : EditPage.t) :
  let r := Compat.deliver st (map (fun op => OpBroadcastMsg op seq) ops) in
  r.2 = []
  /\ EditPage.content r.1 = applyOps (EditPage.content st) ops
  /\ PendingQueue.q (EditPage.queue r.1) = PendingQueue.q (EditPage.queue st)
  /\ (ops <> [] ->
      EditPage.rev r.1 = seq
      /\ PendingQueue.latestAck (EditPage.queue r.1)
         = Z.max (PendingQueue.latestAck (EditPage.queue st)) seq)
  /\ (ops = [] -> r.1 = st).
Proof.
  revert st. induction ops as [|op ops IH]; intros st.
  - simpl. repeat split; try reflexivity; congruence.
  - cbn [map Compat.deliver]. cbv zeta.
    set (st1 := (EditPage.handleMessage st (OpBroadcastMsg op seq)).1).
    destruct (IH st1) as (Heff & Hcontent & Hq & Hrev & Hnil).
    assert (H1 : EditPage.content st1 = applyOp (EditPage.content st) op)
      by reflexivity.
    assert (H2 : EditPage.rev st1 = seq) by reflexivity.
    assert (H3 : EditPage.queue st1
                 = PendingQueue.setLatestServerSeq (EditPage.queue st) seq)
      by reflexivity.
    destruct (setLatestServerSeq_spec (EditPage.queue st) seq) as [Hl Hqq].
    cbn [fst snd]. rewrite Heff, Hcontent, Hq, H1, H3, Hqq.
    split; [reflexivity|]. split; [reflexivity|]. split; [reflexivity|].
    split; [|discriminate].
    intros _. destruct ops as [|op' ops].
    + rewrite (Hnil eq_refl). now rewrite H3.
    + destruct (Hrev ltac:(discriminate)) as [-> ->]. rewrite H3, Hl.
      split; [reflexivity | lia].
Qed.

(** X13. An [applied] message of the server on its way through the
    compatibility socket to the page.  When it carries the socket's own
    (non-empty) client id, the page gets one [ack]: its text is left as
    it is, the pending edits with the message's op id are removed (none
    when the id is missing or empty), the revision becomes the message's
    and the latest server sequence number is raised to it.  Otherwise the
    page gets one [op_broadcast] for each operation, in order: its text
    becomes [applyOps] of its text and the message's operations, its
    pending edits are untouched and nothing is sent; the revision and the
    latest server sequence number follow the message only if it has at
    least one operation, a message without operations leaving the page
    as it is. *)
Theorem applied_reaches_page (c : Compat.t) (st : EditPage.t)
    (m : Compat.ServerApplied) :
  let msgs := (Compat.handleApplied c m).2 in
  let r := Compat.deliver st msgs in
  let st' := r.1 in
  (Compat.is_own c m = true ->
     msgs = [AckMsg (Compat.a_op_id m) (Some (Compat.a_rev m))]
     /\ EditPage.content st' = EditPage.content st
     /\ PendingQueue.q (EditPage.queue st')
        = filter (ack_keeps (Compat.a_op_id m))
            (PendingQueue.q (EditPage.queue st))
     /\ EditPage.rev st' = Compat.a_rev m
     /\ PendingQueue.latestAck (EditPage.queue st')
        = Z.max (PendingQueue.latestAck (EditPage.queue st)) (Compat.a_rev m))
  /\ (Compat.is_own c m = false ->
     length msgs = length (Compat.a_ops m)
     /\ r.2 = []
     /\ EditPage.content st' = applyOps (EditPage.content st) (Compat.a_ops m)
     /\ PendingQueue.q (EditPage.queue st')
        = PendingQueue.q (EditPage.queue st)
     /\ (Compat.a_ops m <> [] ->
         EditPage.rev st' = Compat.a_rev m
         /\ PendingQueue.latestAck (EditPage.queue st')
            = Z.max (PendingQueue.latestAck (EditPage.queue st))
                (Compat.a_rev m))
     /\ (Compat.a_ops m = [] -> st' = st)).
Proof.
  intros msgs r st'. subst st' r msgs. unfold Compat.handleApplied. split.
  - intros ->. cbn [snd Compat.deliver fst]. cbv zeta.
    split; [reflexivity|]. unfold EditPage.handleMessage. cbn [fst].
    repeat split.
    + exact (ack_q_keeps (EditPage.queue st) (Compat.a_op_id m)
               (Some (Compat.a_rev m))).
    + exact (ack_latest_gen (EditPage.queue st) (Compat.a_op_id m)
               (Some (Compat.a_rev m))).
  - intros ->. cbn [snd]. rewrite length_map. split; [reflexivity|].
    apply deliver_broadcasts.
Qed.

(** ** One edit, from the textarea to the peers and back *)

Lemma ack_keeps_fresh (l : list PendingEdit) (e : PendingEdit)
    (id : JsString.jsstring) :
  id <> [] -> op_id e = id -> Forall (fun e' => op_id e' <> id) l ->
  filter (ack_keeps (Some id)) (l ++ [e]) = l.
Proof.
  intros Hne He Hfresh.
  rewrite (list_filter_iff (ack_keeps (Some id)) (fun e' => op_id e' <> id))
    by (intros x; unfold ack_keeps; now rewrite truthy_nonempty).
  rewrite filter_app, filter_cons_False, filter_nil, app_nil_r by tauto.
  induction Hfresh as [|e' l He' Hl IH]; [reflexivity|].
  rewrite filter_cons_True by assumption. now f_equal.
Qed.

Lemma onChange_differs st ta last id now :
  Editing.value ta <> EditPage.content st ->
  let r := Editing.onChange st ta last id now in
  let diff := diffToOps (EditPage.content st) (Editing.value ta) in
  exists e,
    op_id e = id /\ ops e = diff
    /\ Editing.page r
       = EditPage.persistQueue
           (EditPage.set_queue (EditPage.set_content st (Editing.value ta))
              (PendingQueue.enqueue (EditPage.queue st) e))
    /\ forall p, p ∈ EditPage.sent_edits (Editing.effects r) ->
                 e_ops p = diff /\ e_op_id p = Some id
                 /\ e_client_id p = Some (EditPage.clientId st).
Proof.
  intros Hne r diff. subst r. unfold Editing.onChange.
  assert (Hd : diff <> []) by (apply diffToOps_nonempty; congruence).
  fold diff. destruct (length diff =? 0)%nat eqn:Hlen.
  { apply Nat.eqb_eq, nil_length_inv in Hlen. contradiction. }
  eexists. split; [|split; [|split]]; [| |reflexivity|]; [reflexivity ..|].
  intros p Hp. cbn [Editing.effects] in Hp.
  change (EditPage.ws (EditPage.persistQueue ?s)) with (EditPage.ws s) in Hp.
  cbn [EditPage.ws EditPage.set_queue EditPage.set_content] in Hp.
  destruct (EditPage.ws st).
  - apply list_elem_of_singleton in Hp. subst p. repeat split.
  - now apply elem_of_nil in Hp.
Qed.

Lemma onChange_same st ta last id now :
  Editing.value ta = EditPage.content st ->
  Editing.effects (Editing.onChange st ta last id now) = [].
Proof.
  intros Heq. unfold Editing.onChange. now rewrite Heq, diffToOps_equal.
Qed.

(** X14. What one client types reaches its peers.  Let a page hold a
    text without surrogates, let its user change the textarea to another
    such text, and let [p] be the edit frame [onChange] hands to the
    socket.  When the server's [applied] message with the operations of
    [p] comes in at a page of another client that holds the first page's
    old text, that page's text becomes the typed text, and its pending
    edits are left as they were. *)
Theorem typed_text_reaches_peer (stA stB : EditPage.t) (cB : Compat.t)
    (ta : Editing.Textarea) (last : option CursorState)
    (id : JsString.jsstring) (now : Z) (p : EditPayload)
    (m : Compat.ServerApplied) :
  no_surrogates (EditPage.content stA) ->
  no_surrogates (Editing.value ta) ->
  p ∈ EditPage.sent_edits (Editing.effects (Editing.onChange stA ta last id now)) ->
  Compat.a_ops m = e_ops p ->
  Compat.is_own cB m = false ->
  EditPage.content stB = EditPage.content stA ->
  let stB' := (Compat.deliver stB (Compat.handleApplied cB m).2).1 in
  EditPage.content stB' = Editing.value ta
  /\ EditPage.content stB'
     = EditPage.content (Editing.page (Editing.onChange stA ta last id now))
  /\ PendingQueue.q (EditPage.queue stB') = PendingQueue.q (EditPage.queue stB).
Proof.
  intros Hb Ha Hp Hops Hown Hsame stB'.
  destruct (decide (Editing.value ta = EditPage.content stA)) as [Heq|Hne].
  { rewrite onChange_same in Hp by assumption. now apply elem_of_nil in Hp. }
  destruct (onChange_differs stA ta last id now Hne) as (e & _ & _ & Hpage & Hsent).
  destruct (Hsent p Hp) as (Hpops & _ & _).
  subst stB'. unfold Compat.handleApplied. rewrite Hown. cbn [snd].
  destruct (deliver_broadcasts (Compat.a_ops m) (Compat.a_rev m) stB)
    as (_ & Hcontent & Hq & _ & _).
  rewrite Hcontent, Hq, Hops, Hpops, Hsame, Hpage.
  split; [now apply diffToOps_applies|].
  split; [now apply diffToOps_applies | reflexivity].
Qed.

Lemma typed_text_reaches_peer_witness :
  let stA := EditPage.set_ws
               (EditPage.set_content
                  (EditPage.initial (js "doc") (js "A") (js "a") (js "#336699"))
                  (js "cat"))
               (Some OPEN) true in
  let stB := EditPage.set_content
               (EditPage.initial (js "doc") (js "B") (js "b") (js "#996633"))
               (js "cat") in
  let cB := {| Compat.sessionId := js "doc"; Compat.clientId := Some (js "B");
               Compat.pendingOpIds := [] |} in
  let ta := {| Editing.value := js "cart"; Editing.selectionStart := Some 3;
               Editing.selectionEnd := Some 3;
               Editing.selectionDirection := None |} in
  let m := {| Compat.a_slug := js "doc"; Compat.a_rev := 1;
              Compat.a_ops := [Insert 2 (js "r")];
              Compat.a_client_id := Some (js "A");
              Compat.a_op_id := Some (js "op1"); Compat.a_ts := 7 |} in
  EditPage.content (Compat.deliver stB (Compat.handleApplied cB m).2).1
  = js "cart".
Proof.
  intros stA stB cB ta m.
  set (p := {| e_base_rev := 0; e_ops := [Insert 2 (js "r")];
               e_client_id := Some (js "A"); e_op_id := Some (js "op1");
               e_cursor_before := None;
               e_cursor_after := Some (Editing.computeCursorState ta);
               e_ts := Some 7 |}).
  assert (H1 : no_surrogates (EditPage.content stA)) by (repeat constructor).
  assert (H2 : no_surrogates (Editing.value ta)) by (repeat constructor).
  assert (H3 : p ∈ EditPage.sent_edits
                 (Editing.effects (Editing.onChange stA ta None (js "op1") 7)))
    by (vm_compute; left).
  exact (proj1 (typed_text_reaches_peer stA stB cB ta None (js "op1") 7 p m
                  H1 H2 H3 eq_refl eq_refl eq_refl)).
Defined.



(** ** The rectangles of a remote selection *)

(** Adding one is exact as long as the sum is no larger than [2^53]. *)
Lemma js_add1_exact (x : Z) :
  - Selection.two53 <= x < Selection.two53 -> Selection.js_add1 x = x + 1.
Proof.
  unfold Selection.js_add1, Selection.round_double, Selection.two53.
  intros Hx. destruct (Z.ltb_spec (Z.abs (x + 1)) 9007199254740992) as [|Hge];
    [reflexivity|].
  assert (x + 1 = 9007199254740992) as -> by lia. reflexivity.
Qed.

Lemma segments_fuel_returns starts total (fuel : nat) current end_ :
  - Selection.two53 <= current -> end_ <= Selection.two53 ->
  (Z.to_nat (end_ - current) <= fuel)%nat ->
  exists segs,
    Selection.segments_fuel fuel starts total current end_ = Some segs
    /\ (length segs <= Z.to_nat (end_ - current))%nat.
Proof.
  intros Hlo Hhi. revert current Hlo.
  induction fuel as [|fuel IH]; intros current Hlo Hfuel; simpl.
  - destruct (Z.ltb_spec current end_); [lia|]. exists []. split; [reflexivity|simpl; lia].
  - destruct (Z.ltb_spec current end_) as [Hlt|Hge];
      [|exists []; split; [reflexivity|simpl; lia]].
    set (segmentEnd := Z.min end_ _).
    set (current' := if current <? segmentEnd then segmentEnd
                     else Selection.js_add1 current).
    assert (Hadv : current < current').
    { unfold current'. destruct (Z.ltb_spec current segmentEnd); [lia|].
      rewrite js_add1_exact; lia. }
    destruct (IH current') as (rest & -> & Hlen); [lia | lia |].
    eexists. split; [reflexivity|]. simpl. lia.
Qed.

(** At and past the end of the text [resolveLineInfo] gives the last
    line, whose start is the last entry of the table. *)
Lemma resolveLineInfo_past_end content pos :
  let m := Lines.lineMetadata content in
  let cps := JsString.code_points content in
  JsString.cp_length content <= pos ->
  Lines.resolveLineInfo m.1 m.2 pos
  = {| Lines.clamped := JsString.cp_length content;
       Lines.line := (Lines.walk cps).1;
       Lines.column := (Lines.walk cps).2 |}
  /\ Z.of_nat (length m.1) = (Lines.walk cps).1 + 1
  /\ m.2 = JsString.cp_length content.
Proof.
  intros m cps Hpos. unfold Lines.lineMetadata in m. fold cps in m.
  destruct (lineMetadata_prefix cps) as (Hlen & Hstarts & _).
  fold m in Hlen, Hstarts. unfold JsString.cp_length in *. fold cps in Hpos |- *.
  split; [|split; assumption].
  pose proof (resolveLineInfo_prefix cps [] (S (length m.1))) as H.
  cbv zeta in H. rewrite app_nil_r in H. fold m in H.
  specialize (H ltac:(lia)).
  assert (Hsame : Lines.resolveLineInfo_fuel (S (length m.1)) m.1 m.2 pos
                  = Lines.resolveLineInfo_fuel (S (length m.1)) m.1 m.2
                      (Z.of_nat (length cps))).
  { unfold Lines.resolveLineInfo_fuel.
    replace (Z.max 0 (Z.min pos m.2)) with (Z.of_nat (length cps)) by lia.
    replace (Z.max 0 (Z.min (Z.of_nat (length cps)) m.2))
      with (Z.of_nat (length cps)) by lia.
    reflexivity. }
  unfold Lines.resolveLineInfo. rewrite Hsame, H. reflexivity.
Qed.

(** One turn of the loop at or past the end of the text. *)
Lemma segments_turn_past_end content (fuel : nat) current end_ :
  let m := Lines.lineMetadata content in
  let cps := JsString.code_points content in
  JsString.cp_length content <= current -> current < end_ ->
  Selection.segments_fuel (S fuel) m.1 m.2 current end_
  = match Selection.segments_fuel fuel m.1 m.2
            (Selection.js_add1 current) end_ with
    | Some rest =>
        Some ({| Selection.seg_line := (Lines.walk cps).1;
                 Selection.seg_from := (Lines.walk cps).2;
                 Selection.seg_to := (Lines.walk cps).2 |} :: rest)
    | None => None
    end.
Proof.
  intros m cps Hcur Hlt. cbn [Selection.segments_fuel].
  destruct (Z.ltb_spec current end_); [|lia].
  destruct (resolveLineInfo_past_end content current Hcur)
    as (Hinfo & Hlen & Htotal).
  fold m cps in Hinfo, Hlen, Htotal. rewrite Hinfo. cbn [Lines.line Lines.column].
  unfold Selection.nextLineStart.
  destruct (Z.ltb_spec ((Lines.walk cps).1 + 1) (Z.of_nat (length m.1)));
    [lia|].
  replace (Z.min end_ m.2) with (JsString.cp_length content) by lia.
  destruct (resolveLineInfo_past_end content (JsString.cp_length content)
              ltac:(lia)) as (Hinfo' & _).
  fold m cps in Hinfo'. rewrite Hinfo'. cbn [Lines.column].
  destruct (Z.ltb_spec current (JsString.cp_length content)); [lia|].
  reflexivity.
Qed.

Lemma segments_past_end content (n : nat) current :
  let m := Lines.lineMetadata content in
  let cps := JsString.code_points content in
  JsString.cp_length content <= current ->
  current + Z.of_nat n <= Selection.two53 ->
  Selection.segments_fuel n m.1 m.2 current (current + Z.of_nat n)
  = Some (replicate n {| Selection.seg_line := (Lines.walk cps).1;
                         Selection.seg_from := (Lines.walk cps).2;
                         Selection.seg_to := (Lines.walk cps).2 |}).
Proof.
  intros m cps. revert current. induction n as [|n IH]; intros current Hcur Hhi.
  - cbn [Selection.segments_fuel replicate].
    destruct (Z.ltb_spec current (current + Z.of_nat 0)); [lia | reflexivity].
  - pose proof (segments_turn_past_end content n current
                  (current + Z.of_nat (S n)) Hcur ltac:(lia)) as Hturn.
    fold m cps in Hturn. rewrite Hturn.
    assert (0 <= JsString.cp_length content)
      by (unfold JsString.cp_length; lia).
    rewrite js_add1_exact by (unfold Selection.two53 in *; lia).
    replace (current + Z.of_nat (S n)) with (current + 1 + Z.of_nat n) by lia.
    rewrite IH by lia. reflexivity.
Qed.

(** Where adding one does not move [current], the loop stays. *)
Lemma segments_stuck content (fuel : nat) current end_ :
  let m := Lines.lineMetadata content in
  JsString.cp_length content <= current -> current < end_ ->
  Selection.js_add1 current = current ->
  Selection.segments_fuel fuel m.1 m.2 current end_ = None.
Proof.
  intros m Hcur Hlt Hstuck. induction fuel as [|fuel IH].
  - cbn [Selection.segments_fuel].
    destruct (Z.ltb_spec current end_); [reflexivity | lia].
  - pose proof (segments_turn_past_end content fuel current end_ Hcur Hlt)
      as Hturn.
    fold m in Hturn. cbv zeta in Hturn. rewrite Hturn, Hstuck, IH.
    reflexivity.
Qed.

(** X16. The loop that builds the selection rectangles of a remote
    cursor, for positions that are integers.  As long as anchor and
    position are no larger than [2^53] in size it ends: for every table
    of line starts it leaves within as many turns as there are positions
    between anchor and position, with at most that many rectangles.  But
    the positions come from the peer unchecked: when both ends of the
    selection lie at or past the end of the text, the loop advances one
    position a turn and pushes one rectangle for each, as many as anchor
    and position are apart, all of them of no extent at the end of the
    last line.  And past [2^53] the loop need not end: where the
    selection starts at or past the end of the text at a number that
    adding one does not change, as [2^53] is, no number of turns
    finishes it. *)
Theorem selection_rectangles (content : JsString.jsstring)
    (starts : list Z) (total : Z) (c : CursorState) (a : Z) :
  anchor c = Some a ->
  let n := Z.to_nat (Z.abs (a - position c)) in
  let m := Lines.lineMetadata content in
  let lc := Lines.walk (JsString.code_points content) in
  (Z.abs a <= Selection.two53 -> Z.abs (position c) <= Selection.two53 ->
   (forall fuel, (n <= fuel)%nat ->
      exists segs,
        Selection.selection_segments fuel starts total c = Some segs
        /\ (length segs <= n)%nat)
   /\ (JsString.cp_length content <= Z.min a (position c) ->
       Selection.selection_segments n m.1 m.2 c
       = Some (replicate n {| Selection.seg_line := lc.1;
                              Selection.seg_from := lc.2;
                              Selection.seg_to := lc.2 |})))
  /\ (JsString.cp_length content <= Z.min a (position c) ->
      a <> position c ->
      Selection.js_add1 (Z.min a (position c)) = Z.min a (position c) ->
      forall fuel, Selection.selection_segments fuel m.1 m.2 c = None)
  /\ Selection.js_add1 Selection.two53 = Selection.two53.
Proof.
  intros Ha n m lc. unfold Selection.selection_segments. rewrite Ha.
  split; [|split; [|reflexivity]].
  - intros Hsa Hsp. split.
    + intros fuel Hfuel. destruct (Z.eqb_spec a (position c)) as [Heq|Hne].
      * exists []. split; [reflexivity | simpl; lia].
      * destruct (segments_fuel_returns starts total fuel
                    (Z.min a (position c)) (Z.max a (position c)))
          as (segs & Hsegs & Hlen); [lia | lia | lia |].
        exists segs. split; [assumption | lia].
    + intros Hpast. destruct (Z.eqb_spec a (position c)) as [Heq|Hne].
      * replace n with 0%nat by lia. reflexivity.
      * replace (Z.max a (position c))
          with (Z.min a (position c) + Z.of_nat n) by lia.
        apply segments_past_end; [assumption | lia].
  - intros Hpast Hne Hstuck fuel.
    destruct (Z.eqb_spec a (position c)) as [Heq|_]; [contradiction|].
    apply segments_stuck; [assumption | lia | assumption].
Qed.

Lemma selection_rectangles_witness :
  let c := {| position := 3; anchor := Some 6; selection_direction := None |} in
  let far := {| position := Selection.two53 + 2;
                anchor := Some Selection.two53;
                selection_direction := None |} in
  let m := Lines.lineMetadata (js "ab") in
  Selection.selection_segments 3 m.1 m.2 c
  = Some (replicate 3 {| Selection.seg_line := 0; Selection.seg_from := 2;
                         Selection.seg_to := 2 |})
  /\ forall fuel, Selection.selection_segments fuel m.1 m.2 far = None.
Proof.
  intros c far m. split.
  - exact (proj2 (proj1 (selection_rectangles (js "ab") [] 0 c 6 eq_refl)
                    ltac:(vm_compute; discriminate)
                    ltac:(vm_compute; discriminate))
             ltac:(vm_compute; discriminate)).
  - exact (proj1 (proj2 (selection_rectangles (js "ab") [] 0 far
                           Selection.two53 eq_refl))
             ltac:(vm_compute; discriminate) ltac:(vm_compute; discriminate)
             eq_refl).
Defined.

(** ** The pending queue in local storage *)

Lemma isOp_op_json op : Stored.isOp (Stored.op_json op) = Some op.
Proof. destruct op; reflexivity. Qed.

Lemma omap_isOp ops : omap Stored.isOp (map Stored.op_json ops) = ops.
Proof.
  induction ops as [|op ops IH]; [reflexivity|].
  change (omap Stored.isOp (map Stored.op_json (op :: ops)))
    with (match Stored.isOp (Stored.op_json op) with
          | Some y => y :: omap Stored.isOp (map Stored.op_json ops)
          | None => omap Stored.isOp (map Stored.op_json ops)
          end).
  now rewrite isOp_op_json, IH.
Qed.

Lemma cursor_of_cursor_json c :
  Stored.cursor_of_json (Stored.cursor_json c) = Some c.
Proof. destruct c as [p [a|] [[]|]]; reflexivity. Qed.

Lemma normalize_props id br cands cb ca t :
  length (omap Stored.isOp cands) = length cands ->
  (forall c, cb = Some c -> Stored.truthy_json c = true) ->
  (forall c, ca = Some c -> Stored.truthy_json c = true) ->
  Stored.normalize
    (Stored.JObj
       ([(JsString.js "op_id", Stored.JStr id);
         (JsString.js "base_rev", Stored.JNum br);
         (JsString.js "ops", Stored.JArr cands)]
        ++ Stored.optional "cursor_before" cb
        ++ Stored.optional "cursor_after" ca
        ++ Stored.optional "ts" (option_map Stored.JNum t)))
  = Some {| Stored.r_op_id := id; Stored.r_base_rev := br;
            Stored.r_ops := omap Stored.isOp cands;
            Stored.r_cursor_before := cb; Stored.r_cursor_after := ca;
            Stored.r_ts := t |}.
Proof.
  intros Hlen Hcb Hca.
  destruct cb as [cb|], ca as [ca|], t as [t|];
    cbv -[omap length Nat.eqb Stored.truthy_json Stored.isOp];
    match goal with
    | |- context [(?a =? ?b)%nat] =>
        replace (a =? b)%nat with true
          by (symmetry; apply Nat.eqb_eq; exact Hlen)
    end;
    rewrite ?(Hcb _ eq_refl), ?(Hca _ eq_refl); reflexivity.
Qed.

Lemma normalize_edit_json e :
  exists r, Stored.normalize (Stored.edit_json e) = Some r
            /\ Stored.edit_of r = Some e.
Proof.
  destruct e as [id br os cb ca t]. unfold Stored.edit_json.
  cbn [op_id base_rev ops cursor_before cursor_after ts].
  rewrite normalize_props.
  - eexists. split; [reflexivity|]. unfold Stored.edit_of.
    cbn [Stored.r_op_id Stored.r_base_rev Stored.r_ops Stored.r_ts
         Stored.r_cursor_before Stored.r_cursor_after].
    rewrite omap_isOp.
    destruct cb as [cb|], ca as [ca|]; cbn [option_map Stored.optional_cursor];
      rewrite ?cursor_of_cursor_json; reflexivity.
  - now rewrite omap_isOp, length_map.
  - intros c Hc. destruct cb; [|discriminate]. now injection Hc as <-.
  - intros c Hc. destruct ca; [|discriminate]. now injection Hc as <-.
Qed.

Lemma normalize_all_edit_json items :
  exists rs, Stored.normalize_all (map Stored.edit_json items) = rs
             /\ mapM Stored.edit_of rs = Some items.
Proof.
  unfold Stored.normalize_all. induction items as [|e items IH].
  - exists []. split; reflexivity.
  - destruct IH as (rs & Hrs & Hm).
    destruct (normalize_edit_json e) as (r & Hr & He).
    exists (r :: rs). split.
    + change (omap Stored.normalize (map Stored.edit_json (e :: items)))
        with (match Stored.normalize (Stored.edit_json e) with
              | Some y => y :: omap Stored.normalize (map Stored.edit_json items)
              | None => omap Stored.normalize (map Stored.edit_json items)
              end).
      now rewrite Hr, Hrs.
    + cbn [mapM]. rewrite He, Hm. reflexivity.
Qed.

Lemma storageKeyQueue_inj prefix slug c c' :
  Stored.storageKeyQueue prefix slug c = Stored.storageKeyQueue prefix slug c'
  -> c = c'.
Proof.
  unfold Stored.storageKeyQueue. intros H.
  do 4 apply app_inv_head in H. exact H.
Qed.

Lemma safeGetItem_set_ne s key key' v :
  key <> key' ->
  Stored.safeGetItem (Stored.safeSetItem s key v) key'
  = Stored.safeGetItem s key'.
Proof.
  intros Hne. unfold Stored.safeGetItem, Stored.safeSetItem.
  destruct (Stored.available s) eqn:Ha, (Stored.full s) eqn:Hf;
    cbn [andb negb Stored.available Stored.texts]; rewrite ?Ha; try reflexivity.
  cbn [Stored.lookup_text].
  now rewrite (proj2 (str_eqb_neq key key')).
Qed.

Lemma safeGetItem_set s key v :
  Stored.available s = true -> Stored.full s = false ->
  Stored.safeGetItem (Stored.safeSetItem s key v) key = Some v.
Proof.
  intros Ha Hf. unfold Stored.safeGetItem, Stored.safeSetItem.
  rewrite Ha, Hf. cbn [andb negb Stored.available Stored.texts].
  cbn [Stored.lookup_text].
  now rewrite (proj2 (str_eqb_eq key key)).
Qed.

Lemma restore_snapshot_json pq :
  exists rs,
    Stored.restore (Some (Stored.snapshot_json (PendingQueue.snapshot pq)))
    = (rs, PendingQueue.latestAck pq)
    /\ mapM Stored.edit_of rs = Some (PendingQueue.q pq).
Proof.
  destruct (normalize_all_edit_json (map PendingQueue.copy_edit (PendingQueue.q pq)))
    as (rs & Hrs & Hm).
  rewrite map_copy_edit in Hm. exists rs. split; [|exact Hm].
  unfold PendingQueue.snapshot, Stored.snapshot_json, Stored.restore.
  cbn [snap_latestAck snap_items option_map Stored.optional app].
  cbn [Stored.lookup_prop].
  change (JsString.str_eqb (JsString.js "latestAck") (JsString.js "items"))
    with false.
  change (JsString.str_eqb (JsString.js "items") (JsString.js "items"))
    with true.
  change (JsString.str_eqb (JsString.js "latestAck") (JsString.js "latestAck"))
    with true.
  cbv iota. now rewrite Hrs.
Qed.

(** X17. The pending queue in local storage.  [persistQueue] writes the
    JSON of the queue's snapshot under a key made of the storage prefix,
    the document's slug and the page's client id.  Where the storage
    takes the write, the restoring effect of a page with the same client
    id reads it back as the queue's latest server sequence number and
    one accepted entry for each pending edit, in order, each with the op
    id, base revision, operations, cursors and time of its edit, so that
    [replace] called with them gives the queue itself; where the storage
    is not available or is full, nothing is written.  But the client id
    is drawn anew whenever the page mounts, and the write leaves what is
    stored under the key of any other client id as it is: a page that
    mounts with another id, as after a reload, restores what was there
    for that id, an empty queue if nothing was.  What the effect makes
    of a text: an array of edits (the older format) is read as these
    edits with the latest server sequence number 0, and nothing usable
    as the empty queue. *)
Theorem stored_queue_restored (s : Stored.LocalStorage)
    (prefix slug clientId clientId' : JsString.jsstring)
    (pq other : PendingQueue.t) (items : list PendingEdit) :
  let s' := Stored.persistQueue s prefix slug clientId pq in
  (Stored.available s = true -> Stored.full s = false ->
   exists rs,
     Stored.restoreQueue s' prefix slug clientId
     = (rs, PendingQueue.latestAck pq)
     /\ mapM Stored.edit_of rs = Some (PendingQueue.q pq)
     /\ PendingQueue.replace other
          (PendingQueue.Snap
             {| snap_latestAck := Some (PendingQueue.latestAck pq);
                snap_items := Some (PendingQueue.q pq) |}) = pq)
  /\ (Stored.available s && negb (Stored.full s) = false -> s' = s)
  /\ (clientId' <> clientId ->
      Stored.restoreQueue s' prefix slug clientId'
      = Stored.restoreQueue s prefix slug clientId'
      /\ (Stored.safeGetItem s (Stored.storageKeyQueue prefix slug clientId')
          = None ->
          Stored.restoreQueue s' prefix slug clientId' = ([], 0)))
  /\ (exists rs,
      Stored.restore (Some (Stored.JArr (map Stored.edit_json items)))
      = (rs, 0)
      /\ mapM Stored.edit_of rs = Some items)
  /\ Stored.restore None = ([], 0)
  /\ Stored.restore (Some Stored.JNull) = ([], 0).
Proof.
  intros s'. subst s'. unfold Stored.persistQueue, Stored.restoreQueue.
  split; [|split; [|split; [|split; [|split; reflexivity]]]].
  - intros Ha Hf. rewrite safeGetItem_set by assumption. cbn [mjoin option_join].
    destruct (restore_snapshot_json pq) as (rs & Hrs & Hm).
    exists rs. split; [exact Hrs|]. split; [exact Hm|].
    unfold PendingQueue.replace. cbn [snap_latestAck snap_items default].
    rewrite map_copy_edit. now destruct pq.
  - intros Hw. unfold Stored.safeSetItem. now rewrite Hw.
  - intros Hne.
    assert (Hkey : Stored.storageKeyQueue prefix slug clientId
                   <> Stored.storageKeyQueue prefix slug clientId').
    { intros H. apply storageKeyQueue_inj in H. congruence. }
    rewrite safeGetItem_set_ne by exact Hkey. split; [reflexivity|].
    now intros ->.
  - destruct (normalize_all_edit_json items) as (rs & Hrs & Hm).
    exists rs. split; [|exact Hm]. unfold Stored.restore. now rewrite Hrs.
Qed.

(** ** The display name *)

Lemma trim_start_suffix s : exists pre, s = pre ++ trim_start s.
Proof.
  induction s as [|c s [pre IH]]; [now exists []|]. simpl.
  destruct (is_js_space c).
  - exists (c :: pre). simpl. now f_equal.
  - now exists [].
Qed.

Lemma trim_start_head s c rest :
  trim_start s = c :: rest -> is_js_space c = false.
Proof.
  induction s as [|d s IH]; simpl; [discriminate|].
  destruct (is_js_space d) eqn:Hd; [exact IH|]. now intros [= <- _].
Qed.

Lemma trim_head s c rest : trim s = c :: rest -> is_js_space c = false.
Proof.
  unfold trim. intros Ht.
  destruct (trim_start_suffix (rev (trim_start s))) as [pre Hpre].
  apply (f_equal (@rev _)) in Hpre. rewrite rev_involutive, rev_app_distr in Hpre.
  rewrite Ht in Hpre. simpl in Hpre.
  exact (trim_start_head s c _ Hpre).
Qed.

Lemma take_shown_name (s : jsstring) :
  s <> [] -> (forall c rest, s = c :: rest -> is_js_space c = false) ->
  Names.shown_name (take 32 s).
Proof.
  intros Hne Hhead. destruct s as [|c rest]; [contradiction|]. split.
  - unfold str_length. rewrite length_take. lia.
  - exists c, (take 31 rest). split; [reflexivity|]. now apply (Hhead c rest).
Qed.

Lemma fallback_shown_name clientId :
  Names.shown_name (Profile.user_prefix ++ Profile.str_slice clientId 0 (Some 6)).
Proof.
  unfold Profile.str_slice. rewrite slice_prefix by lia.
  change (Z.to_nat 6) with 6%nat. split.
  - unfold str_length. rewrite length_app, length_take.
    change (length Profile.user_prefix) with 5%nat. lia.
  - eexists _, _. split; reflexivity.
Qed.

Lemma final_name_shown input clientId :
  Names.shown_name (Profile.final_name input clientId).
Proof.
  rewrite final_name_spec. destruct (bool_decide_reflect (take 32 (trim input) = [])) as [He|Hne].
  - pose proof (fallback_shown_name clientId) as H.
    unfold Profile.str_slice in H. now rewrite slice_prefix in H by lia.
  - apply take_shown_name.
    + intros Ht. rewrite Ht in Hne. now apply Hne.
    + apply trim_head.
Qed.

(** X18. The display name of a client can always be shown: whether it
    is first taken from local storage (whatever is stored there, or
    nothing), made up from the client id, or submitted in the profile
    form (whatever was typed), it has at most 32 code units and starts
    with a character that is not white space; in particular it is never
    empty.  A stored name that is not blank after trimming is used, cut
    to its first 32 code units; otherwise the made-up name is. *)
Theorem display_name_shown (window : bool) (stored : option jsstring)
    (clientId input : jsstring) (st : EditPage.t) (now now' : Z) :
  Names.shown_name (Names.getInitialDisplayName window stored clientId)
  /\ Names.shown_name (Profile.final_name input clientId)
  /\ Names.shown_name
       (EditPage.displayName (Profile.handleProfileSubmit st now now').1)
  /\ Names.getInitialDisplayName window stored clientId
     = match stored with
       | Some s =>
           if window && negb (bool_decide (trim s = []))
           then take 32 (trim s)
           else Profile.fallbackLabel clientId
       | None => Profile.fallbackLabel clientId
       end.
Proof.
  assert (Hinit : Names.getInitialDisplayName window stored clientId
     = match stored with
       | Some s =>
           if window && negb (bool_decide (trim s = []))
           then take 32 (trim s)
           else Profile.fallbackLabel clientId
       | None => Profile.fallbackLabel clientId
       end).
  { unfold Names.getInitialDisplayName, Profile.fallbackLabel.
    destruct window, stored as [s|]; try reflexivity. simpl negb. cbv iota.
    unfold Profile.str_slice at 1. rewrite slice_prefix by lia.
    change (Z.to_nat 32) with 32%nat. unfold str_length.
    destruct (trim s) as [|c t] eqn:Ht.
    - rewrite andb_false_r. reflexivity.
    - destruct s as [|d s']; [discriminate Ht|]. reflexivity. }
  split; [|split; [apply final_name_shown|split; [|exact Hinit]]].
  - rewrite Hinit. destruct stored as [s|]; [|apply fallback_shown_name].
    destruct window; [|apply fallback_shown_name]. simpl andb.
    destruct (bool_decide_reflect (trim s = [])) as [He|Hne];
      [apply fallback_shown_name|].
    apply take_shown_name; [assumption | apply trim_head].
  - replace (EditPage.displayName (Profile.handleProfileSubmit st now now').1)
      with (Profile.final_name (EditPage.profileNameInput st) (EditPage.clientId st)).
    + apply final_name_shown.
    + unfold Profile.handleProfileSubmit, Profile.sendProfileUpdate.
      cbv zeta. 
      repeat match goal with
             | |- context [match ?x with _ => _ end] => destruct x
             end; reflexivity.
Qed.

(** ** Pure insertions and deletions *)

Lemma at_index_Z {A} (l : list A) (k : Z) :
  0 <= k -> at_index l k = l !! Z.to_nat k.
Proof.
  intros Hk. rewrite <- (Z2Nat.id k) at 1 by assumption. apply at_index_nat.
Qed.

Lemma elem_eqb_eq a b : elem_eqb a b = true <-> a = b.
Proof. unfold elem_eqb. apply bool_decide_eq_true. Qed.

Lemma diff_split_sym a b i j : diff_split a b i j -> diff_split b a i j.
Proof.
  intros [Hi Hj Ha Hb Hpre Hsuf Hps Hss]. constructor; try assumption.
  - intros k Hk. symmetry. now apply Hpre.
  - intros k Hk. symmetry. now apply Hsuf.
  - rewrite <- Hps. unfold prefix_cond, alen, blen, elem_eqb.
    f_equal; [apply andb_comm | apply bool_decide_ext; split; congruence].
  - rewrite <- Hss. unfold suffix_cond, alen, blen, elem_eqb.
    f_equal; [apply andb_comm | apply bool_decide_ext; split; congruence].
Qed.

(** Between a text and the text with something inserted, the two loops
    of [diffToOps] leave nothing of the shorter text in the middle. *)
Lemma diff_split_insertion (pre text suf : list jsstring) i j :
  diff_split (pre ++ suf) (pre ++ text ++ suf) i j ->
  Z.of_nat (length pre) <= i /\ i + j = alen (pre ++ suf).
Proof.
  intros [Hi Hj Ha Hb _ _ Hps Hss].
  unfold alen, blen in *. rewrite !length_app in *.
  assert (Hpre : Z.of_nat (length pre) <= i).
  { destruct (Z.le_gt_cases (Z.of_nat (length pre)) i) as [|Hlt]; [assumption|].
    exfalso. unfold prefix_cond, alen, blen in Hps.
    rewrite !length_app in Hps.
    rewrite !at_index_Z, !lookup_app_l in Hps by lia.
    rewrite (proj2 (elem_eqb_eq _ _)) in Hps by reflexivity.
    rewrite andb_true_r in Hps. apply andb_false_iff in Hps.
    destruct Hps as [H|H]; apply Z.ltb_ge in H; lia. }
  split; [assumption|].
  destruct (Z.le_gt_cases (Z.of_nat (length pre + length suf) - i) j)
    as [|Hlt]; [lia|].
  exfalso. unfold suffix_cond, alen, blen in Hss.
  rewrite !length_app in Hss.
  rewrite !at_index_Z in Hss by lia.
  rewrite (lookup_app_r pre) in Hss by lia.
  rewrite (lookup_app_r pre), (lookup_app_r text) in Hss by lia.
  replace (Z.to_nat (Z.of_nat (length pre + (length text + length suf)) - 1 - j)
           - length pre - length text)%nat
    with (Z.to_nat (Z.of_nat (length pre + length suf) - 1 - j) - length pre)%nat
    in Hss by lia.
  rewrite (proj2 (elem_eqb_eq _ _)) in Hss by reflexivity.
  rewrite andb_true_r in Hss. apply andb_false_iff in Hss.
  destruct Hss as [H|H]; apply Z.ltb_ge in H; lia.
Qed.

Lemma join_slice_units (s : jsstring) (i e : Z) :
  0 <= i <= e -> e <= Z.of_nat (length s) ->
  join (slice (map (fun c => [c]) s) i (Some e))
  = take (Z.to_nat (e - i)) (drop (Z.to_nat i) s).
Proof.
  intros Hi He. rewrite slice_middle by (rewrite ?length_map; lia).
  rewrite <- fmap_drop, <- fmap_take. apply join_singletons.
Qed.

Lemma no_surrogates_app s t :
  no_surrogates s -> no_surrogates t -> no_surrogates (s ++ t).
Proof. unfold no_surrogates. intros. now apply Forall_app. Qed.

Lemma diffToOps_insertion (pre text suf : jsstring) :
  no_surrogates pre -> no_surrogates text -> no_surrogates suf ->
  text <> [] ->
  exists i : nat,
    (length pre <= i <= length pre + length suf)%nat
    /\ diffToOps (pre ++ suf) (pre ++ text ++ suf)
       = [Insert (Z.of_nat i)
            (take (length text) (drop i (pre ++ text ++ suf)))]
    /\ diffToOps (pre ++ text ++ suf) (pre ++ suf)
       = [Delete (Z.of_nat i) (Z.of_nat (length text))].
Proof.
  intros Hpre Htext Hsuf Hne.
  set (short := pre ++ suf). set (long := pre ++ text ++ suf).
  assert (Hshort : no_surrogates short) by now apply no_surrogates_app.
  assert (Hlong : no_surrogates long)
    by (apply no_surrogates_app; [|apply no_surrogates_app]; assumption).
  assert (Hdiff : short <> long).
  { intros H. apply (f_equal length) in H. unfold short, long in H.
    rewrite !length_app in H. destruct text; [contradiction | simpl in H; lia]. }
  assert (Hcs : code_points short
                = map (fun c => [c]) pre ++ map (fun c => [c]) suf)
    by (rewrite code_points_no_surrogates by assumption; apply map_app).
  assert (Hcl : code_points long
                = map (fun c => [c]) pre ++ map (fun c => [c]) text
                  ++ map (fun c => [c]) suf)
    by (rewrite code_points_no_surrogates by assumption;
        unfold long; now rewrite !map_app).
  assert (Hls : length short = (length pre + length suf)%nat)
    by (unfold short; now rewrite length_app).
  assert (Hll : length long = (length pre + length text + length suf)%nat)
    by (unfold long; rewrite !length_app; lia).
  assert (Htl : (0 < length text)%nat)
    by (destruct text; [contradiction | simpl; lia]).
  destruct (diffToOps_split short long Hdiff) as (i & j & Hs & Hops).
  pose proof Hs as Hs'. rewrite Hcs, Hcl in Hs'.
  apply diff_split_insertion in Hs' as [Hi Hij].
  unfold alen in Hij. rewrite length_app, !length_map in *.
  pose proof Hs as [Hi0 Hj0 _ _ _ _ _ _].
  exists (Z.to_nat i). split; [lia|]. rewrite Z2Nat.id by lia. split.
  - rewrite Hops. unfold diff_ops, alen, blen.
    rewrite !code_points_no_surrogates by assumption.
    rewrite !length_map, !join_slice_units by lia.
    replace (Z.to_nat (Z.of_nat (length short) - j - i)) with 0%nat by lia.
    replace (Z.to_nat (Z.of_nat (length long) - j - i))
      with (length text) by lia.
    rewrite take_0. unfold str_length at 1. simpl.
    unfold str_length. rewrite length_take, length_drop.
    destruct (Z.ltb_spec 0 (Z.of_nat (length text `min` (length long - Z.to_nat i))));
      [reflexivity | lia].
  - destruct (diffToOps_split long short (not_eq_sym Hdiff))
      as (i' & j' & Hs2 & Hops2).
    pose proof (diff_split_sym _ _ _ _ Hs2) as Hs2'. rewrite Hcs, Hcl in Hs2'.
    apply diff_split_insertion in Hs2' as [Hi' Hij'].
    unfold alen in Hij'. rewrite length_app, !length_map in *.
    pose proof Hs2 as [Hi0' Hj0' _ _ _ _ _ _].
    (* both runs stop the first loop at the same place *)
    assert (Heq : i' = i).
    { pose proof (split_prefix_stop _ _ _ _ Hs) as P1.
      pose proof (split_prefix_stop _ _ _ _ Hs2) as P2.
      pose proof (split_prefix _ _ _ _ Hs) as Q1.
      pose proof (split_prefix _ _ _ _ Hs2) as Q2.
      destruct (Z.lt_trichotomy i i') as [Hlt|[Heq|Hgt]]; [|now symmetry|].
      - exfalso. unfold prefix_cond in P1.
        rewrite (proj2 (elem_eqb_eq _ _)) in P1
          by (symmetry; apply Q2; lia).
        rewrite andb_true_r in P1. apply andb_false_iff in P1.
        unfold alen, blen in P1.
        rewrite !code_points_no_surrogates, !length_map in P1 by assumption.
        destruct P1 as [H|H]; apply Z.ltb_ge in H; lia.
      - exfalso. unfold prefix_cond in P2.
        rewrite (proj2 (elem_eqb_eq _ _)) in P2
          by (symmetry; apply Q1; lia).
        rewrite andb_true_r in P2. apply andb_false_iff in P2.
        unfold alen, blen in P2.
        rewrite !code_points_no_surrogates, !length_map in P2 by assumption.
        destruct P2 as [H|H]; apply Z.ltb_ge in H; lia. }
    subst i'. rewrite Hops2. unfold diff_ops, alen, blen.
    rewrite !code_points_no_surrogates by assumption.
    rewrite !length_map, !join_slice_units by lia.
    replace (Z.to_nat (Z.of_nat (length short) - j' - i)) with 0%nat by lia.
    replace (Z.to_nat (Z.of_nat (length long) - j' - i))
      with (length text) by lia.
    rewrite take_0. unfold str_length. rewrite length_take, length_drop.
    simpl length.
    destruct (Z.ltb_spec 0 (Z.of_nat (length text `min` (length long - Z.to_nat i))));
      [|lia].
    simpl. do 2 f_equal. lia.
Qed.

(** X19. Typing and erasing give one operation.  For texts without
    surrogates: when the new text is the old one with a non-empty piece
    inserted somewhere, [diffToOps] returns a single insert, of as many
    characters as the piece and at a position between the place of the
    insertion and the end of the old text (past the place when the
    characters after it repeat the piece); for the opposite change it
    returns a single delete of that length, at such a position.  For a
    piece added to or removed from the end of the text the operation is
    the insert of the piece itself, or the delete of its length, at the
    length of the common part. *)
Theorem pure_edit_is_one_op (pre text suf : jsstring) :
  no_surrogates pre -> no_surrogates text -> no_surrogates suf ->
  text <> [] ->
  let short := pre ++ suf in
  let long := pre ++ text ++ suf in
  (exists pos t,
      diffToOps short long = [Insert pos t]
      /\ str_length t = str_length text
      /\ str_length pre <= pos <= str_length short)
  /\ (exists pos,
      diffToOps long short = [Delete pos (str_length text)]
      /\ str_length pre <= pos <= str_length short)
  /\ (suf = [] ->
      diffToOps pre (pre ++ text) = [Insert (str_length pre) text]
      /\ diffToOps (pre ++ text) pre
         = [Delete (str_length pre) (str_length text)]).
Proof.
  intros Hpre Htext Hsuf Hne short long.
  destruct (diffToOps_insertion pre text suf Hpre Htext Hsuf Hne)
    as (i & Hi & Hins & Hdel).
  fold short long in Hins, Hdel.
  assert (Hls : length short = (length pre + length suf)%nat)
    by (unfold short; now rewrite length_app).
  assert (Hll : length long = (length pre + length text + length suf)%nat)
    by (unfold long; rewrite !length_app; lia).
  unfold str_length. split; [|split].
  - eexists _, _. split; [exact Hins|].
    rewrite length_take, length_drop. lia.
  - eexists. split; [exact Hdel | lia].
  - intros ->. unfold short, long in *. rewrite !app_nil_r in *.
    simpl in Hi. assert (i = length pre) as -> by lia.
    split; [|exact Hdel]. rewrite Hins. do 2 f_equal.
    rewrite drop_app_length. apply take_ge. lia.
Qed.

Lemma pure_edit_is_one_op_witness :
  diffToOps (js "ab") (js "abc") = [Insert 2 (js "c")]
  /\ diffToOps (js "abc") (js "ab") = [Delete 2 1].
Proof.
  assert (H1 : no_surrogates (js "ab")) by (repeat constructor).
  assert (H2 : no_surrogates (js "c")) by (repeat constructor).
  assert (H3 : no_surrogates []) by constructor.
  assert (H4 : js "c" <> []) by discriminate.
  exact (proj2 (proj2 (pure_edit_is_one_op (js "ab") (js "c") [] H1 H2 H3 H4))
           eq_refl).
Defined.

(** ** A selection on its way to a peer *)

(** X20. A peer sees the selection of the sender.  When a page with an
    open socket publishes the cursor of its textarea, its own presence
    entry takes that cursor; and when the server's [cursor] message with
    the frame's slug and cursor and the sender's client id comes in at a
    page showing the same document, and that id is an ordinary key (not
    the name of a member of [Object.prototype]), the sender's entry
    there carries a cursor whose displayed range runs from the smaller
    to the larger of the sender's [selectionStart] and [selectionEnd],
    while the label and colour that page had for the sender (none, if
    it had no entry of its own for the sender) stay and every other
    entry is left alone.  Without an open socket nothing is published
    and the sender's own entry is not touched either. *)
Theorem peer_sees_selection (stA stB : EditPage.t) (ta : Editing.Textarea)
    (id : jsstring) (now now' : Z) (other : jsstring) :
  let r := Publish.publishCursorImmediate stA ta id now in
  let range := Editing.computeSelectionRange ta in
  let shown s k :=
    option_map Editing.shown_range
      (Profile.presence_get (EditPage.presence s) k ≫= cursor) in
  (EditPage.ws stA <> Some OPEN -> r.1.1 = stA /\ r.1.2 = None)
  /\ (EditPage.ws stA = Some OPEN ->
      exists frame,
        r.1.2 = Some frame
        /\ Publish.c_slug frame = EditPage.slug stA
        /\ shown r.1.1 (EditPage.clientId stA)
           = Some (Z.min range.1 range.2, Z.max range.1 range.2)
        /\ (Publish.c_slug frame = EditPage.slug stB ->
            Presence.ordinary (EditPage.clientId stA) = true ->
            exists stB' old,
              Presence.handleCoeditMsg stB
                (CursorIn (Publish.c_slug frame)
                   (EditPage.clientId stA) (Publish.c_cursor frame))
                now' = Some stB'
              /\ Presence.existing (EditPage.presence stB)
                   (EditPage.clientId stA) = Some old
              /\ old = default (Presence.bare (EditPage.clientId stA))
                         (Profile.presence_get (EditPage.presence stB)
                            (EditPage.clientId stA))
              /\ shown stB' (EditPage.clientId stA)
                 = Some (Z.min range.1 range.2, Z.max range.1 range.2)
              /\ (exists e,
                     Profile.presence_get (EditPage.presence stB')
                       (EditPage.clientId stA) = Some e
                     /\ label e = label old /\ color e = color old
                     /\ ime e = ime old)
              /\ (other <> EditPage.clientId stA ->
                  Profile.presence_get (EditPage.presence stB') other
                  = Profile.presence_get (EditPage.presence stB) other))).
Proof.
  intros r range shown. subst r shown.
  unfold Publish.publishCursorImmediate, Publish.sendCursorMessage.
  cbn [fst snd]. split.
  - intros Hws. destruct (EditPage.ws stA) as [[]|]; try (split; reflexivity).
    contradiction.
  - intros ->. eexists. split; [reflexivity|]. cbn [Publish.c_slug Publish.c_cursor].
    split; [reflexivity|].
    pose proof (cursor_state_shown ta) as Hshown. cbv zeta in Hshown.
    fold range in Hshown. split.
    + cbn [fst snd EditPage.presence EditPage.set_presence].
      rewrite presence_get_set. cbn [mbind option_bind cursor option_map].
      now rewrite Hshown.
    + intros Hslug Hord. unfold Presence.handleCoeditMsg.
      rewrite (proj2 (str_eqb_eq _ _)) by exact Hslug.
      rewrite existing_ordinary, assign_ordinary by exact Hord.
      cbn [option_map]. eexists _, _.
      split; [reflexivity|]. split; [reflexivity|]. split; [reflexivity|].
      cbn [EditPage.presence EditPage.set_presence]. split; [|split].
      * rewrite presence_get_set. cbn [mbind option_bind cursor option_map].
        now rewrite Hshown.
      * eexists. split; [apply presence_get_set|]. repeat split.
      * intros Hother. now apply presence_get_set_ne.
Qed.

(** ** Operations on texts without surrogates *)

Lemma join_take_units (s : jsstring) (k : nat) :
  join (take k (map (fun c => [c]) s)) = take k s.
Proof. rewrite <- fmap_take. apply join_singletons. Qed.

Lemma join_drop_units (s : jsstring) (k : nat) :
  join (drop k (map (fun c => [c]) s)) = drop k s.
Proof. rewrite <- fmap_drop. apply join_singletons. Qed.

Lemma applyOp_insert_units s p t :
  no_surrogates s -> 0 <= p ->
  applyOp s (Insert p t) = take (Z.to_nat p) s ++ t ++ drop (Z.to_nat p) s.
Proof.
  intros Hs Hp. rewrite applyOp_insert by assumption.
  unfold TextBuffer.insert, cp_length.
  rewrite code_points_no_surrogates by assumption.
  rewrite length_map, join_take_units, join_drop_units.
  destruct (Z.le_gt_cases p (Z.of_nat (length s))).
  - now rewrite Z.min_l by lia.
  - rewrite Z.min_r, Nat2Z.id by lia.
    rewrite !take_ge, !drop_ge by lia. reflexivity.
Qed.

Lemma applyOp_delete_units s p n :
  no_surrogates s -> 0 <= p -> 0 <= n ->
  applyOp s (Delete p n)
  = take (Z.to_nat p) s ++ drop (Z.to_nat p + Z.to_nat n) s.
Proof.
  intros Hs Hp Hn. rewrite applyOp_delete by assumption.
  unfold TextBuffer.delete, cp_length.
  rewrite code_points_no_surrogates by assumption.
  rewrite length_map, join_take_units, join_drop_units.
  destruct (Z.le_gt_cases p (Z.of_nat (length s))).
  - rewrite (Z.min_l p) by lia.
    destruct (Z.le_gt_cases n (Z.of_nat (length s) - p)).
    + now rewrite Z.min_l by lia.
    + rewrite Z.min_r by lia. rewrite !drop_ge by lia. reflexivity.
  - rewrite (Z.min_r p) by lia. rewrite !take_ge, !drop_ge by lia.
    reflexivity.
Qed.

(** X21. Undoing an operation by its position.  On texts without
    surrogates and for a position inside the text, an insert followed by
    the delete of as many characters at the same position gives the text
    back, and so does a delete followed by the insert of the deleted
    characters at the same position.  Past the end of the text this
    fails: the insert is clamped to the end, the delete is clamped
    against the longer text, and part of the inserted text is left. *)
Theorem applyOps_undo (s t : jsstring) (p n : Z) :
  no_surrogates s -> no_surrogates t -> 0 <= p -> 0 <= n ->
  (p <= str_length s ->
     applyOps s [Insert p t; Delete p (str_length t)] = s)
  /\ (p + n <= str_length s ->
     applyOps s [Delete p n;
                 Insert p (take (Z.to_nat n) (drop (Z.to_nat p) s))] = s)
  /\ (str_length s < p ->
     applyOps s [Insert p t; Delete p (str_length t)]
     = s ++ take (Z.to_nat (p - str_length s)) t).
Proof.
  intros Hs Ht Hp Hn. unfold applyOps, str_length. cbn [fold_left].
  set (P := Z.to_nat p). set (N := Z.to_nat n).
  assert (H1 : no_surrogates (take P s ++ t ++ drop P s)).
  { repeat apply no_surrogates_app; try assumption.
    - now apply Forall_take.
    - now apply Forall_drop. }
  assert (H2 : no_surrogates (take P s ++ drop (P + N) s)).
  { apply no_surrogates_app; [now apply Forall_take | now apply Forall_drop]. }
  split; [|split].
  - intros Hle. rewrite applyOp_insert_units by assumption. fold P.
    rewrite applyOp_delete_units by (assumption || lia). fold P.
    rewrite Nat2Z.id.
    assert (HP : P = length (take P s)) by (rewrite length_take; lia).
    rewrite take_app_length' by assumption.
    rewrite app_assoc, drop_app_length'
      by (rewrite length_app; lia).
    apply take_drop.
  - intros Hle. rewrite applyOp_delete_units by assumption. fold P N.
    rewrite applyOp_insert_units by assumption. fold P.
    assert (HP : P = length (take P s)) by (rewrite length_take; lia).
    rewrite take_app_length', drop_app_length' by assumption.
    rewrite <- (take_drop P s) at 4. f_equal.
    rewrite <- drop_drop. apply take_drop.
  - intros Hgt. rewrite applyOp_insert_units by assumption. fold P.
    rewrite take_ge, drop_ge, app_nil_r by lia.
    rewrite applyOp_delete_units
      by (try apply no_surrogates_app; assumption || lia).
    fold P. rewrite Nat2Z.id.
    rewrite (drop_ge (s ++ t)) by (rewrite length_app; lia).
    rewrite app_nil_r, take_app, (take_ge s) by lia.
    do 2 f_equal. lia.
Qed.

Lemma applyOps_undo_witness :
  applyOps (js "abc") [Insert 1 (js "xy"); Delete 1 2] = js "abc"
  /\ applyOps (js "abc") [Insert 5 (js "xy"); Delete 5 2] = js "abcxy".
Proof.
  assert (H1 : no_surrogates (js "abc")) by (repeat constructor).
  assert (H2 : no_surrogates (js "xy")) by (repeat constructor).
  split.
  - exact (proj1 (applyOps_undo (js "abc") (js "xy") 1 0 H1 H2
                    ltac:(lia) ltac:(lia)) ltac:(vm_compute; discriminate)).
  - exact (proj2 (proj2 (applyOps_undo (js "abc") (js "xy") 5 0 H1 H2
                           ltac:(lia) ltac:(lia))) eq_refl).
Defined.

(** ** Operations with a negative position *)

Lemma slice_neg_prefix {A} (l : list A) (pos : Z) :
  pos < 0 ->
  slice l 0 (Some pos)
  = take (Z.to_nat (Z.max (Z.of_nat (length l) + pos) 0)) l.
Proof.
  intros Hpos. unfold slice, rel_index.
  replace (0 <? 0) with false by reflexivity.
  replace (pos <? 0) with true by (symmetry; apply Z.ltb_lt; lia).
  rewrite (Z.min_l 0) by lia. change (Z.to_nat 0) with 0%nat.
  rewrite drop_0. f_equal. lia.
Qed.

Lemma slice_neg_suffix {A} (l : list A) (pos : Z) :
  pos < 0 ->
  slice l pos None
  = drop (Z.to_nat (Z.max (Z.of_nat (length l) + pos) 0)) l.
Proof.
  intros Hpos. unfold slice, rel_index.
  replace (pos <? 0) with true by (symmetry; apply Z.ltb_lt; lia).
  apply take_ge. rewrite length_drop. lia.
Qed.

Lemma join_nonempty_length (cps : list jsstring) :
  Forall (fun cp => cp <> []) cps -> (length cps <= length (join cps))%nat.
Proof.
  unfold join. induction 1 as [|cp cps Hcp _ IH]; simpl; [lia|].
  rewrite length_app. destruct cp; [contradiction | simpl; lia].
Qed.

(** X22. Operations with a negative position.  [applyOps] takes them as
    [slice] does, counted back from the end of the text (and not before
    its start): an insert at [pos < 0] puts the text [-pos] code points
    before the end, and a delete whose range ends before the end of the
    text removes the code points of that range.  But a delete at a
    negative position whose [pos + len] is not negative takes its tail
    from position [pos + len] counted from the start: the result is the
    text up to the position followed by the text from [pos + len] on,
    and when [pos + len] lies before the position it is longer than the
    text was. *)
Theorem applyOps_negative_position (s text : jsstring) (pos len : Z) :
  pos < 0 ->
  let cps := code_points s in
  let n := cp_length s in
  let k := Z.to_nat (Z.max (n + pos) 0) in
  applyOps s [Insert pos text] = TextBuffer.insert cps k text
  /\ (0 <= len -> pos + len < 0 ->
      applyOps s [Delete pos len]
      = TextBuffer.delete cps k (Z.to_nat (Z.max (n + pos + len) 0) - k))
  /\ (0 <= pos + len ->
      applyOps s [Delete pos len]
      = join (take k cps) ++ join (drop (Z.to_nat (pos + len)) cps))
  /\ (0 <= pos + len < n + pos ->
      (length s < length (applyOps s [Delete pos len]))%nat).
Proof.
  intros Hpos cps n k. unfold applyOps. cbn [fold_left]. unfold applyOp.
  fold cps. rewrite !slice_neg_prefix, slice_neg_suffix by assumption.
  unfold n, cp_length in k. fold cps in k. fold k.
  assert (Htail : 0 <= pos + len ->
            slice cps (pos + len) None = drop (Z.to_nat (pos + len)) cps).
  { intros H. rewrite slice_suffix by assumption.
    destruct (Z.le_gt_cases (pos + len) (Z.of_nat (length cps))).
    - now rewrite Z.min_l by lia.
    - rewrite Z.min_r, Nat2Z.id by lia. rewrite !drop_ge by lia. reflexivity. }
  split; [reflexivity|]. split; [|split].
  - intros Hlen Hend. unfold TextBuffer.delete.
    rewrite slice_neg_suffix by assumption. do 3 f_equal.
    unfold n, cp_length. fold cps. lia.
  - intros Hend. now rewrite Htail.
  - intros Hend. rewrite Htail by lia.
    set (m := Z.to_nat (pos + len)).
    assert (Hmk : (m < k)%nat) by (unfold n, cp_length in Hend; fold cps in Hend; lia).
    assert (Hk : (k <= length cps)%nat) by lia.
    rewrite <- (take_drop (k - m) (drop m cps)), drop_drop.
    replace (m + (k - m))%nat with k by lia.
    rewrite join_app, !length_app.
    assert (Hs : length s = (length (join (take k cps))
                             + length (join (drop k cps)))%nat).
    { rewrite <- length_app, <- join_app, take_drop. unfold cps.
      now rewrite join_code_points. }
    pose proof (join_nonempty_length (take (k - m) (drop m cps))
                  ltac:(apply Forall_take, Forall_drop, code_points_nonempty))
      as Hpos'.
    rewrite length_take, length_drop in Hpos'. lia.
Qed.

Lemma applyOps_negative_position_witness :
  applyOps (js "abcdef") [Insert (-2) (js "X")] = js "abcdXef"
  /\ applyOps (js "abcdef") [Delete (-2) 2] = js "abcdabcdef".
Proof.
  pose proof (applyOps_negative_position (js "abcdef") (js "X") (-2) 2
                ltac:(lia)) as H.
  cbv zeta in H. destruct H as (Hins & _ & Hdel & _).
  split; [exact Hins | exact (Hdel ltac:(lia))].
Defined.

(** ** The stored password *)

Lemma getItem_removeItem l key k :
  Passwords.getItem (Passwords.removeItem l key) k
  = if decide (k = key) then None else Passwords.getItem l k.
Proof.
  unfold Passwords.removeItem.
  induction l as [|[k' v] l IH]; simpl; [now destruct (decide _)|].
  destruct (str_eqb k' key) eqn:Hk; simpl.
  - rewrite IH. apply str_eqb_eq in Hk as ->.
    destruct (decide (k = key)) as [->|Hne]; [reflexivity|].
    now rewrite (proj2 (str_eqb_neq key k)) by congruence.
  - rewrite IH. apply str_eqb_neq in Hk.
    destruct (decide (k = key)) as [->|Hne]; [|reflexivity].
    now rewrite (proj2 (str_eqb_neq k' key)).
Qed.

Lemma getItem_setItem l key value k :
  Passwords.getItem (Passwords.setItem l key value) k
  = if decide (k = key) then Some value else Passwords.getItem l k.
Proof.
  unfold Passwords.setItem. simpl. rewrite getItem_removeItem.
  destruct (decide (k = key)) as [->|Hne].
  - now rewrite (proj2 (str_eqb_eq key key)).
  - now rewrite (proj2 (str_eqb_neq key k)) by congruence.
Qed.

Lemma passwordKey_inj prefix slug slug' :
  Passwords.passwordKey prefix slug = Passwords.passwordKey prefix slug' ->
  slug = slug'.
Proof.
  unfold Passwords.passwordKey. intros H.
  apply app_inv_head in H. now apply app_inv_head in H.
Qed.

Lemma buildBasicToken_fits (btoa : bool) (slug pw : jsstring) :
  Passwords.buildBasicToken btoa slug pw
  = if negb btoa || Passwords.latin1 (slug ++ js ":" ++ pw)
    then Passwords.Ok
           (if btoa then Passwords.BtoaToken (slug ++ js ":" ++ pw)
            else Passwords.BufferToken (slug ++ js ":" ++ pw))
    else Passwords.Throws.
Proof.
  unfold Passwords.buildBasicToken.
  destruct btoa; [|reflexivity]. cbn [negb orb].
  now destruct (Passwords.latin1 _).
Qed.

(** The strings [window.btoa] throws for. *)
Lemma latin1_false (slug pw : jsstring) :
  Passwords.latin1 (slug ++ js ":" ++ pw) = false
  <-> exists c, c ∈ slug ++ pw /\ 255 < c.
Proof.
  unfold Passwords.latin1. rewrite !forallb_app.
  change (forallb (fun c => c <=? 255) (js ":")) with true. cbn [andb].
  rewrite <- forallb_app. rewrite <- not_true_iff_false, forallb_forall.
  split.
  - intros Hnot.
    destruct (decide (Exists (fun c => 255 < c) (slug ++ pw))) as [Hex|Hnex].
    + apply Exists_exists in Hex as (c & Hin & Hc). now exists c.
    + exfalso. apply Hnot. intros c Hin. apply Z.leb_le.
      destruct (Z.le_gt_cases c 255) as [|Hgt]; [assumption|].
      exfalso. apply Hnex. apply Exists_exists. exists c.
      split; [now apply list_elem_of_In | lia].
  - intros (c & Hin & Hc) Hall. apply list_elem_of_In in Hin.
    apply Hall in Hin. apply Z.leb_le in Hin. lia.
Qed.

